(** * de4rec: the dual-encoder dataset builder and top-k retrieval

    A shallow embedding of [src/de4rec/train.py]: the negative-sampling
    dataset builder ([DualEncoderDatasets]) and the top-k retrieval of the
    embedding model ([DualEncoderModel]).

    Conventions.
    - Python integers are [Z]; positions inside a list are [nat].
    - A call that can raise returns a [result]; the exception classes the
      code can meet are the constructors of [exn].
    - NumPy and PyTorch are libraries outside the repository: the
      operations whose output depends on the library's internals (the
      order [argsort] gives to equal keys, the random draws, the float
      kernels) are the fields of the interfaces [Numpy] and [Torch], their
      documented contracts are [NumpyLaws] and [TorchLaws], and a
      reference implementation of each is given to run the code on
      concrete inputs.
    - Frequency counts are integer-valued floats and are kept as [Z];
      quotients are exact rationals ([Q]); a quotient by zero (NaN or an
      infinity in NumPy) is [None].
    - A finite Python float is kept as the rational it stands for. The one
      float product whose rounding the code can see, the cut-off
      [int(len * freq_margin)] of [neg_choice], is rounded as binary64
      rounds it ([float64_round]).
    - PyTorch unpacks a Python integer into an int64. What it raises for an
      integer that does not fit depends on its version and is left to the
      interface [Torch].
    - A Python [str] is the list of its code points. The loaders of
      [DualEncoderLoadData] take the text read from the file: opening and
      decoding are not modelled. [int] of a string is left to the
      interpreter ([Python], [PythonLaws]). *)

From Stdlib Require Import ZArith QArith Qabs Qround Lia.
From stdpp Require Import base tactics option list sets sorting strings gmap.

Local Open Scope Z_scope.

(** ** Python values and exceptions

    [TypeError] and [OverflowError] are met only as classes PyTorch may
    raise for an integer that does not fit int64. *)

Inductive exn : Set :=
  IndexError | ValueError | RuntimeError | TypeError | OverflowError.

Inductive result (A : Type) : Type :=
| Return (a : A)
| Raise (e : exn).
Arguments Return {A} a.
Arguments Raise {A} e.

#[global] Instance result_ret : MRet result := λ A a, Return a.
#[global] Instance result_bind : MBind result := λ A B f m,
  match m with
  | Return a => f a
  | Raise e => Raise e
  end.
#[global] Instance result_fmap : FMap result := λ A B f m,
  match m with
  | Return a => Return (f a)
  | Raise e => Raise e
  end.

(** [for x in l: s = body(x, s)] where the body may raise. *)
Fixpoint py_for {A S : Type} (body : A → S → result S) (l : list A) (s : S)
  : result S :=
  match l with
  | [] => Return s
  | x :: l' => s' ← body x s; py_for body l' s'
  end.

(** [l[start:]] for any Python integer [start]. *)
Definition py_slice_from {A : Type} (start : Z) (l : list A) : list A :=
  if decide (start < 0)
  then drop (Z.to_nat (Z.max 0 (Z.of_nat (length l) + start))) l
  else drop (Z.to_nat start) l.

(** [int(q)]: truncation toward zero. *)
Definition py_int (q : Q) : Z := Z.quot (Qnum q) (Z.pos (Qden q)).

(** *** Python floats

    A finite float is kept as the rational it stands for.
    [float64_round x] is the binary64 number nearest to [x], ties going to
    the even significand: 53 bits of precision and [-1074] as the least
    exponent. The exponent is not bounded from above: a result beyond the
    largest float (an infinity) is not modelled. *)

(** [2^e] for [0 <= e], and [1] otherwise. *)
Definition pow2 (e : Z) : Z := 2 ^ Z.max 0 e.

(** [floor(log2(a / b))] for positive [a] and [b]. *)
Definition ilog2 (a b : Z) : Z :=
  let d := Z.log2 a - Z.log2 b in
  if decide (b * pow2 d ≤ a * pow2 (- d)) then d else d - 1.

(** The integer nearest to [n / d], ties to the even one ([0 <= n], [0 < d]). *)
Definition round_half_even (n d : Z) : Z :=
  let q := n `div` d in
  let r := n `mod` d in
  if decide (2 * r < d) then q
  else if decide (d < 2 * r) then q + 1
  else if Z.even q then q else q + 1.

(** [m * 2^e] as a rational. *)
Definition Qldexp (m e : Z) : Q :=
  if decide (0 ≤ e) then inject_Z (m * pow2 e) else m # Z.to_pos (pow2 (- e)).

(** The float nearest to [a / b] for positive [a] and [b]. *)
Definition float64_round_pos (a b : Z) : Q :=
  let e := Z.max (ilog2 a b - 52) (- 1074) in
  Qldexp (round_half_even (a * pow2 (- e)) (b * pow2 e)) e.

Definition float64_round (x : Q) : Q :=
  match Qnum x with
  | 0 => 0%Q
  | Z.pos a => float64_round_pos (Z.pos a) (Z.pos (Qden x))
  | Z.neg a => (- float64_round_pos (Z.pos a) (Z.pos (Qden x)))%Q
  end.

(** A labelled example [(user_id, item_id, label)]. *)
Definition example : Type := Z * Z * Z.

(** ** [ListDataset] *)

Record ListDataset : Type := { data : list example }.

(** ** [DualEncoderDatasets.create_dataset]

    [tqdm] only reports progress: the loop runs over the list itself. *)

(** The inner loop: [for pos_item_id, neg_item_id in zip(...)], appending
    two examples per pair to the accumulator [dataset]. *)
Fixpoint create_dataset_inner (user_id : Z) (pos_item_ids neg_item_ids : list Z)
    (dataset : list example) : list example :=
  match pos_item_ids, neg_item_ids with
  | pos_item_id :: ps, neg_item_id :: ns =>
      create_dataset_inner user_id ps ns
        (dataset ++ [(user_id, pos_item_id, 1)] ++ [(user_id, neg_item_id, -1)])
  | _, _ => dataset
  end.

Definition create_dataset (pos_neg_interactions : list (Z * list Z * list Z))
  : list example :=
  foldl (λ dataset '(user_id, pos_item_ids, neg_item_ids),
           create_dataset_inner user_id pos_item_ids neg_item_ids dataset)
        [] pos_neg_interactions.

(** The examples one user contributes, read off the loop body. *)
Fixpoint user_examples (user_id : Z) (pos_item_ids neg_item_ids : list Z)
  : list example :=
  match pos_item_ids, neg_item_ids with
  | p :: ps, n :: ns =>
      (user_id, p, 1) :: (user_id, n, -1) :: user_examples user_id ps ns
  | _, _ => []
  end.

(** ** NumPy: the deterministic part *)

(** Bounds check of one integer index into an array of length [len]:
    [-len <= i < 0] counts from the end, anything else out of
    [[0, len)] is an [IndexError]. *)
Definition np_index (len : nat) (i : Z) : result nat :=
  if decide (0 ≤ i < Z.of_nat len) then Return (Z.to_nat i)
  else if decide (- Z.of_nat len ≤ i < 0) then Return (Z.to_nat (Z.of_nat len + i))
  else Raise IndexError.

(** [np.ones(n)]. *)
Definition np_ones (n : Z) : result (list Z) :=
  if decide (n < 0) then Raise ValueError
  else Return (replicate (Z.to_nat n) 1).

(** [a[idx] = v] where [idx = np.array(ids)] for a list of Python integers.
    The array built from an empty list has dtype float64 and is refused as
    an index; otherwise every index is checked before anything is
    written. *)
Definition np_setitem (a : list Z) (idx : list Z) (v : Z) : result (list Z) :=
  if decide (idx = []) then Raise IndexError
  else ks ← mapM (np_index (length a)) idx;
       Return (foldl (λ a k, <[k:=v]> a) a ks).

(** [a[idx]] for an array [idx] of positions. *)
Definition np_take (a : list Z) (idx : list nat) : list Z :=
  (λ k, a !!! k) <$> idx.

(** [a.sum()]. *)
Definition np_sum (a : list Z) : Z := foldr Z.add 0 a.

(** [a / s]: a quotient by zero is NaN or an infinity, here [None]. *)
Definition np_true_divide (a : list Z) (s : Z) : list (option Q) :=
  (λ x, if decide (s = 0) then None else Some (inject_Z x / inject_Z s)%Q) <$> a.

#[global] Instance Q_lt_dec (x y : Q) : Decision (x < y)%Q :=
  Z.lt_dec (Qnum x * QDen y) (Qnum y * QDen x).

Definition Qsum (p : list Q) : Q := foldr Qplus 0%Q p.

(** [np.count_nonzero(p > 0)]. *)
Definition count_positive (p : list Q) : nat :=
  length (filter (λ x, (0 < x)%Q) p).

(** [sqrt(np.finfo(np.float64).eps)], that is [2^-26]. *)
Definition np_atol : Q := 1 # 67108864.

(** ** NumPy: the part left to the library

    [argsort a] is [np.argsort(a)] (the default kind is not stable: the
    order of equal keys is the library's). [rng] is the state of the
    process-global generator behind [np.random.choice]; [draw s p k] is the
    sampling loop of [choice(..., replace=False, p=p)] once the arguments
    have been validated: [k] positions of [p], and the generator state
    afterwards. *)
Class Numpy : Type := {
  argsort : list Z → list nat;
  rng : Type;
  draw : rng → list Q → nat → list nat * rng
}.

(** [np.random.choice(a, size=size, replace=False, p=p)]: the validation
    NumPy performs, in its order, every failure a [ValueError] raised before
    the generator is touched; then the draw. *)
Definition np_random_choice {N : Numpy} (s : rng) (a : list nat) (size : Z)
    (p : list (option Q)) : result (list nat) * rng :=
  let pop_size := length a in
  if decide (pop_size = 0%nat ∧ size ≠ 0) then (Raise ValueError, s)
  else if decide (length p ≠ pop_size) then (Raise ValueError, s)
  else match mapM id p with
  | None => (Raise ValueError, s)
  | Some q =>
    if decide (Exists (λ x, (x < 0)%Q) q) then (Raise ValueError, s)
    else if decide (np_atol < Qabs (Qsum q - 1))%Q then (Raise ValueError, s)
    else if decide (Z.of_nat pop_size < size) then (Raise ValueError, s)
    else if decide (size < 0) then (Raise ValueError, s)
    else if decide (Z.of_nat (count_positive q) < size) then (Raise ValueError, s)
    else let '(idx, s') := draw s q (Z.to_nat size) in
         (Return ((λ i, a !!! i) <$> idx), s')
  end.

(** ** [DualEncoderDatasets] *)

Record DualEncoderDatasets : Type := {
  interactions : list (Z * Z);
  users : list (Z * string);
  items : list (Z * string);
  _users_size : Z;
  _items_size : Z
}.

(** [max(l, key=lambda tu: tu[0])[0]]; [max] of an empty list raises. *)
Definition py_max_id (l : list (Z * string)) : result Z :=
  match l with
  | [] => Raise ValueError
  | x :: l' => Return (foldl (λ m y, if decide (m < y.1) then y.1 else m) x.1 l')
  end.

(** The dataclass constructor followed by [__post_init__]. *)
Definition DualEncoderDatasets_init (interactions : list (Z * Z))
    (users items : list (Z * string)) : result DualEncoderDatasets :=
  mu ← py_max_id users;
  mi ← py_max_id items;
  Return {| interactions := interactions; users := users; items := items;
            _users_size := mu + 1; _items_size := mi + 1 |}.

Definition users_size (self : DualEncoderDatasets) : Z := _users_size self.
Definition items_size (self : DualEncoderDatasets) : Z := _items_size self.

(** A Python [dict] with integer keys: the association list of its items
    in insertion order. Assigning to a present key keeps its place. *)
Fixpoint dict_get {V : Type} (d : list (Z * V)) (k : Z) : option V :=
  match d with
  | [] => None
  | (k', v) :: d' => if decide (k' = k) then Some v else dict_get d' k
  end.

Fixpoint dict_set {V : Type} (d : list (Z * V)) (k : Z) (v : V) : list (Z * V) :=
  match d with
  | [] => [(k, v)]
  | (k', v') :: d' =>
      if decide (k' = k) then (k, v) :: d' else (k', v') :: dict_set d' k v
  end.

(** *** [make_pos_distributions] *)


(** The body of the loop over the interactions. *)
Definition make_pos_distributions_body (interaction : Z * Z)
    (state : list Z * list (Z * list Z)) : result (list Z * list (Z * list Z)) :=
  let '(user_id, item_id) := interaction in
  let '(freq_dist, pos_interactions) := state in
  k ← np_index (length freq_dist) item_id;
  Return (<[k := freq_dist !!! k + 1]> freq_dist,
          dict_set pos_interactions user_id
            (default [] (dict_get pos_interactions user_id) ++ [item_id])).

Definition make_pos_distributions (self : DualEncoderDatasets)
    (interactions : list (Z * Z)) : result (list Z * list (Z * list Z)) :=
  freq_dist ← np_ones (items_size self);
  py_for make_pos_distributions_body interactions (freq_dist, []).

(** *** [neg_choice] *)

(** [int(len(freq_dist_copy) * freq_margin)]: the length becomes a float,
    the product of the two floats is rounded to a float, and [int]
    truncates it. [freq_margin] stands for the float nearest to it (a float
    is its own nearest float). A margin so large that the product is an
    infinity, of which [int] raises [OverflowError], is outside the
    model. *)
Definition freq_margin_num (len : nat) (freq_margin : Q) : Z :=
  py_int (float64_round (float64_round (inject_Z (Z.of_nat len))
                         * float64_round freq_margin)).

(** [np.argsort(freq_dist_copy)[-freq_margin_num:]]. *)
Definition item_id_to_choice {N : Numpy} (freq_dist_copy : list Z) (freq_margin : Q)
  : list nat :=
  py_slice_from (- freq_margin_num (length freq_dist_copy) freq_margin)
                (argsort freq_dist_copy).

(** [list(set(pos_item_ids))]: the distinct ids, in an order nothing below
    depends on. *)
Definition distinct (pos_item_ids : list Z) : list Z := remove_dups pos_item_ids.

(** The fallback branch also prints the pool shape and [n_samples] on the
    standard output, which is not part of the returned value. *)
Definition neg_choice {N : Numpy} (freq_dist : list Z) (pos_item_ids : list Z)
    (freq_margin : Q) (neg_per_sample : Z) (s : rng) : result (list Z) * rng :=
  let freq_dist_copy := freq_dist in
  let pos_item_ids := distinct pos_item_ids in
  match np_setitem freq_dist_copy pos_item_ids 0 with
  | Raise e => (Raise e, s)
  | Return freq_dist_copy =>
    let item_id_to_choice := item_id_to_choice freq_dist_copy freq_margin in
    let freq_dist_copy := np_take freq_dist_copy item_id_to_choice in
    let freq_dist_copy := np_true_divide freq_dist_copy (np_sum freq_dist_copy) in
    let n_samples := neg_per_sample * Z.of_nat (length pos_item_ids) in
    match np_random_choice s item_id_to_choice n_samples freq_dist_copy with
    | (Return chosen, s') => (Return (Z.of_nat <$> chosen), s')
    | (Raise ValueError, s') => (Return (replicate (Z.to_nat n_samples) 0), s')
    | (Raise e, s') => (Raise e, s')
    end
  end.

(** The candidate pool [neg_choice] hands to [np.random.choice]. *)
Definition candidate_pool {N : Numpy} (freq_dist : list Z) (pos_item_ids : list Z)
    (freq_margin : Q) : result (list nat) :=
  freq_dist_copy ← np_setitem freq_dist (distinct pos_item_ids) 0;
  Return (item_id_to_choice freq_dist_copy freq_margin).

(** The candidates that are not among the positives. *)
Definition outside (pos_item_ids : list Z) (pool : list nat) : list nat :=
  filter (λ c, Z.of_nat c ∉ pos_item_ids) pool.

(** *** [make_negative_samples]

    [list(pool.map(f, pos_interactions.items()))]: every task runs, the
    results come back in submission order and the first failed one re-raises
    when the list is built. The tasks share the global generator; the
    schedule modelled is the one where they draw in submission order. *)
Fixpoint pool_map {N : Numpy} {A B : Type} (f : A → rng → result B * rng)
    (l : list A) (s : rng) : result (list B) * rng :=
  match l with
  | [] => (Return [], s)
  | x :: l' =>
      let '(r, s1) := f x s in
      let '(rs, s2) := pool_map f l' s1 in
      (y ← r; ys ← rs; Return (y :: ys), s2)
  end.

Definition make_negative_samples {N : Numpy} (self : DualEncoderDatasets)
    (freq_margin : Q) (neg_per_sample : Z) (s : rng)
  : result (list (Z * list Z * list Z)) * rng :=
  match make_pos_distributions self (interactions self) with
  | Raise e => (Raise e, s)
  | Return (freq_dist, pos_interactions) =>
      pool_map (λ tup s,
                  let '(r, s') :=
                    neg_choice freq_dist tup.2 freq_margin neg_per_sample s in
                  ((λ negs, (tup.1, tup.2, negs)) <$> r, s'))
               pos_interactions s
  end.

(** ** PyTorch: the part left to the library

    [scalar] is the element type of a float tensor and [scalar_leb] the
    order [torch.topk] ranks by. [cosine_similarity x y] is
    [torch.nn.CosineSimilarity] on two rows, [mean_dim0 rows] is
    [rows.mean(dim=0)], [topk_indices v k] is [torch.topk(v, k).indices] for
    [k <= len(v)], and [randperm seed n] is
    [torch.randperm(n, generator=torch.Generator().manual_seed(seed))].

    The last three fields are the exceptions the library raises for a
    Python integer that does not fit int64, which differ from one version
    to the next: [index_overflow] when the integer is an index,
    [tensor_overflow] when it is an entry of a list turned into a tensor,
    and [topk_overflow] when it is the [k] of [torch.topk]. *)
Class Torch : Type := {
  scalar : Type;
  scalar_leb : scalar → scalar → bool;
  cosine_similarity : list scalar → list scalar → scalar;
  mean_dim0 : list (list scalar) → list scalar;
  topk_indices : list scalar → nat → list nat;
  randperm : Z → nat → list nat;
  index_overflow : exn;
  tensor_overflow : exn;
  topk_overflow : exn
}.

(** What an int64 can hold. *)
Definition int64 (x : Z) : Prop := - 2 ^ 63 ≤ x < 2 ^ 63.

(** The integers the library can unpack and use on a dimension of size
    [len]. A tensor has fewer than [2^63] rows, so an integer within its
    bounds always fits int64; the model lets such an integer through for a
    table of any length. *)
Definition unpacks (len : nat) (i : Z) : Prop :=
  int64 i ∨ - Z.of_nat len ≤ i < Z.of_nat len.

(** The bounds rule of an index that fits int64: the same as NumPy's. *)
Definition torch_index {A : Type} (w : list A) (i : Z) : result A :=
  k ← np_index (length w) i;
  match w !! k with
  | Some row => Return row
  | None => Raise IndexError
  end.

(** [w[i]] / [w[i, :]] for a Python integer [i]. *)
Definition torch_row {T : Torch} {A : Type} (w : list A) (i : Z) : result A :=
  if decide (unpacks (length w) i) then torch_index w i
  else Raise index_overflow.

(** [w[ids, :]] for a Python list [ids]: the list becomes an int64 tensor
    first, then every entry is checked against the bounds, in order. *)
Definition torch_rows {T : Torch} {A : Type} (w : list A) (ids : list Z)
  : result (list A) :=
  if decide (Forall (unpacks (length w)) ids) then mapM (torch_index w) ids
  else Raise tensor_overflow.

(** [self.cs(x1, x2)] with [x1] one row and [x2] a table: [x1] is broadcast
    against every row of [x2] and the similarity is taken along [dim=1]. *)
Definition cs {T : Torch} (x1 : list scalar) (x2 : list (list scalar)) : list scalar :=
  cosine_similarity x1 <$> x2.

(** [torch.topk(v, k=k).indices.tolist()]; a [k] that fits int64 and is
    out of [[0, len(v)]] is a [RuntimeError]. *)
Definition torch_topk {T : Torch} (v : list scalar) (k : Z) : result (list Z) :=
  if decide (0 ≤ k ≤ Z.of_nat (length v))
  then Return (Z.of_nat <$> topk_indices v (Z.to_nat k))
  else if decide (int64 k) then Raise RuntimeError
  else Raise topk_overflow.

(** [torch.utils.data.random_split(dataset, [0.95, 0.05], generator)]: the
    two lengths are the floors of the fractions of [len(dataset)], the
    remainder is handed out one by one starting with the first subset, and
    the subsets are consecutive slices of one permutation of the positions.
    The fractions are taken exactly. *)
Definition random_split_lengths (n : nat) : nat * nat :=
  let l0 := Qfloor (inject_Z (Z.of_nat n) * (95 # 100)) in
  let l1 := Qfloor (inject_Z (Z.of_nat n) * (5 # 100)) in
  let remainder := Z.of_nat n - (l0 + l1) in
  foldl (λ '(a, b) i, if decide (i `mod` 2 = 0)%nat then (S a, b) else (a, S b))
        (Z.to_nat l0, Z.to_nat l1) (seq 0 (Z.to_nat remainder)).

Definition random_split {T : Torch} {A : Type} (dataset : list A) (seed : Z)
  : list A * list A :=
  let '(l0, l1) := random_split_lengths (length dataset) in
  let indices := randperm seed (l0 + l1) in
  (omap (λ i, dataset !! i) (take l0 indices),
   omap (λ i, dataset !! i) (take l1 (drop l0 indices))).

(** ** [DualEncoderSplit], [__train_eval_split] and [split]

    The two [Subset] views [random_split] returns are kept as the lists of
    the examples they hold, in the order of their indices. *)

Record DualEncoderSplit : Type := {
  train_dataset : list example;
  eval_dataset : list example
}.

Definition train_eval_split {T : Torch} (dataset : ListDataset) : DualEncoderSplit :=
  let '(train_dataset, eval_dataset) := random_split (data dataset) 42 in
  {| train_dataset := train_dataset; eval_dataset := eval_dataset |}.

Definition split {N : Numpy} {T : Torch} (self : DualEncoderDatasets)
    (freq_margin : Q) (neg_per_sample : Z) (s : rng)
  : result DualEncoderSplit * rng :=
  let '(r, s') := make_negative_samples self freq_margin neg_per_sample s in
  ((λ pos_neg_interactions,
      let dataset := {| data := create_dataset pos_neg_interactions |} in
      train_eval_split dataset) <$> r, s').

(** ** [DualEncoderModel] *)

(** The two weight tables, one row per id; both are built with the same
    [embedding_dim]. *)
Record DualEncoderModel {T : Torch} : Type := {
  user_embeddings : list (list scalar);
  item_embeddings : list (list scalar)
}.

Definition model_users_size {T : Torch} (self : DualEncoderModel) : Z :=
  Z.of_nat (length (user_embeddings self)).
Definition model_items_size {T : Torch} (self : DualEncoderModel) : Z :=
  Z.of_nat (length (item_embeddings self)).

(** The similarity of every item row to a query vector. *)
Definition item_scores {T : Torch} (self : DualEncoderModel) (query : list scalar)
  : list scalar :=
  cs query (item_embeddings self).

Definition recommend_topk_by_user_ids {T : Torch} (self : DualEncoderModel)
    (user_ids : list Z) (top_k : Z) : result (list (list Z)) :=
  py_for (λ user_id recommended_item_ids,
            row ← torch_row (user_embeddings self) user_id;
            ids ← torch_topk (cs row (item_embeddings self)) top_k;
            Return (recommended_item_ids ++ [ids]))
         user_ids [].

Definition recommend_topk_by_item_ids {T : Torch} (self : DualEncoderModel)
    (item_ids : list Z) (top_k : Z) : result (list Z) :=
  rows ← torch_rows (item_embeddings self) item_ids;
  torch_topk (cs (mean_dim0 rows) (item_embeddings self)) top_k.

(** ** The contracts of the two libraries *)

(** [ranked_before v a b]: position [a] of [v] holds a value at least the
    one at position [b]. *)
Definition ranked_before {T : Torch} (v : list scalar) (a b : nat) : Prop :=
  match v !! a, v !! b with
  | Some x, Some y => scalar_leb y x = true
  | _, _ => False
  end.

Class NumpyLaws (N : Numpy) : Prop := {
  (** [argsort] returns every position once *)
  argsort_perm : ∀ a, argsort a ≡ₚ seq 0 (length a);
  (** in ascending order of the values *)
  argsort_sorted : ∀ a,
    StronglySorted (λ i j, a !!! i ≤ a !!! j) (argsort a);
  (** a validated draw without replacement returns [k] distinct positions
      of non-zero probability *)
  draw_spec : ∀ s p k,
    (k ≤ count_positive p)%nat →
    length (draw s p k).1 = k ∧ NoDup (draw s p k).1 ∧
    Forall (λ i, ∃ x, p !! i = Some x ∧ (0 < x)%Q) (draw s p k).1
}.

Class TorchLaws (T : Torch) : Prop := {
  scalar_leb_total : ∀ x y, scalar_leb x y = true ∨ scalar_leb y x = true;
  scalar_leb_trans : ∀ x y z,
    scalar_leb x y = true → scalar_leb y z = true → scalar_leb x z = true;
  (** [topk] returns [k] distinct positions, largest value first, and no
      position left out holds a larger value than one returned *)
  topk_spec : ∀ v k,
    (k ≤ length v)%nat →
    length (topk_indices v k) = k ∧ NoDup (topk_indices v k) ∧
    Forall (λ i, (i < length v)%nat) (topk_indices v k) ∧
    StronglySorted (ranked_before v) (topk_indices v k) ∧
    (∀ i j, i ∈ topk_indices v k → (j < length v)%nat → j ∉ topk_indices v k →
            ranked_before v i j);
  randperm_perm : ∀ seed n, randperm seed n ≡ₚ seq 0 n
}.

(** ** Vocabulary of the statements *)

(** The distinct elements of [l] in the order of their first occurrence. *)
Definition first_seen (l : list Z) : list Z :=
  foldl (λ seen u, if decide (u ∈ seen) then seen else seen ++ [u]) [] l.

(** The item ids of the interactions of [user_id], in order, repeats kept. *)
Definition positives_of (user_id : Z) (interactions : list (Z * Z)) : list Z :=
  (filter (λ ui, ui.1 = user_id) interactions).*2.

(** The dictionary of the positives of every user of [interactions]. *)
Definition pos_table (interactions : list (Z * Z)) : list (Z * list Z) :=
  (λ u, (u, positives_of u interactions)) <$> first_seen (interactions.*1).

(** The frequency array after the weights of the positives are set to
    zero. *)
Definition zeroed (freq_dist : list Z) (pos_item_ids : list Z) : list Z :=
  imap (λ k w, if decide (Z.of_nat k ∈ pos_item_ids) then 0 else w) freq_dist.

(** Well-formed positives of a user: at least one, all ids of the
    catalogue. *)
Definition valid_positives (freq_dist : list Z) (pos_item_ids : list Z) : Prop :=
  pos_item_ids ≠ [] ∧
  Forall (λ i, 0 ≤ i < Z.of_nat (length freq_dist)) pos_item_ids.

(** [n_samples] of [neg_choice]. *)
Definition n_samples (pos_item_ids : list Z) (neg_per_sample : Z) : Z :=
  neg_per_sample * Z.of_nat (length (distinct pos_item_ids)).

(** The weights [neg_choice] normalises and the probabilities it passes
    to [choice], for the array [z] left by the zeroing. *)
Definition kept_weights {N : Numpy} (z : list Z) (margin : Q) : list Z :=
  np_take z (item_id_to_choice z margin).

Definition kept_probabilities {N : Numpy} (z : list Z) (margin : Q)
  : list (option Q) :=
  np_true_divide (kept_weights z margin) (np_sum (kept_weights z margin)).

(** [ids] are the [k] best positions of the score vector [v]: [k] distinct
    ids of [[0, len(v))], in descending order of score, and no position left
    out scores higher than one returned. *)
Definition top_k_of {T : Torch} (v : list scalar) (k : Z) (ids : list Z) : Prop :=
  ∃ positions : list nat,
    ids = Z.of_nat <$> positions ∧
    Z.of_nat (length ids) = k ∧
    Forall (λ i, 0 ≤ i < Z.of_nat (length v)) ids ∧
    NoDup ids ∧
    StronglySorted (ranked_before v) positions ∧
    (∀ i j, i ∈ positions → (j < length v)%nat → j ∉ positions →
            ranked_before v i j).

(** Two results agree up to [P]: the same exception, or returned values
    related by [P]. *)
Definition result_rel {A : Type} (P : A → A → Prop) (r1 r2 : result A) : Prop :=
  match r1, r2 with
  | Return a, Return b => P a b
  | Raise e1, Raise e2 => e1 = e2
  | _, _ => False
  end.

(** Two examples fill the same slot: same user, same label, and the same
    item when the label is [+1]. *)
Definition same_slot (e1 e2 : example) : Prop :=
  e1.1.1 = e2.1.1 ∧ e1.2 = e2.2 ∧ (e1.2 = 1 → e1.1.2 = e2.1.2).

(** Two splits agree slot by slot. *)
Definition same_slots (sp1 sp2 : DualEncoderSplit) : Prop :=
  Forall2 same_slot (train_dataset sp1) (train_dataset sp2) ∧
  Forall2 same_slot (eval_dataset sp1) (eval_dataset sp2).

(** Two triples [(user_id, positives, negatives)] with the same user, the
    same positives and as many negatives. *)
Definition same_but_negatives (t1 t2 : Z * list Z * list Z) : Prop :=
  t1.1.1 = t2.1.1 ∧ t1.1.2 = t2.1.2 ∧ length t1.2 = length t2.2.

(** ** Reference implementations of the two interfaces *)

#[global] Instance Q_le_dec (x y : Q) : Decision (x <= y)%Q :=
  Z.le_dec (Qnum x * QDen y) (Qnum y * QDen x).

(** The positions of [v] in ascending [R]-order of their values: a merge
    sort of the pairs [(value, position)] on the value. *)
Definition sort_positions {A : Type} (R : relation A) `{!RelDecision R}
    (v : list A) : list nat :=
  (merge_sort (H:=λ a b, decide_rel R a.1 b.1) (λ a b, R a.1 b.1)
     (zip v (seq 0 (length v)))).*2.

(** The generator state is the tape of the uniform variates in [[0, 1)]
    still to be consumed; an exhausted tape reads [0]. *)
Definition tape_next (s : list Q) : Q * list Q :=
  match s with
  | [] => (0%Q, [])
  | x :: s' => (x, s')
  end.

(** Inversion of the cumulative weights at [x], skipping the entries of
    weight zero. *)
Fixpoint pick (x : Q) (p : list Q) : option nat :=
  match p with
  | [] => None
  | q :: rest =>
      if decide (0 < q)%Q then
        if decide (x < q)%Q then Some 0%nat
        else match pick (x - q)%Q rest with
             | Some j => Some (S j)
             | None => Some 0%nat
             end
      else S <$> pick x rest
  end.

(** One variate per draw; the weight of a drawn position is set to zero
    before the next draw. *)
Fixpoint tape_draw (s : list Q) (p : list Q) (k : nat) : list nat * list Q :=
  match k with
  | 0%nat => ([], s)
  | S k' =>
      let '(x, s') := tape_next s in
      match pick (x * Qsum p)%Q p with
      | None => ([], s')
      | Some i =>
          let '(l, s'') := tape_draw s' (<[i:=0%Q]> p) k' in (i :: l, s'')
      end
  end.

Definition Qge (x y : Q) : Prop := (y <= x)%Q.
#[global] Instance Qge_dec : RelDecision Qge := λ x y, Q_le_dec y x.

Definition ref_numpy : Numpy := {|
  argsort := sort_positions Z.le;
  rng := list Q;
  draw := tape_draw
|}.

Definition Qdot (x y : list Q) : Q := Qsum (zip_with Qmult x y).

(** The signed square of the cosine: rational, and ranking rows exactly as
    the cosine does. *)
Definition ref_cosine (x y : list Q) : Q :=
  (Qdot x y * Qabs (Qdot x y) / (Qdot x x * Qdot y y))%Q.

Definition ref_mean_dim0 (rows : list (list Q)) : list Q :=
  match rows with
  | [] => []
  | r :: rs =>
      (λ x, x / inject_Z (Z.of_nat (length rows)))%Q
        <$> foldl (zip_with Qplus) r rs
  end.

Definition ref_torch : Torch := {|
  scalar := Q;
  scalar_leb := Qle_bool;
  cosine_similarity := ref_cosine;
  mean_dim0 := ref_mean_dim0;
  topk_indices := λ v k, take k (sort_positions Qge v);
  randperm := λ _ n, seq 0 n;
  index_overflow := ValueError;
  tensor_overflow := ValueError;
  topk_overflow := ValueError
|}.

(** A model with two users and two items, the rows the unit vectors. *)
Definition unit_rows : list (list Q) := [[1; 0]; [0; 1]]%Q.

Definition two_by_two : DualEncoderModel (T:=ref_torch) :=
  Build_DualEncoderModel ref_torch unit_rows unit_rows.

(** One user, three items, one interaction. *)
Definition one_user : DualEncoderDatasets := {|
  interactions := [(0, 0)];
  users := [(0, "u")];
  items := [(0, "a"); (1, "b"); (2, "c")];
  _users_size := 1;
  _items_size := 3
|}.

(** The data set of the specification's scenario: two users, four items,
    three interactions. *)
Definition four_items : DualEncoderDatasets := {|
  interactions := [(0, 1); (0, 2); (1, 2)];
  users := [(0, "u"); (1, "v")];
  items := [(0, "a"); (1, "b"); (2, "c"); (3, "d")];
  _users_size := 2;
  _items_size := 4
|}.

(** ** The methods of [ListDataset] *)

(** [__len__]. *)
Definition ListDataset_len (self : ListDataset) : Z :=
  Z.of_nat (length (data self)).

(** [__getitem__]: [self.data[idx]], the indexing of a Python list. *)
Definition ListDataset_getitem (self : ListDataset) (idx : Z) : result example :=
  k ← np_index (length (data self)) idx;
  match data self !! k with
  | Some e => Return e
  | None => Raise IndexError
  end.

(** [__getitems__]: [[self.data[_] for _ in idx_list]]. *)
Definition ListDataset_getitems (self : ListDataset) (idx_list : list Z)
  : result (list example) :=
  mapM (ListDataset_getitem self) idx_list.

(** [distinct_size]: every triple is poured into one set of integers. *)
Definition distinct_size (self : ListDataset) : nat :=
  size (foldl (λ (res : gset Z) '(u, i, l), res ∪ {[u]} ∪ {[i]} ∪ {[l]})
              ∅ (data self)).

(** ** [DataCollatorForList]

    The dictionary [__call__] returns: [user_ids] and [item_ids] are
    columns (one row of one entry per example), [labels] is a vector. *)
Record collated : Type := {
  col_user_ids : list (list Z);
  col_item_ids : list (list Z);
  col_labels : list Z
}.

(** [torch.tensor(batch)] refuses an integer that does not fit int64; of an
    empty batch it is a tensor of one dimension, which [tbatch[:, 0:1]]
    cannot index. *)
Definition DataCollatorForList_call {T : Torch} (batch : list example)
  : result collated :=
  if decide (Forall (λ e : example, int64 e.1.1 ∧ int64 e.1.2 ∧ int64 e.2) batch)
  then match batch with
       | [] => Raise IndexError
       | _ => Return {| col_user_ids := (λ e : example, [e.1.1]) <$> batch;
                        col_item_ids := (λ e : example, [e.1.2]) <$> batch;
                        col_labels := (λ e : example, e.2) <$> batch |}
       end
  else Raise tensor_overflow.

(** ** Python text

    A [str] is the sequence of its code points. *)
Definition str : Type := list N.

(** The text of a literal of Latin-1 characters. *)
Definition literal (s : string) : str :=
  Ascii.N_of_ascii <$> String.list_ascii_of_string s.

(** [c.isspace()] of one character. *)
Definition isspace (c : N) : bool :=
  ((9 <=? c) && (c <=? 13) || (28 <=? c) && (c <=? 32)
   || (c =? 133) || (c =? 160) || (c =? 5760)
   || (8192 <=? c) && (c <=? 8202)
   || (c =? 8232) || (c =? 8233) || (c =? 8239) || (c =? 8287)
   || (c =? 12288))%N.

(** [s.lstrip()] and [s.strip()]. *)
Fixpoint py_lstrip (s : str) : str :=
  match s with
  | c :: s' => if isspace c then py_lstrip s' else s
  | [] => []
  end.

Definition py_strip (s : str) : str :=
  reverse (py_lstrip (reverse (py_lstrip s))).

(** [s.split(sep)]: [s] is cut at every occurrence of [sep], found from
    the left and not overlapping; [skip] counts the characters of an
    occurrence still to pass. *)
Fixpoint py_split_go (sep : str) (skip : nat) (s : str) : list str :=
  match s with
  | [] => [[]]
  | c :: s' =>
      match skip with
      | S k => py_split_go sep k s'
      | O =>
          if decide (sep `prefix_of` s)
          then [] :: py_split_go sep (length sep - 1) s'
          else match py_split_go sep 0 s' with
               | field :: fields => (c :: field) :: fields
               | [] => [[c]]
               end
      end
  end.

Definition py_split (sep s : str) : result (list str) :=
  if decide (sep = []) then Raise ValueError
  else Return (py_split_go sep 0 s).

(** [sep.join(parts)]. *)
Fixpoint py_join (sep : str) (parts : list str) : str :=
  match parts with
  | [] => []
  | [p] => p
  | p :: ps => p ++ sep ++ py_join sep ps
  end.

(** [l[k]] for a position [k] that is not negative. *)
Definition py_item {A : Type} (l : list A) (k : nat) : result A :=
  match l !! k with
  | Some x => Return x
  | None => Raise IndexError
  end.

(** ** Python: the part left to the interpreter

    [int(s)] of a string. *)
Class Python : Type := {
  py_int_str : str → result Z
}.

(** The literals of the loaders: ["\n"], [" "] and the default separator
    ["::"]. *)
Definition newline : str := [10%N].
Definition space : str := [32%N].
Definition default_sep : str := [58%N; 58%N].

(** ** [DualEncoderLoadData]: the two loaders

    [content] is the text [fn.read()] returns; opening the file and
    decoding it are not modelled. *)

Section load.
Context {P : Python}.

(** [row[0]] and [int(row[0])] come before [row[1]]: a line of one field
    raises [IndexError] only if its field is an integer. *)
Definition load_list_of_int_int_from_path (content : str) (sep : str)
  : result (list (Z * Z)) :=
  lines ← py_split newline (py_strip content);
  mapM (λ line,
          row ← take 2 <$> py_split sep (py_strip line);
          a ← py_item row 0; x ← py_int_str a;
          b ← py_item row 1; y ← py_int_str b;
          Return (x, y))
       lines.

Definition load_list_of_int_str_from_path (content : str) (sep : str)
  : result (list (Z * str)) :=
  lines ← py_split newline (py_strip content);
  mapM (λ line,
          row ← py_split sep (py_strip line);
          a ← py_item row 0; x ← py_int_str a;
          Return (x, py_join space (drop 1 row)))
       lines.

(** A name read from a Latin-1 file, as [DualEncoderDatasets] keeps it:
    one byte per character. *)
Definition latin1 (s : str) : string :=
  String.string_of_list_ascii (Ascii.ascii_of_N <$> s).

(** [DualEncoderLoadData.__init__] on the texts of the three files: the
    interactions are read first, then the users, then the items, all with
    the default separator, and handed to the constructor of
    [DualEncoderDatasets]. *)
Definition DualEncoderLoadData_init
    (interactions_text users_text items_text : str)
  : result DualEncoderDatasets :=
  _interactions ← load_list_of_int_int_from_path interactions_text default_sep;
  _users ← load_list_of_int_str_from_path users_text default_sep;
  _items ← load_list_of_int_str_from_path items_text default_sep;
  DualEncoderDatasets_init _interactions
    (prod_map id latin1 <$> _users) (prod_map id latin1 <$> _items).

End load.

(** What is used of [int]: a string it cannot read raises [ValueError], and
    it cannot read the empty string. *)
Class PythonLaws (P : Python) : Prop := {
  py_int_str_raises : ∀ s e, py_int_str s = Raise e → e = ValueError;
  py_int_str_empty : py_int_str [] = Raise ValueError
}.

(** A reference [int]: it reads the decimal literals made of ASCII digits,
    with an optional sign. *)
Fixpoint decimal (acc : Z) (s : str) : result Z :=
  match s with
  | [] => Return acc
  | c :: s' =>
      if ((48 <=? c) && (c <=? 57))%N
      then decimal (10 * acc + Z.of_N (c - 48)) s'
      else Raise ValueError
  end.

Definition ref_int (s : str) : result Z :=
  match s with
  | [] => Raise ValueError
  | c :: s' =>
      if (c =? 45)%N then
        match s' with [] => Raise ValueError | _ => Z.opp <$> decimal 0 s' end
      else if (c =? 43)%N then
        match s' with [] => Raise ValueError | _ => decimal 0 s' end
      else decimal 0 s
  end.

#[global] Instance ref_python : Python := {| py_int_str := ref_int |}.


(** ** More vocabulary *)

(** How many interactions are on [item_id]. *)
Definition occurrences (item_id : Z) (interactions : list (Z * Z)) : nat :=
  length (filter (λ ui, ui.2 = item_id) interactions).



(** Text made of whitespace only, and text that neither starts nor ends with
    whitespace (and is not empty). *)
Definition blank (s : str) : Prop := Forall (λ c, isspace c = true) s.

Definition trimmed (s : str) : Prop :=
  (∃ c, head s = Some c ∧ isspace c = false) ∧
  (∃ c, last s = Some c ∧ isspace c = false).

(** A field that can be read back: it holds no newline and no character of
    the separator. *)
Definition field_of (sep : str) (f : str) : Prop :=
  Forall (λ c, c ≠ 10%N ∧ c ∉ sep) f.

(** * Theorems *)

Lemma create_dataset_inner_app u ps ns acc :
  create_dataset_inner u ps ns acc = acc ++ user_examples u ps ns.
Proof.
  revert ns acc. induction ps as [|p ps IH]; intros [|n ns] acc; simpl;
    rewrite ?app_nil_r; try done.
  rewrite IH. by rewrite <- !app_assoc.
Qed.

Lemma create_dataset_foldl l acc :
  foldl (λ dataset '(user_id, pos_item_ids, neg_item_ids),
           create_dataset_inner user_id pos_item_ids neg_item_ids dataset)
        acc l
  = acc ++ concat ((λ '(u, ps, ns), user_examples u ps ns) <$> l).
Proof.
  revert acc. induction l as [|[[u ps] ns] l IH]; intros acc; simpl.
  - by rewrite app_nil_r.
  - rewrite IH, create_dataset_inner_app. by rewrite <- app_assoc.
Qed.

Lemma length_user_examples u ps ns :
  length (user_examples u ps ns) = (2 * (length ps `min` length ns))%nat.
Proof.
  revert ns. induction ps as [|p ps IH]; intros [|n ns]; simpl; try done.
  rewrite IH. lia.
Qed.

Lemma user_examples_lookup u ps ns i p n :
  ps !! i = Some p → ns !! i = Some n →
  user_examples u ps ns !! (2 * i)%nat = Some (u, p, 1) ∧
  user_examples u ps ns !! (2 * i + 1)%nat = Some (u, n, -1).
Proof.
  revert ns i. induction ps as [|p' ps IH]; intros [|n' ns] [|i]; simpl;
    try done.
  - intros [= ->] [= ->]. done.
  - intros Hp Hn. destruct (IH ns i Hp Hn) as [H1 H2].
    replace (i + S (i + 0))%nat with (S (2 * i)) by lia. simpl. split.
    + exact H1.
    + replace (i + (i + 0) + 1)%nat with (2 * i + 1)%nat by lia. exact H2.
Qed.

(** C6. [create_dataset] handles the per-user triples one after the other,
    in input order; the triple [(user_id, positives, negatives)] contributes
    exactly [2 * min(|positives|, |negatives|)] examples, and for every
    position [i] that both lists have, the examples at offsets [2i] and
    [2i+1] of that user's block are [(user_id, positives[i], +1)] followed
    by [(user_id, negatives[i], -1)]: only the common prefix of the two
    lists is paired, nothing is padded. *)
Theorem create_dataset_truncating_zip :
  ∀ (before after : list (Z * list Z * list Z)) (user_id : Z)
    (positives negatives : list Z),
    let block := user_examples user_id positives negatives in
    create_dataset (before ++ (user_id, positives, negatives) :: after)
      = create_dataset before ++ block ++ create_dataset after
    ∧ length block = (2 * (length positives `min` length negatives))%nat
    ∧ (∀ i p n, positives !! i = Some p → negatives !! i = Some n →
         block !! (2 * i)%nat = Some (user_id, p, 1) ∧
         block !! (2 * i + 1)%nat = Some (user_id, n, -1)).
Proof.
  intros before after u ps ns block. split; [|split].
  - unfold create_dataset. rewrite !create_dataset_foldl. simpl.
    rewrite fmap_app, concat_app. simpl. done.
  - apply length_user_examples.
  - intros i p n. apply user_examples_lookup.
Qed.

(* Two positives against three negatives for user 7, between two other
   users: the third negative is dropped. *)
Lemma create_dataset_truncating_zip_witness :
  create_dataset [(1, [4], [5]); (7, [1; 2], [5; 6; 8]); (9, [3], [0])]
    = [(1, 4, 1); (1, 5, -1)]
      ++ [(7, 1, 1); (7, 5, -1); (7, 2, 1); (7, 6, -1)]
      ++ [(9, 3, 1); (9, 0, -1)]
  ∧ user_examples 7 [1; 2] [5; 6; 8] !! 2%nat = Some (7, 2, 1)
  ∧ user_examples 7 [1; 2] [5; 6; 8] !! 3%nat = Some (7, 6, -1).
Proof.
  destruct (create_dataset_truncating_zip
              [(1, [4], [5])] [(9, [3], [0])] 7 [1; 2] [5; 6; 8])
    as (Happ & _ & Hpair).
  split; [exact Happ|].
  exact (Hpair 1%nat 2 6 eq_refl eq_refl).
Defined.

(** ** The reference implementations meet the contracts *)

Section sort_positions.
Context {A : Type} (R : relation A) `{!RelDecision R}.
Context `{!Total R} `{!Transitive R}.

Let R' : relation (A * nat) := λ a b, R a.1 b.1.

Lemma elem_of_zip_seq (v : list A) x i :
  (x, i) ∈ zip v (seq 0 (length v)) → v !! i = Some x.
Proof.
  intros [j Hj]%list_elem_of_lookup.
  apply lookup_zip_with_Some in Hj as (x' & i' & [= <- <-] & Hx & Hi).
  apply lookup_seq in Hi as [-> _]. done.
Qed.

Lemma sort_positions_perm (v : list A) :
  sort_positions R v ≡ₚ seq 0 (length v).
Proof.
  unfold sort_positions. rewrite merge_sort_Permutation.
  rewrite snd_zip; [done|]. by rewrite length_seq.
Qed.

Lemma sort_positions_sorted (v : list A) :
  StronglySorted
    (λ i j, ∃ x y, v !! i = Some x ∧ v !! j = Some y ∧ R x y)
    (sort_positions R v).
Proof.
  unfold sort_positions.
  assert (Total R') as Htot by (intros a b; apply (total R)).
  assert (Transitive R') as Htr
    by (intros a b c; unfold R'; apply transitivity).
  set (l := merge_sort _ _).
  assert (StronglySorted R' l) as Hs
    by apply (StronglySorted_merge_sort R').
  assert (Forall (λ a, v !! a.2 = Some a.1) l) as Hin.
  { apply Forall_forall. intros [x i] Hxi. simpl.
    apply elem_of_zip_seq. subst l.
    by rewrite merge_sort_Permutation in Hxi. }
  clearbody l. revert Hin.
  induction Hs as [|[x i] l Hs IH Hall]; intros Hin; simpl.
  - constructor.
  - apply Forall_cons in Hin as [Hx Hin]. constructor; [by apply IH|].
    apply Forall_fmap. rewrite Forall_forall in Hall, Hin |- *.
    intros [y j] Hy. simpl in *. exists x, y. split_and!; auto.
    + by apply (Hin (y, j)).
    + by apply (Hall (y, j)).
Qed.
End sort_positions.

Lemma count_positive_cons q p :
  count_positive (q :: p)
  = if decide (0 < q)%Q then S (count_positive p) else count_positive p.
Proof.
  unfold count_positive. rewrite filter_cons. by case_decide.
Qed.

Lemma pick_Some p x i :
  pick x p = Some i → ∃ q, p !! i = Some q ∧ (0 < q)%Q.
Proof.
  revert x i. induction p as [|q rest IH]; intros x i; simpl; [done|].
  destruct (decide (0 < q)%Q) as [Hq|Hq].
  - destruct (decide (x < q)%Q).
    + intros [= <-]. eauto.
    + destruct (pick (x - q)%Q rest) as [j|] eqn:Hj.
      * intros [= <-]. simpl. eauto.
      * intros [= <-]. eauto.
  - destruct (pick x rest) as [j|] eqn:Hj; simpl; [|done].
    intros [= <-]. simpl. eauto.
Qed.

Lemma pick_is_Some p x : (0 < count_positive p)%nat → is_Some (pick x p).
Proof.
  revert x. induction p as [|q rest IH]; intros x; simpl.
  - unfold count_positive. simpl. lia.
  - rewrite count_positive_cons. destruct (decide (0 < q)%Q).
    + intros _. destruct (decide (x < q)%Q); [by eexists|].
      destruct (pick (x - q)%Q rest); by eexists.
    + intros H. destruct (IH x H) as [j ->]. by eexists.
Qed.

Lemma count_positive_insert_zero p i q :
  p !! i = Some q → (0 < q)%Q →
  S (count_positive (<[i:=0%Q]> p)) = count_positive p.
Proof.
  revert i. induction p as [|q' rest IH]; intros [|i]; simpl; try done.
  - intros [= ->] Hq. rewrite !count_positive_cons.
    destruct (decide (0 < q)%Q); [|done].
    destruct (decide (0 < 0)%Q) as [H0|]; [|done].
    by apply Qlt_irrefl in H0.
  - intros Hi Hq. rewrite !count_positive_cons.
    specialize (IH i Hi Hq). destruct (decide (0 < q')%Q); lia.
Qed.

Lemma tape_draw_spec k : ∀ s p,
  (k ≤ count_positive p)%nat →
  length (tape_draw s p k).1 = k ∧ NoDup (tape_draw s p k).1 ∧
  Forall (λ i, ∃ x, p !! i = Some x ∧ (0 < x)%Q) (tape_draw s p k).1.
Proof.
  induction k as [|k IH]; intros s p Hk; simpl.
  - split_and!; [done|constructor|constructor].
  - destruct (tape_next s) as [x s'].
    destruct (pick_is_Some p (x * Qsum p)%Q) as [i Hi]; [lia|].
    rewrite Hi. destruct (pick_Some _ _ _ Hi) as (q & Hpi & Hq).
    pose proof (count_positive_insert_zero p i q Hpi Hq) as Hcnt.
    destruct (IH s' (<[i:=0%Q]> p)) as (Hlen & Hnd & Hall); [lia|].
    destruct (tape_draw s' (<[i:=0%Q]> p) k) as [l s'']. simpl in *.
    assert (Forall (λ j, j ≠ i ∧ ∃ x, p !! j = Some x ∧ (0 < x)%Q) l) as Hl.
    { eapply Forall_impl; [exact Hall|]. intros j (y & Hj & Hy).
      destruct (decide (j = i)) as [->|Hne].
      - rewrite list_lookup_insert_eq in Hj
          by (by eapply lookup_lt_Some).
        injection Hj as <-. by apply Qlt_irrefl in Hy.
      - rewrite list_lookup_insert_ne in Hj by done. eauto. }
    split_and!.
    + by rewrite Hlen.
    + constructor; [|done]. intros Hin.
      rewrite Forall_forall in Hl. by destruct (Hl i Hin).
    + constructor; [eauto|]. eapply Forall_impl; [exact Hl|].
      by intros j [_ ?].
Qed.

Lemma StronglySorted_mono {A : Type} (R1 R2 : relation A) (l : list A) :
  (∀ x y, R1 x y → R2 x y) → StronglySorted R1 l → StronglySorted R2 l.
Proof.
  intros HR. induction 1 as [|x l Hs IH Hall]; constructor; [done|].
  eapply Forall_impl; [exact Hall|]. apply HR.
Qed.

#[global] Instance ref_numpy_laws : NumpyLaws ref_numpy.
Proof.
  split.
  - intros a. apply (sort_positions_perm Z.le).
  - intros a. simpl.
    eapply StronglySorted_mono; [|apply (sort_positions_sorted Z.le)].
    intros i j (x & y & Hi & Hj & Hxy). simpl.
    by rewrite (list_lookup_total_correct _ _ _ Hi),
               (list_lookup_total_correct _ _ _ Hj).
  - intros s p k. apply tape_draw_spec.
Qed.

#[global] Instance Qge_total : Total Qge.
Proof.
  intros x y. unfold Qge.
  destruct (Qlt_le_dec x y) as [H|H]; [right; by apply Qlt_le_weak|by left].
Qed.

#[global] Instance Qge_trans : Transitive Qge.
Proof. intros x y z Hxy Hyz. unfold Qge in *. by eapply Qle_trans. Qed.

Lemma ref_ranked_before (v : list Q) i j :
  (∃ x y, v !! i = Some x ∧ v !! j = Some y ∧ Qge x y) →
  ranked_before (T:=ref_torch) v i j.
Proof.
  intros (x & y & Hi & Hj & Hxy). unfold ranked_before. simpl in *.
  rewrite Hi, Hj. by apply Qle_bool_iff.
Qed.

#[global] Instance ref_torch_laws : TorchLaws ref_torch.
Proof.
  split.
  - intros x y. simpl. rewrite !Qle_bool_iff.
    destruct (Qlt_le_dec x y); [left; by apply Qlt_le_weak|by right].
  - intros x y z. simpl. rewrite !Qle_bool_iff. apply Qle_trans.
  - intros v k Hk. simpl.
    pose proof (sort_positions_perm Qge v) as Hperm.
    pose proof (sort_positions_sorted Qge v) as Hsorted.
    apply (StronglySorted_mono _ (ranked_before (T:=ref_torch) v)) in Hsorted;
      [|intros i j; apply ref_ranked_before].
    set (l := sort_positions Qge v) in *.
    assert (NoDup l) as Hnd by (rewrite Hperm; apply NoDup_seq).
    assert (length l = length v) as Hlen
      by (by rewrite Hperm, length_seq).
    rewrite <- (take_drop k l) in Hnd, Hsorted.
    apply NoDup_app in Hnd as (Hnd & _ & _).
    split_and!.
    + rewrite length_take. lia.
    + done.
    + apply Forall_forall. intros i Hi%subseteq_take.
      rewrite Hperm in Hi. apply elem_of_seq in Hi. lia.
    + by apply StronglySorted_app_1_l in Hsorted.
    + intros i j Hi Hj Hnj.
      eapply StronglySorted_app_1_elem_of; [exact Hsorted|done|].
      assert (j ∈ l) as Hjl by (rewrite Hperm; apply elem_of_seq; lia).
      rewrite <- (take_drop k l) in Hjl.
      apply elem_of_app in Hjl as [?|?]; done.
  - intros seed n. done.
Qed.

(** ** [make_pos_distributions] *)

Lemma np_index_Return len i :
  - Z.of_nat len ≤ i < Z.of_nat len →
  ∃ k, np_index len i = Return k ∧ (k < len)%nat.
Proof.
  intros Hi. unfold np_index. repeat case_decide; try lia.
  - exists (Z.to_nat i). split; [done|lia].
  - exists (Z.to_nat (Z.of_nat len + i)). split; [done|lia].
Qed.

Lemma np_sum_insert (a : list Z) k v :
  (k < length a)%nat → np_sum (<[k:=v]> a) = np_sum a - a !!! k + v.
Proof.
  revert k. induction a as [|x a IH]; intros [|k]; simpl; try lia.
  intros Hk. rewrite IH by lia. unfold np_sum. simpl.
  change (foldr Z.add 0 a) with (np_sum a). 
  change ((x :: a) !!! S k) with (a !!! k). lia.
Qed.

Lemma np_sum_replicate n v : np_sum (replicate n v) = Z.of_nat n * v.
Proof. induction n as [|n IH]; simpl; [done|]. unfold np_sum in *. simpl. lia. Qed.

Lemma first_seen_snoc l u :
  first_seen (l ++ [u])
  = if decide (u ∈ first_seen l) then first_seen l else first_seen l ++ [u].
Proof. unfold first_seen. by rewrite foldl_app. Qed.

Lemma elem_of_first_seen l u : u ∈ first_seen l ↔ u ∈ l.
Proof.
  induction l as [|x l IH] using rev_ind.
  - done.
  - rewrite first_seen_snoc, elem_of_app, list_elem_of_singleton, <- IH.
    destruct (decide (x ∈ first_seen l)) as [Hx|Hx].
    + split; [by left|]. intros [?| ->]; done.
    + by rewrite elem_of_app, list_elem_of_singleton.
Qed.

Lemma NoDup_first_seen l : NoDup (first_seen l).
Proof.
  induction l as [|x l IH] using rev_ind.
  - constructor.
  - rewrite first_seen_snoc. case_decide; [done|].
    apply NoDup_app. split_and!; [done| |apply NoDup_singleton].
    intros y Hy ->%list_elem_of_singleton. done.
Qed.

Lemma positives_of_snoc u' done u i :
  positives_of u' (done ++ [(u, i)])
  = positives_of u' done ++ (if decide (u = u') then [i] else []).
Proof.
  unfold positives_of. rewrite filter_app, fmap_app. f_equal.
  rewrite filter_cons. simpl. by case_decide.
Qed.

Lemma positives_of_not_in u done : u ∉ done.*1 → positives_of u done = [].
Proof.
  intros Hu. unfold positives_of.
  induction done as [|[u' i] done IH]; [done|].
  rewrite filter_cons. simpl in *. apply not_elem_of_cons in Hu as [Hne Hu].
  case_decide; [congruence|]. by apply IH.
Qed.

Section dict.
Context {V : Type}.
Implicit Types (f : Z → V) (ks : list Z).

Lemma dict_get_tabulate f ks u :
  dict_get ((λ k, (k, f k)) <$> ks) u
  = if decide (u ∈ ks) then Some (f u) else None.
Proof.
  induction ks as [|k ks IH].
  - rewrite decide_False by apply not_elem_of_nil. done.
  - rewrite fmap_cons. simpl. destruct (decide (k = u)) as [->|Hne].
    + rewrite decide_True by apply list_elem_of_here. done.
    + rewrite IH. destruct (decide (u ∈ ks)) as [Hin|Hin].
      * rewrite decide_True by (by apply list_elem_of_further). done.
      * rewrite decide_False; [done|].
        intros [?|?]%elem_of_cons; congruence.
Qed.

Lemma dict_set_tabulate f g ks u v :
  NoDup ks → g u = v → (∀ k, k ≠ u → g k = f k) →
  dict_set ((λ k, (k, f k)) <$> ks) u v
  = (λ k, (k, g k)) <$> (if decide (u ∈ ks) then ks else ks ++ [u]).
Proof.
  intros Hnd Hu Hg. induction Hnd as [|k ks Hk Hnd IH].
  - rewrite decide_False by apply not_elem_of_nil. simpl. by rewrite Hu.
  - rewrite fmap_cons. simpl. destruct (decide (k = u)) as [->|Hne].
    + rewrite decide_True by apply list_elem_of_here.
      rewrite fmap_cons, Hu. f_equal.
      apply list_fmap_ext. intros j k Hin%list_elem_of_lookup_2.
      rewrite Hg; [done|]. intros ->. done.
    + rewrite IH. rewrite <- (Hg k Hne).
      destruct (decide (u ∈ ks)) as [Hin|Hin].
      * rewrite decide_True by (by apply list_elem_of_further). done.
      * rewrite decide_False; [done|].
        intros [?|?]%elem_of_cons; congruence.
Qed.
End dict.

Lemma pos_table_snoc done u i :
  dict_set (pos_table done) u (default [] (dict_get (pos_table done) u) ++ [i])
  = pos_table (done ++ [(u, i)]).
Proof.
  unfold pos_table. rewrite fmap_app. simpl. rewrite first_seen_snoc.
  rewrite dict_get_tabulate.
  apply dict_set_tabulate; [apply NoDup_first_seen| |].
  - rewrite positives_of_snoc, decide_True by done.
    destruct (decide (u ∈ first_seen done.*1)) as [Hu|Hu]; [done|].
    rewrite elem_of_first_seen in Hu. simpl.
    by rewrite positives_of_not_in.
  - intros k Hk. rewrite positives_of_snoc, decide_False by done.
    by rewrite app_nil_r.
Qed.

Lemma make_pos_distributions_loop rest : ∀ done freq,
  Forall (λ ui, - Z.of_nat (length freq) ≤ ui.2 < Z.of_nat (length freq)) rest →
  Forall (λ w, 1 ≤ w) freq →
  ∃ freq',
    py_for make_pos_distributions_body rest (freq, pos_table done)
      = Return (freq', pos_table (done ++ rest)) ∧
    length freq' = length freq ∧
    Forall (λ w, 1 ≤ w) freq' ∧
    np_sum freq' = np_sum freq + Z.of_nat (length rest).
Proof.
  induction rest as [|[u i] rest IH]; intros done freq Hrange Hfreq.
  - exists freq. rewrite app_nil_r. simpl. split_and!; [done..|lia].
  - apply Forall_cons in Hrange as [Hi Hrange]. simpl in Hi.
    destruct (np_index_Return _ _ Hi) as (k & Hk & Hlt).
    simpl. rewrite Hk. simpl. rewrite pos_table_snoc.
    set (freq1 := <[k:=freq !!! k + 1]> freq).
    assert (length freq1 = length freq) as Hlen1 by apply length_insert.
    assert (1 ≤ freq !!! k) as Hk1.
    { rewrite Forall_forall in Hfreq. apply Hfreq.
      by apply list_elem_of_lookup_total_2. }
    destruct (IH (done ++ [(u, i)]) freq1) as (freq' & Hrun & Hlen & Hge & Hsum).
    + by rewrite Hlen1.
    + subst freq1. apply Forall_insert; [done|lia].
    + exists freq'. rewrite <- app_assoc in Hrun. simpl in Hrun.
      split_and!; [done|congruence|done|].
      rewrite Hsum. subst freq1. rewrite np_sum_insert by done.
      simpl length. lia.
Qed.

(** C5. On an interaction list whose item ids index the frequency array
    (ids in [[0, items_size)], or NumPy's negative ids counting from the
    end), [make_pos_distributions] returns a frequency array of length
    [items_size] with every entry at least 1 and total
    [items_size + number of interactions], and the dictionary that maps
    each user id, in first-seen order, to the item ids of that user's
    interactions in order with repeats kept. On [[(0,1),(0,2),(1,2)]] with
    [items_size = 4] the array is [[1,2,3,1]] and the dictionary
    [{0: [1,2], 1: [2]}]. *)
Theorem make_pos_distributions_spec :
  (∀ (self : DualEncoderDatasets) (interactions : list (Z * Z)),
     0 ≤ items_size self →
     Forall (λ ui, - items_size self ≤ ui.2 < items_size self) interactions →
     ∃ freq_dist pos_interactions,
       make_pos_distributions self interactions
         = Return (freq_dist, pos_interactions) ∧
       Z.of_nat (length freq_dist) = items_size self ∧
       Forall (λ w, 1 ≤ w) freq_dist ∧
       np_sum freq_dist = items_size self + Z.of_nat (length interactions) ∧
       pos_interactions.*1 = first_seen (interactions.*1) ∧
       ∀ user_id,
         dict_get pos_interactions user_id
         = if decide (user_id ∈ interactions.*1)
           then Some (positives_of user_id interactions) else None)
  ∧ (∀ self, items_size self = 4 →
       make_pos_distributions self [(0, 1); (0, 2); (1, 2)]
       = Return ([1; 2; 3; 1], [(0, [1; 2]); (1, [2])])).
Proof.
  split.
  - intros self inter Hsize Hrange. unfold make_pos_distributions, np_ones.
    rewrite decide_False by lia. simpl.
    set (freq := replicate (Z.to_nat (items_size self)) 1).
    assert (Z.of_nat (length freq) = items_size self) as Hlen
      by (subst freq; rewrite length_replicate; lia).
    destruct (make_pos_distributions_loop inter [] freq)
      as (freq' & Hrun & Hlen' & Hge & Hsum).
    { by rewrite Hlen. }
    { subst freq. apply Forall_replicate. lia. }
    exists freq', (pos_table inter). change (pos_table []) with
      (@nil (Z * list Z)) in Hrun. simpl in Hrun.
    split_and!; [done|congruence|done| | |].
    + rewrite Hsum. subst freq. rewrite np_sum_replicate. lia.
    + unfold pos_table. rewrite <- list_fmap_compose.
      rewrite (list_fmap_ext _ id); [by rewrite list_fmap_id|done].
    + intros u. unfold pos_table. rewrite dict_get_tabulate.
      destruct (decide (u ∈ inter.*1)) as [Hu|Hu].
      * rewrite decide_True by (by apply elem_of_first_seen). done.
      * rewrite decide_False by (by rewrite elem_of_first_seen). done.
  - intros self Hsize. unfold make_pos_distributions. rewrite Hsize.
    reflexivity.
Qed.

(* The scenario of the specification, through the general statement. *)
Lemma make_pos_distributions_spec_witness :
  ∃ freq_dist pos_interactions,
    make_pos_distributions four_items (interactions four_items)
      = Return (freq_dist, pos_interactions) ∧
    Z.of_nat (length freq_dist) = 4 ∧
    Forall (λ w, 1 ≤ w) freq_dist ∧
    np_sum freq_dist = 4 + 3 ∧
    pos_interactions.*1 = [0; 1] ∧
    ∀ user_id,
      dict_get pos_interactions user_id
      = if decide (user_id ∈ [0; 0; 1])
        then Some (positives_of user_id (interactions four_items)) else None.
Proof.
  apply (proj1 make_pos_distributions_spec four_items
           (interactions four_items)).
  - vm_compute. discriminate.
  - repeat (constructor; [vm_compute; split; [discriminate|reflexivity]|]).
    constructor.
Defined.

(** ** [neg_choice]: zeroing the positives and the cut-off *)

Lemma mapM_result_Return {A B : Type} (f : A → result B) (g : A → B) l :
  Forall (λ x, f x = Return (g x)) l → mapM f l = Return (g <$> l).
Proof.
  induction 1 as [|x l Hx _ IH]; [done|].
  simpl in *. rewrite Hx. simpl. rewrite IH. done.
Qed.

Lemma length_foldl_insert {A : Type} (v : A) ks : ∀ a,
  length (foldl (λ a k, <[k:=v]> a) a ks) = length a.
Proof.
  induction ks as [|k ks IH]; intros a; simpl; [done|].
  by rewrite IH, length_insert.
Qed.

Lemma lookup_foldl_insert {A : Type} (v : A) ks : ∀ a i,
  (i < length a)%nat →
  foldl (λ a k, <[k:=v]> a) a ks !! i
  = if decide (i ∈ ks) then Some v else a !! i.
Proof.
  induction ks as [|k ks IH]; intros a i Hi; cbn [foldl].
  - rewrite decide_False by apply not_elem_of_nil. done.
  - rewrite IH by (by rewrite length_insert).
    destruct (decide (i ∈ ks)) as [Hin|Hin].
    + rewrite decide_True by (by apply list_elem_of_further). done.
    + destruct (decide (k = i)) as [->|Hne].
      * rewrite decide_True by apply list_elem_of_here.
        by apply list_lookup_insert_eq.
      * rewrite decide_False by (intros [?|?]%elem_of_cons; congruence).
        by apply list_lookup_insert_ne.
Qed.

Lemma elem_of_distinct (pos : list Z) x : x ∈ distinct pos ↔ x ∈ pos.
Proof. apply elem_of_remove_dups. Qed.

Lemma np_setitem_zero freq pos :
  valid_positives freq pos →
  np_setitem freq (distinct pos) 0 = Return (zeroed freq pos).
Proof.
  intros [Hne Hrange]. unfold np_setitem.
  rewrite decide_False; last first.
  { destruct pos as [|x pos]; [done|]. intros Hnil.
    assert (x ∈ distinct (x :: pos)) as Hx
      by (apply elem_of_distinct, list_elem_of_here).
    rewrite Hnil in Hx. by apply not_elem_of_nil in Hx. }
  rewrite (mapM_result_Return _ Z.to_nat); last first.
  { apply Forall_forall. intros i Hi. rewrite elem_of_distinct in Hi.
    rewrite Forall_forall in Hrange. specialize (Hrange i Hi).
    unfold np_index. by rewrite decide_True. }
  simpl. f_equal. apply list_eq. intros i. unfold zeroed.
  rewrite list_lookup_imap.
  destruct (decide (i < length freq)%nat) as [Hi|Hi].
  - rewrite lookup_foldl_insert by done.
    destruct (lookup_lt_is_Some_2 freq i Hi) as [w Hw]. rewrite Hw. simpl.
    destruct (decide (Z.of_nat i ∈ pos)) as [Hin|Hin].
    + rewrite decide_True; [done|]. apply list_elem_of_fmap.
      exists (Z.of_nat i). split; [lia|by apply elem_of_distinct].
    + rewrite decide_False; [done|].
      intros (x & -> & Hx)%list_elem_of_fmap.
      rewrite elem_of_distinct in Hx.
      rewrite Forall_forall in Hrange. specialize (Hrange x Hx).
      rewrite Z2Nat.id in Hin by lia. done.
  - rewrite !lookup_ge_None_2; [done|lia|].
    rewrite length_foldl_insert. lia.
Qed.

Lemma length_zeroed freq pos : length (zeroed freq pos) = length freq.
Proof. apply length_imap. Qed.

Lemma zeroed_lookup_total freq pos k :
  (k < length freq)%nat →
  zeroed freq pos !!! k = if decide (Z.of_nat k ∈ pos) then 0 else freq !!! k.
Proof.
  intros Hk. destruct (lookup_lt_is_Some_2 freq k Hk) as [w Hw].
  apply list_lookup_total_correct. unfold zeroed.
  rewrite list_lookup_imap, Hw. simpl.
  by rewrite (list_lookup_total_correct _ _ _ Hw).
Qed.

Lemma py_slice_from_suffix {A : Type} (start : Z) (l : list A) :
  ∃ m, py_slice_from start l = drop m l.
Proof. unfold py_slice_from. case_decide; eauto. Qed.

Lemma py_slice_from_last {A : Type} (k : Z) (l : list A) :
  1 ≤ k ≤ Z.of_nat (length l) →
  py_slice_from (- k) l = drop (length l - Z.to_nat k) l.
Proof.
  intros Hk. unfold py_slice_from. rewrite decide_True by lia.
  f_equal. lia.
Qed.

(** ** [neg_choice]: normalisation of the weights *)

Lemma mapM_id_fmap_Some {A B : Type} (f : A → B) (l : list A) :
  mapM id ((λ x, Some (f x)) <$> l) = Some (f <$> l).
Proof.
  induction l as [|x l IH]; [done|].
  change (mapM id ((λ x, Some (f x)) <$> x :: l))
    with (k ← mapM id ((λ x, Some (f x)) <$> l); Some (f x :: k)).
  by rewrite IH.
Qed.

Lemma np_true_divide_finite w S :
  S ≠ 0 →
  mapM id (np_true_divide w S)
  = Some ((λ x, inject_Z x / inject_Z S)%Q <$> w).
Proof.
  intros HS. unfold np_true_divide. rewrite <- mapM_id_fmap_Some.
  f_equal. apply list_fmap_ext. intros i x _. by rewrite decide_False.
Qed.

Lemma np_true_divide_by_zero w q :
  mapM id (np_true_divide w 0) = Some q → w = [] ∧ q = [].
Proof.
  destruct w as [|x w]; simpl; [by intros [= <-]|].
  unfold np_true_divide. simpl. done.
Qed.

Lemma length_np_true_divide w S : length (np_true_divide w S) = length w.
Proof. unfold np_true_divide. by rewrite length_fmap. Qed.

Lemma Qdiv_Z_zero S : ¬ (0 < inject_Z 0 / inject_Z S)%Q.
Proof.
  unfold Qdiv. rewrite Qmult_0_l. apply Qlt_irrefl.
Qed.

Lemma Qdiv_Z_pos x S : 0 < S → 0 < x → (0 < inject_Z x / inject_Z S)%Q.
Proof.
  intros HS Hx. apply Qlt_shift_div_l.
  - change 0%Q with (inject_Z 0). by rewrite <- Zlt_Qlt.
  - rewrite Qmult_0_l. change 0%Q with (inject_Z 0). by rewrite <- Zlt_Qlt.
Qed.

Lemma Qdiv_Z_nonneg x S : 0 < S → 0 ≤ x → ¬ (inject_Z x / inject_Z S < 0)%Q.
Proof.
  intros HS Hx. apply Qle_not_lt. apply Qle_shift_div_l.
  - change 0%Q with (inject_Z 0). by rewrite <- Zlt_Qlt.
  - rewrite Qmult_0_l. change 0%Q with (inject_Z 0). by rewrite <- Zle_Qle.
Qed.

Lemma Qsum_np_true_divide w S :
  (Qsum ((λ x, inject_Z x / inject_Z S) <$> w)
   == inject_Z (np_sum w) / inject_Z S)%Q.
Proof.
  induction w as [|x w IH]; simpl.
  - unfold Qdiv. by rewrite Qmult_0_l.
  - rewrite IH. unfold np_sum. simpl. rewrite inject_Z_plus.
    unfold Qdiv. ring.
Qed.

Lemma Qsum_normalised w :
  np_sum w ≠ 0 →
  ¬ (np_atol
     < Qabs (Qsum ((λ x, inject_Z x / inject_Z (np_sum w)) <$> w) - 1))%Q.
Proof.
  intros HS. rewrite Qsum_np_true_divide.
  assert (inject_Z (np_sum w) / inject_Z (np_sum w) == 1)%Q as ->.
  { apply Qmult_inv_r. change 0%Q with (inject_Z 0).
    rewrite inject_Z_injective. done. }
  by vm_compute.
Qed.

(** ** [np.random.choice] and [neg_choice] *)

Section neg_choice.
Context {N : Numpy}.

(** Every way out of [choice]: a [ValueError] that leaves the generator
    alone, or a validated draw. *)
Lemma np_random_choice_outcome s a size p :
  np_random_choice s a size p = (Raise ValueError, s) ∨
  ∃ q, mapM id p = Some q ∧ 0 ≤ size ≤ Z.of_nat (count_positive q) ∧
       np_random_choice s a size p
       = (Return ((λ i, a !!! i) <$> (draw s q (Z.to_nat size)).1),
          (draw s q (Z.to_nat size)).2).
Proof.
  unfold np_random_choice.
  destruct (decide (length a = 0%nat ∧ size ≠ 0)); [by left|].
  destruct (decide (length p ≠ length a)); [by left|].
  destruct (mapM id p) as [q|]; [|by left].
  destruct (decide (Exists (λ x, (x < 0)%Q) q)); [by left|].
  destruct (decide (np_atol < Qabs (Qsum q - 1))%Q); [by left|].
  destruct (decide (Z.of_nat (length a) < size)); [by left|].
  destruct (decide (size < 0)); [by left|].
  destruct (decide (Z.of_nat (count_positive q) < size)); [by left|].
  right. exists q. split_and!; [done|lia..|].
  by destruct (draw s q (Z.to_nat size)).
Qed.

Lemma np_random_choice_infeasible s a size p :
  (∀ q, mapM id p = Some q → Z.of_nat (count_positive q) < size) →
  np_random_choice s a size p = (Raise ValueError, s).
Proof.
  intros Hq. destruct (np_random_choice_outcome s a size p)
    as [?|(q & Hp & Hsize & _)]; [done|].
  specialize (Hq q Hp). lia.
Qed.

Lemma np_random_choice_feasible s a size p q :
  length p = length a → mapM id p = Some q →
  ¬ Exists (λ x, (x < 0)%Q) q →
  ¬ (np_atol < Qabs (Qsum q - 1))%Q →
  0 ≤ size ≤ Z.of_nat (count_positive q) →
  np_random_choice s a size p
  = (Return ((λ i, a !!! i) <$> (draw s q (Z.to_nat size)).1),
     (draw s q (Z.to_nat size)).2).
Proof.
  intros Hlen Hp Hneg Hsum Hsize. unfold np_random_choice.
  assert (count_positive q ≤ length a)%nat as Hcnt.
  { rewrite <- Hlen. unfold count_positive.
    etrans; [apply length_filter|].
    apply mapM_Some_1, Forall2_length in Hp. lia. }
  rewrite decide_False by lia. rewrite decide_False by lia.
  rewrite Hp. rewrite decide_False by done. rewrite decide_False by done.
  rewrite decide_False by lia. rewrite decide_False by lia.
  rewrite decide_False by lia. by destruct (draw s q (Z.to_nat size)).
Qed.

Lemma neg_choice_unfold freq pos margin n s z :
np_setitem freq (distinct pos) 0 = Return z →
neg_choice freq pos margin n s
= match np_random_choice s (item_id_to_choice z margin)
          (n_samples pos n) (kept_probabilities z margin) with
  | (Return chosen, s') => (Return (Z.of_nat <$> chosen), s')
  | (Raise ValueError, s') =>
      (Return (replicate (Z.to_nat (n_samples pos n)) 0), s')
  | (Raise e, s') => (Raise e, s')
  end.
Proof.
intros Hz. unfold neg_choice. by rewrite Hz.
Qed.

End neg_choice.

Section candidates.
Context {N : Numpy} {NL : NumpyLaws N}.

Lemma item_id_to_choice_suffix z margin :
  ∃ m, argsort z
       = take m (argsort z) ++ item_id_to_choice z margin.
Proof.
  unfold item_id_to_choice.
  destruct (py_slice_from_suffix
              (- freq_margin_num (length z) margin) (argsort z)) as [m ->].
  exists m. by rewrite take_drop.
Qed.

Lemma NoDup_argsort z : NoDup (argsort z).
Proof. rewrite argsort_perm. apply NoDup_seq. Qed.

Lemma elem_of_argsort z i : i ∈ argsort z ↔ (i < length z)%nat.
Proof. rewrite argsort_perm, elem_of_seq. lia. Qed.

Lemma length_argsort z : length (argsort z) = length z.
Proof. by rewrite argsort_perm, length_seq. Qed.

Lemma NoDup_item_id_to_choice z margin :
  NoDup (item_id_to_choice z margin).
Proof.
  destruct (item_id_to_choice_suffix z margin) as [m Hm].
  pose proof (NoDup_argsort z) as Hnd. rewrite Hm in Hnd.
  by apply NoDup_app in Hnd as (_ & _ & ?).
Qed.

Lemma item_id_to_choice_lt z margin i :
  i ∈ item_id_to_choice z margin → (i < length z)%nat.
Proof.
  destruct (item_id_to_choice_suffix z margin) as [m Hm]. intros Hi.
  apply elem_of_argsort. rewrite Hm. apply elem_of_app. by right.
Qed.

Lemma length_item_id_to_choice_le z margin :
  (length (item_id_to_choice z margin) ≤ length z)%nat.
Proof.
  destruct (item_id_to_choice_suffix z margin) as [m Hm].
  rewrite <- (length_argsort z), Hm, length_app. lia.
Qed.

(** The pool holds the heaviest positions: nothing left out is heavier
    than something kept. *)
Lemma item_id_to_choice_top z margin i j :
  i ∈ item_id_to_choice z margin → (j < length z)%nat →
  j ∉ item_id_to_choice z margin → z !!! j ≤ z !!! i.
Proof.
  destruct (item_id_to_choice_suffix z margin) as [m Hm].
  intros Hi Hj Hnj. pose proof (argsort_sorted z) as Hs.
  rewrite Hm in Hs.
  eapply (StronglySorted_app_1_elem_of _ _ _ j i Hs); [|done].
  apply elem_of_argsort in Hj. rewrite Hm in Hj.
  by apply elem_of_app in Hj as [?|?].
Qed.

Lemma item_id_to_choice_zero z margin :
  freq_margin_num (length z) margin = 0 →
  item_id_to_choice z margin = argsort z.
Proof.
  intros Hk. unfold item_id_to_choice, py_slice_from. rewrite Hk.
  by rewrite decide_False by lia.
Qed.

Lemma length_item_id_to_choice z margin :
  1 ≤ freq_margin_num (length z) margin ≤ Z.of_nat (length z) →
  Z.of_nat (length (item_id_to_choice z margin))
  = freq_margin_num (length z) margin.
Proof.
  intros Hk. unfold item_id_to_choice.
  rewrite py_slice_from_last by (by rewrite length_argsort).
  rewrite length_drop, !length_argsort. lia.
Qed.
End candidates.

(** ** The cut-off of [neg_choice] *)

Lemma py_int_nonneg q : (0 <= q)%Q → py_int q = Qfloor q.
Proof.
  destruct q as [a b]. unfold Qle, py_int, Qfloor. simpl. intros Ha.
  apply Z.quot_div_nonneg; lia.
Qed.

Lemma pow2_pos e : 0 < pow2 e.
Proof. unfold pow2. apply Z.pow_pos_nonneg; lia. Qed.

Lemma pow2_neg e : e ≤ 0 → pow2 e = 1.
Proof. intros He. unfold pow2. by replace (Z.max 0 e) with 0 by lia. Qed.

Lemma pow2_nonneg e : 0 ≤ e → pow2 e = 2 ^ e.
Proof. intros He. unfold pow2. by replace (Z.max 0 e) with e by lia. Qed.

Lemma pow2_add e1 e2 : 0 ≤ e1 → 0 ≤ e2 → pow2 (e1 + e2) = pow2 e1 * pow2 e2.
Proof.
  intros H1 H2. rewrite !pow2_nonneg by lia. by apply Z.pow_add_r.
Qed.

Lemma ilog2_le a b :
  0 < a → 0 < b → b * pow2 (ilog2 a b) ≤ a * pow2 (- ilog2 a b).
Proof.
  intros Ha Hb. unfold ilog2.
  destruct (decide _) as [Hd|_]; [done|].
  destruct (Z.log2_spec a Ha) as [Ha1 _].
  destruct (Z.log2_spec b Hb) as [_ Hb2].
  pose proof (Z.log2_nonneg a) as Hla. pose proof (Z.log2_nonneg b) as Hlb.
  destruct (decide (0 ≤ Z.log2 a - Z.log2 b - 1)) as [Hpos|Hneg].
  - rewrite (pow2_neg (- _)) by lia. rewrite pow2_nonneg by done.
    replace (Z.log2 a) with (Z.log2 b + 1 + (Z.log2 a - Z.log2 b - 1)) in Ha1
      by lia.
    rewrite Z.pow_add_r in Ha1 by lia.
    pose proof (Z.pow_pos_nonneg 2 (Z.log2 a - Z.log2 b - 1) ltac:(lia) Hpos).
    replace (Z.succ (Z.log2 b)) with (Z.log2 b + 1) in Hb2 by lia. nia.
  - rewrite (pow2_neg (_ - 1)) by lia. rewrite pow2_nonneg by lia.
    replace (Z.succ (Z.log2 b))
      with (Z.log2 a + (- (Z.log2 a - Z.log2 b - 1))) in Hb2 by lia.
    rewrite Z.pow_add_r in Hb2 by lia.
    pose proof (Z.pow_pos_nonneg 2 (- (Z.log2 a - Z.log2 b - 1))
                  ltac:(lia) ltac:(lia)).
    nia.
Qed.

Lemma round_half_even_ge n d : n `div` d ≤ round_half_even n d.
Proof. unfold round_half_even. repeat case_decide; try destruct (Z.even _); lia. Qed.

Lemma round_half_even_le n d z :
  0 < d → n ≤ z * d → round_half_even n d ≤ z.
Proof.
  intros Hd Hn. unfold round_half_even.
  pose proof (Z.div_mod n d ltac:(lia)) as Hdm.
  pose proof (Z.mod_pos_bound n d Hd) as Hr.
  assert (n `div` d ≤ z) as Hq by nia.
  destruct (decide (2 * n `mod` d < d)); [done|].
  assert (n `div` d + 1 ≤ z) by nia.
  destruct (decide _); [done|]. by destruct (Z.even _).
Qed.

Lemma float64_round_pos_ge a b z :
  0 < a → 0 < b → 0 ≤ z < 2 ^ 53 → z * b ≤ a →
  (inject_Z z <= float64_round_pos a b)%Q.
Proof.
  intros Ha Hb Hz Hzb. unfold float64_round_pos, Qldexp.
  set (e := Z.max (ilog2 a b - 52) (- 1074)).
  pose proof (round_half_even_ge (a * pow2 (- e)) (b * pow2 e)) as Hm.
  set (m := round_half_even _ _) in *.
  destruct (decide (0 ≤ e)) as [He|He].
  - rewrite <- Zle_Qle. rewrite (pow2_neg (- e)) in Hm by lia.
    rewrite Z.mul_1_r in Hm. rewrite pow2_nonneg in * by done.
    pose proof (Z.pow_pos_nonneg 2 e ltac:(lia) He) as Hpe.
    destruct (decide (e = 0)) as [He0|He0].
    + rewrite He0 in *. rewrite Z.pow_0_r, !Z.mul_1_r in *.
      etrans; [|exact Hm]. apply Z.div_le_lower_bound; lia.
    + assert (e = ilog2 a b - 52) as HeL by lia.
      pose proof (ilog2_le a b Ha Hb) as HL.
      rewrite (pow2_neg (- _)) in HL by lia.
      replace (ilog2 a b) with (e + 52) in HL by lia.
      rewrite pow2_nonneg, Z.pow_add_r, Z.mul_1_r in HL by lia.
      assert (2 ^ 52 ≤ m) as Hm52.
      { etrans; [|exact Hm]. apply Z.div_le_lower_bound; [lia|]. lia. }
      assert (2 ≤ 2 ^ e) as H2e.
      { change 2 with (2 ^ 1) at 1. apply Z.pow_le_mono_r; lia. }
      change (2 ^ 53) with (2 ^ 52 * 2) in Hz. nia.
  - rewrite (pow2_neg e) in Hm by lia. rewrite Z.mul_1_r in Hm.
    pose proof (pow2_pos (- e)) as HP.
    unfold Qle. cbn [Qnum Qden inject_Z]. rewrite Z2Pos.id by done.
    rewrite Z.mul_1_r. etrans; [|exact Hm].
    apply Z.div_le_lower_bound; [lia|]. nia.
Qed.

Lemma float64_round_pos_le a b z :
  0 < a → 0 < b → 0 ≤ z < 2 ^ 53 → a ≤ z * b →
  (float64_round_pos a b <= inject_Z z)%Q.
Proof.
  intros Ha Hb Hz Hzb. unfold float64_round_pos, Qldexp.
  set (e := Z.max (ilog2 a b - 52) (- 1074)).
  destruct (decide (0 ≤ e)) as [He|He].
  - rewrite <- Zle_Qle. rewrite (pow2_neg (- e)) by lia.
    rewrite Z.mul_1_r. rewrite pow2_nonneg by done.
    pose proof (Z.pow_pos_nonneg 2 e ltac:(lia) He) as Hpe.
    destruct (decide (e = 0)) as [He0|He0].
    + rewrite He0. rewrite Z.pow_0_r, !Z.mul_1_r.
      apply round_half_even_le; lia.
    + exfalso. assert (e = ilog2 a b - 52) as HeL by lia.
      pose proof (ilog2_le a b Ha Hb) as HL.
      rewrite (pow2_neg (- _)) in HL by lia.
      replace (ilog2 a b) with (e + 52) in HL by lia.
      rewrite pow2_nonneg, Z.pow_add_r, Z.mul_1_r in HL by lia.
      assert (2 ≤ 2 ^ e) as H2e.
      { change 2 with (2 ^ 1) at 1. apply Z.pow_le_mono_r; lia. }
      change (2 ^ 53) with (2 ^ 52 * 2) in Hz. nia.
  - rewrite (pow2_neg e) by lia. rewrite Z.mul_1_r.
    pose proof (pow2_pos (- e)) as HP.
    unfold Qle. cbn [Qnum Qden inject_Z]. rewrite Z2Pos.id by done.
    rewrite Z.mul_1_r. apply round_half_even_le; [done|]. nia.
Qed.

Lemma ilog2_lt a b :
  0 < a → 0 < b →
  a * pow2 (- (ilog2 a b + 1)) < b * pow2 (ilog2 a b + 1).
Proof.
  intros Ha Hb. unfold ilog2.
  destruct (decide _) as [_|Hd].
  - destruct (Z.log2_spec a Ha) as [_ Ha2].
    destruct (Z.log2_spec b Hb) as [Hb1 _].
    pose proof (Z.log2_nonneg a) as Hla. pose proof (Z.log2_nonneg b) as Hlb.
    replace (Z.succ (Z.log2 a)) with (Z.log2 a + 1) in Ha2 by lia.
    destruct (decide (0 ≤ Z.log2 a - Z.log2 b + 1)) as [Hpos|Hneg].
    + rewrite (pow2_neg (- _)) by lia. rewrite pow2_nonneg by done.
      replace (Z.log2 a + 1)
        with (Z.log2 b + (Z.log2 a - Z.log2 b + 1)) in Ha2 by lia.
      rewrite Z.pow_add_r in Ha2 by lia.
      pose proof (Z.pow_pos_nonneg 2 (Z.log2 a - Z.log2 b + 1) ltac:(lia) Hpos).
      nia.
    + rewrite (pow2_neg (_ + 1)) by lia. rewrite pow2_nonneg by lia.
      replace (Z.log2 b)
        with (Z.log2 a + 1 + (- (Z.log2 a - Z.log2 b + 1))) in Hb1 by lia.
      rewrite Z.pow_add_r in Hb1 by lia.
      pose proof (Z.pow_pos_nonneg 2 (- (Z.log2 a - Z.log2 b + 1))
                    ltac:(lia) ltac:(lia)).
      nia.
  - replace (Z.log2 a - Z.log2 b - 1 + 1) with (Z.log2 a - Z.log2 b) by lia.
    lia.
Qed.

(** [a / b < 2^u] and [2^u <= a / b] are monotone in [u]. *)
Lemma pow2_lt_mono a b u v :
  0 < a → 0 < b → u ≤ v →
  a * pow2 (- u) < b * pow2 u → a * pow2 (- v) < b * pow2 v.
Proof.
  intros Ha Hb Huv H.
  pose proof (pow2_pos u). pose proof (pow2_pos (- u)).
  pose proof (pow2_pos v). pose proof (pow2_pos (- v)).
  assert (pow2 u ≤ pow2 v) as Hle1.
  { unfold pow2. apply Z.pow_le_mono_r; lia. }
  assert (pow2 (- v) ≤ pow2 (- u)) as Hle2.
  { unfold pow2. apply Z.pow_le_mono_r; lia. }
  nia.
Qed.

Lemma pow2_le_mono a b u v :
  0 < a → 0 < b → v ≤ u →
  b * pow2 u ≤ a * pow2 (- u) → b * pow2 v ≤ a * pow2 (- v).
Proof.
  intros Ha Hb Huv H.
  pose proof (pow2_pos u). pose proof (pow2_pos (- u)).
  pose proof (pow2_pos v). pose proof (pow2_pos (- v)).
  assert (pow2 v ≤ pow2 u) as Hle1.
  { unfold pow2. apply Z.pow_le_mono_r; lia. }
  assert (pow2 (- u) ≤ pow2 (- v)) as Hle2.
  { unfold pow2. apply Z.pow_le_mono_r; lia. }
  nia.
Qed.

(** [pow2 (e + k)] against [pow2 e] for [0 <= k]. *)
Lemma pow2_shift e k :
  0 ≤ k → pow2 (e + k) * pow2 (- e) = 2 ^ k * pow2 e * pow2 (- (e + k)).
Proof.
  intros Hk.
  destruct (decide (0 ≤ e)) as [He|He].
  - rewrite (pow2_neg (- e)), (pow2_neg (- (e + k))) by lia.
    rewrite !pow2_nonneg by lia. rewrite Z.pow_add_r by lia. ring.
  - destruct (decide (0 ≤ e + k)) as [Hek|Hek].
    + rewrite (pow2_neg e), (pow2_neg (- (e + k))) by lia.
      rewrite !pow2_nonneg by lia. rewrite !Z.mul_1_r.
      rewrite <- Z.pow_add_r by lia. f_equal. lia.
    + rewrite (pow2_neg e), (pow2_neg (e + k)) by lia.
      rewrite !pow2_nonneg by lia.
      replace (- e) with (k + - (e + k)) at 1 by lia.
      rewrite Z.pow_add_r by lia. ring.
Qed.

Lemma round_half_even_nearest n d :
  0 < d → 2 * Z.abs (round_half_even n d * d - n) ≤ d.
Proof.
  intros Hd. unfold round_half_even.
  pose proof (Z.div_mod n d ltac:(lia)) as Hdm.
  pose proof (Z.mod_pos_bound n d Hd) as Hr.
  repeat case_decide; try destruct (Z.even _); nia.
Qed.

(** [float64_round_pos a b] is a binary64 number, [m * 2^e] with a
    significand [m] of at most 53 bits ([m = 2^53] is the next power of two)
    and [-1074 <= e], normalised unless [e = -1074]; and no number
    [m' * 2^e] is nearer to [a / b]. *)
Lemma float64_round_pos_spec a b :
  0 < a → 0 < b →
  ∃ m e,
    float64_round_pos a b = Qldexp m e ∧
    - 1074 ≤ e ∧ 0 ≤ m ≤ 2 ^ 53 ∧ (- 1074 < e → 2 ^ 52 ≤ m) ∧
    2 * Z.abs (m * (b * pow2 e) - a * pow2 (- e)) ≤ b * pow2 e.
Proof.
  intros Ha Hb. unfold float64_round_pos.
  set (e := Z.max (ilog2 a b - 52) (- 1074)).
  exists (round_half_even (a * pow2 (- e)) (b * pow2 e)), e.
  pose proof (pow2_pos e) as Hpe. pose proof (pow2_pos (- e)) as Hpne.
  assert (0 < b * pow2 e) as Hd by nia.
  pose proof (round_half_even_ge (a * pow2 (- e)) (b * pow2 e)) as Hge.
  pose proof (round_half_even_nearest (a * pow2 (- e)) (b * pow2 e) Hd) as Hn.
  assert (a * pow2 (- e) < 2 ^ 53 * (b * pow2 e)) as Hlt.
  { pose proof (pow2_lt_mono a b (ilog2 a b + 1) (e + 53) Ha Hb ltac:(lia)
                  (ilog2_lt a b Ha Hb)) as H.
    pose proof (pow2_shift e 53 ltac:(lia)) as Hs.
    pose proof (pow2_pos (e + 53)). pose proof (pow2_pos (- (e + 53))).
    nia. }
  split_and!; [done|lia| | | |done].
  - etrans; [|exact Hge]. apply Z.div_pos; nia.
  - apply round_half_even_le; [done|]. lia.
  - intros He. assert (e = ilog2 a b - 52) as HeL by lia.
    etrans; [|exact Hge]. apply Z.div_le_lower_bound; [done|].
    pose proof (ilog2_le a b Ha Hb) as HL.
    replace (ilog2 a b) with (e + 52) in HL by lia.
    pose proof (pow2_shift e 52 ltac:(lia)) as Hs.
    pose proof (pow2_pos (e + 52)). pose proof (pow2_pos (- (e + 52))).
    nia.
Qed.

(** A float is its own nearest float. *)
Lemma float64_round_pos_exact a b m e0 :
  0 < a → 0 < b → 0 < m < 2 ^ 53 → - 1074 ≤ e0 →
  a * pow2 (- e0) = m * (b * pow2 e0) →
  (float64_round_pos a b == a # Z.to_pos b)%Q.
Proof.
  intros Ha Hb Hm He0 Hx. unfold float64_round_pos.
  pose proof (pow2_pos e0) as Hp0. pose proof (pow2_pos (- e0)) as Hpn0.
  assert (ilog2 a b ≤ e0 + 52) as HL.
  { destruct (decide (ilog2 a b ≤ e0 + 52)) as [|Hgt]; [done|]. exfalso.
    pose proof (pow2_le_mono a b (ilog2 a b) (e0 + 53) Ha Hb ltac:(lia)
                  (ilog2_le a b Ha Hb)) as Hle.
    pose proof (pow2_shift e0 53 ltac:(lia)) as Hs.
    pose proof (pow2_pos (- (e0 + 53))) as HP'.
    apply (Z.mul_le_mono_nonneg_r _ _ (pow2 (- e0))) in Hle; [|lia].
    replace (b * pow2 (e0 + 53) * pow2 (- e0))
      with (2 ^ 53 * (b * pow2 e0 * pow2 (- (e0 + 53)))) in Hle
      by (transitivity (b * (pow2 (e0 + 53) * pow2 (- e0)));
          [rewrite Hs|]; ring).
    replace (a * pow2 (- (e0 + 53)) * pow2 (- e0))
      with (m * (b * pow2 e0 * pow2 (- (e0 + 53)))) in Hle
      by (transitivity (a * pow2 (- e0) * pow2 (- (e0 + 53)));
          [rewrite Hx|]; ring).
    assert (0 < b * pow2 e0 * pow2 (- (e0 + 53))) as HY by nia.
    nia. }
  set (e := Z.max (ilog2 a b - 52) (- 1074)).
  assert (e ≤ e0) as Hee by lia.
  pose proof (pow2_pos e) as Hpe. pose proof (pow2_pos (- e)) as Hpne.
  assert (a * pow2 (- e) = m * 2 ^ (e0 - e) * (b * pow2 e)) as Hn.
  { pose proof (pow2_shift e (e0 - e) ltac:(lia)) as Hs.
    replace (e + (e0 - e)) with e0 in Hs by lia.
    apply (Z.mul_cancel_r _ _ (pow2 (- e0))); [lia|].
    transitivity (m * b * (pow2 e0 * pow2 (- e))); [nia|].
    rewrite Hs. ring. }
  assert (round_half_even (a * pow2 (- e)) (b * pow2 e) = m * 2 ^ (e0 - e))
    as ->.
  { rewrite Hn. unfold round_half_even.
    rewrite Z.div_mul, Z.mod_mul by nia. rewrite decide_True by nia. done. }
  unfold Qldexp, Qeq. destruct (decide (0 ≤ e)).
  - cbn [Qnum Qden inject_Z]. rewrite Z2Pos.id by done.
    rewrite (pow2_neg (- e)) in Hn by lia. lia.
  - cbn [Qnum Qden]. rewrite !Z2Pos.id by done.
    rewrite (pow2_neg e) in Hn by lia. lia.
Qed.

(** Rounding does not cross an integer a float can hold exactly. *)
Lemma float64_round_ge (x : Q) (z : Z) :
  0 ≤ z < 2 ^ 53 → (inject_Z z <= x)%Q → (inject_Z z <= float64_round x)%Q.
Proof.
  intros Hz Hx. destruct x as [a b]. unfold float64_round.
  unfold Qle in Hx. cbn [Qnum Qden inject_Z] in *.
  destruct a as [|a|a].
  - unfold Qle. cbn [Qnum Qden inject_Z]. lia.
  - apply float64_round_pos_ge; lia.
  - lia.
Qed.

Lemma float64_round_le (x : Q) (z : Z) :
  (0 <= x)%Q → z < 2 ^ 53 → (x <= inject_Z z)%Q →
  (float64_round x <= inject_Z z)%Q.
Proof.
  intros H0 Hz Hx. destruct x as [a b]. unfold float64_round.
  unfold Qle in Hx, H0. cbn [Qnum Qden inject_Z] in *.
  destruct a as [|a|a].
  - unfold Qle. cbn [Qnum Qden inject_Z]. lia.
  - apply float64_round_pos_le; lia.
  - lia.
Qed.

(** For a margin of [[0, 1]] and an array short enough for its length to
    be a float, the cut-off is the floor or the ceiling of the exact
    product of the length and the float margin, and at most the length. *)
Lemma freq_margin_num_bounds (len : nat) (margin : Q) :
  (0 <= margin)%Q → (margin <= 1)%Q → Z.of_nat len < 2 ^ 53 →
  Qfloor (inject_Z (Z.of_nat len) * float64_round margin)
    ≤ freq_margin_num len margin
    ≤ Qceiling (inject_Z (Z.of_nat len) * float64_round margin)
  ∧ 0 ≤ freq_margin_num len margin ≤ Z.of_nat len.
Proof.
  intros H0 H1 Hlen. unfold freq_margin_num.
  set (n := Z.of_nat len) in *.
  assert (0 ≤ n) as Hn by lia.
  pose proof (float64_round_ge margin 0 ltac:(lia) H0) as Hm0.
  pose proof (float64_round_le margin 1 H0 ltac:(lia) H1) as Hm1.
  set (m := float64_round margin) in *.
  assert (inject_Z n <= float64_round (inject_Z n))%Q as Hn1.
  { apply float64_round_ge; [lia|apply Qle_refl]. }
  assert (float64_round (inject_Z n) <= inject_Z n)%Q as Hn2.
  { apply float64_round_le; [|lia|apply Qle_refl].
    change 0%Q with (inject_Z 0). by rewrite <- Zle_Qle. }
  set (nf := float64_round (inject_Z n)) in *.
  assert (0 <= inject_Z n)%Q as Hn0.
  { change 0%Q with (inject_Z 0). by rewrite <- Zle_Qle. }
  assert (nf * m == inject_Z n * m)%Q as Heq.
  { apply Qmult_comp; [by apply Qle_antisym|reflexivity]. }
  assert (0 <= inject_Z n * m)%Q as Hx0 by (by apply Qmult_le_0_compat).
  assert (inject_Z n * m <= inject_Z n)%Q as Hxn.
  { rewrite <- (Qmult_1_r (inject_Z n)) at 2.
    rewrite !(Qmult_comm (inject_Z n)). by apply Qmult_le_compat_r. }
  set (x := (inject_Z n * m)%Q) in *.
  assert (0 ≤ Qfloor x) as Hf0.
  { rewrite <- (Qfloor_Z 0). by apply Qfloor_resp_le. }
  assert (Qfloor x ≤ n) as Hfn.
  { rewrite <- (Qfloor_Z n). by apply Qfloor_resp_le. }
  assert (Qceiling x ≤ n) as Hcn.
  { rewrite <- (Qceiling_Z n). by apply Qceiling_resp_le. }
  assert (inject_Z (Qfloor x) <= nf * m)%Q as Hlo.
  { rewrite Heq. apply Qfloor_le. }
  assert (nf * m <= inject_Z (Qceiling x))%Q as Hhi.
  { rewrite Heq. apply Qle_ceiling. }
  assert (0 <= nf * m)%Q as Hp0 by (by rewrite Heq).
  pose proof (float64_round_ge (nf * m) (Qfloor x) ltac:(lia) Hlo) as Hr1.
  pose proof (float64_round_le (nf * m) (Qceiling x) Hp0 ltac:(lia) Hhi) as Hr2.
  set (r := float64_round (nf * m)) in *.
  assert (0 <= r)%Q as Hr0.
  { eapply Qle_trans; [|exact Hr1].
    change 0%Q with (inject_Z 0). by rewrite <- Zle_Qle. }
  rewrite py_int_nonneg by done.
  assert (Qfloor x ≤ Qfloor r) as Hk1.
  { rewrite <- (Qfloor_Z (Qfloor x)). by apply Qfloor_resp_le. }
  assert (Qfloor r ≤ Qceiling x) as Hk2.
  { rewrite <- (Qfloor_Z (Qceiling x)). by apply Qfloor_resp_le. }
  lia.
Qed.

(** C3 (as amended). Take a frequency array of length [items_size] below
    [2^53], valid positives and [freq_margin] in (0, 1], and let [k] be the
    number the code computes: [int(items_size * freq_margin)], the product
    being the float product. [k] is the floor or the ceiling of the exact
    product of [items_size] and the float [freq_margin]. The candidate pool
    of [neg_choice] is never empty and made of distinct positions of the
    array, none lighter (after the positives are zeroed) than a position
    left out. If [k >= 1] it holds exactly [k] positions, the top [k] by
    weight; if [k = 0] it holds every position. *)
Theorem candidate_pool_top_cutoff :
  ∀ (N : Numpy) (NL : NumpyLaws N) (freq pos : list Z) (freq_margin : Q),
    valid_positives freq pos →
    (0 < freq_margin)%Q → (freq_margin <= 1)%Q →
    Z.of_nat (length freq) < 2 ^ 53 →
    ∃ pool,
      candidate_pool freq pos freq_margin = Return pool ∧
      Qfloor (inject_Z (Z.of_nat (length freq)) * float64_round freq_margin)
        ≤ freq_margin_num (length freq) freq_margin
        ≤ Qceiling (inject_Z (Z.of_nat (length freq))
                    * float64_round freq_margin) ∧
      pool ≠ [] ∧
      NoDup pool ∧
      (∀ i, i ∈ pool → (i < length freq)%nat) ∧
      (∀ i j, i ∈ pool → (j < length freq)%nat → j ∉ pool →
              zeroed freq pos !!! j ≤ zeroed freq pos !!! i) ∧
      (1 ≤ freq_margin_num (length freq) freq_margin →
       Z.of_nat (length pool) = freq_margin_num (length freq) freq_margin) ∧
      (freq_margin_num (length freq) freq_margin = 0 →
       length pool = length freq).
Proof.
  intros N NL freq pos margin Hvalid H0 H1 Hlen.
  apply Qlt_le_weak in H0.
  destruct (freq_margin_num_bounds (length freq) margin H0 H1 Hlen)
    as [Hk Hrange].
  exists (item_id_to_choice (zeroed freq pos) margin).
  assert (1 ≤ freq_margin_num (length freq) margin →
          Z.of_nat (length (item_id_to_choice (zeroed freq pos) margin))
          = freq_margin_num (length freq) margin) as Hpos.
  { intros H1k. rewrite <- (length_zeroed freq pos).
    apply length_item_id_to_choice. rewrite length_zeroed. lia. }
  assert (freq_margin_num (length freq) margin = 0 →
          length (item_id_to_choice (zeroed freq pos) margin) = length freq)
    as Hzero.
  { intros H0k. rewrite item_id_to_choice_zero by (by rewrite length_zeroed).
    by rewrite length_argsort, length_zeroed. }
  assert (length freq ≠ 0%nat) as Hne.
  { destruct Hvalid as [Hpne Hin]. destruct pos as [|p pos]; [done|].
    apply Forall_cons in Hin as [Hp _]. lia. }
  split_and!.
  - unfold candidate_pool. by rewrite np_setitem_zero.
  - apply Hk.
  - apply Hk.
  - intros Hnil.
    destruct (decide (freq_margin_num (length freq) margin = 0)) as [Hz|Hz].
    + specialize (Hzero Hz). rewrite Hnil in Hzero. done.
    + rewrite Hnil in Hpos. cbn [length] in Hpos. lia.
  - apply NoDup_item_id_to_choice.
  - intros i Hi%item_id_to_choice_lt. by rewrite length_zeroed in Hi.
  - intros i j Hi Hj Hnj. apply (item_id_to_choice_top _ margin); [done| |done].
    by rewrite length_zeroed.
  - done.
  - done.
Qed.

(* Fifty items, positives [[0]] and [freq_margin = 0.58]: the float product
   is just below 29 and the pool holds 28 positions. *)
Lemma candidate_pool_top_cutoff_witness :
  ∃ pool,
    candidate_pool (N:=ref_numpy) (replicate 50 1) [0] (58 # 100)
      = Return pool ∧
    Z.of_nat (length pool) = 28 ∧ NoDup pool.
Proof.
  destruct (candidate_pool_top_cutoff ref_numpy ref_numpy_laws
              (replicate 50 1) [0] (58 # 100))
    as (pool & Hrun & _ & _ & Hnd & _ & _ & Hlen & _).
  - split; [done|]. constructor; [by vm_compute|constructor].
  - reflexivity.
  - by vm_compute.
  - by vm_compute.
  - exists pool. split_and!; [exact Hrun| |exact Hnd].
    apply Hlen. by vm_compute.
Defined.

(** C3 fails as stated: with three items, positives [[0]] and
    [freq_margin = 1/2] the pool is the single position 2, although
    [ceil(1/2 * 3) = 2]. *)
Lemma candidate_pool_not_ceiling :
  valid_positives [1; 2; 3] [0] ∧ (0 < 1 # 2)%Q ∧ (1 # 2 <= 1)%Q ∧
  candidate_pool (N:=ref_numpy) [1; 2; 3] [0] (1 # 2) = Return [2%nat] ∧
  Qceiling (inject_Z (Z.of_nat (length [1; 2; 3])) * (1 # 2)) = 2.
Proof.
  split_and!; try reflexivity; try (by vm_compute).
  split; [done|]. constructor; [simpl; lia|constructor].
Qed.

(** The cut-off is taken on the float product, not on the exact one:
    [50 * 0.58] is a float just below 29 although the decimals multiply to
    29, and [6 * (1/3)] rounds up to the float 2 although the float [1/3] is
    below a third. *)
Example freq_margin_num_rounds :
  freq_margin_num 50 (58 # 100) = 28 ∧ freq_margin_num 6 (1 # 3) = 2.
Proof. split; reflexivity. Qed.

(** When [int(freq_margin * items_size)] is [0] the slice [[-0:]] keeps
    every position: four items and the default [freq_margin = 0.15]. *)
Example candidate_pool_zero_cutoff :
  freq_margin_num 4 (15 # 100) = 0 ∧
  candidate_pool (N:=ref_numpy) [1; 2; 3; 4] [0] (15 # 100)
  = Return [0; 1; 2; 3]%nat.
Proof. split; reflexivity. Qed.

(** ** The degraded fallback of [neg_choice] *)

Lemma length_filter_fmap_le {A B : Type} (P : B → Prop) (Q : A → Prop)
    `{∀ y, Decision (P y)} `{∀ x, Decision (Q x)} (f : A → B) (l : list A) :
  (∀ x, x ∈ l → P (f x) → Q x) →
  (length (filter P (f <$> l)) ≤ length (filter Q l))%nat.
Proof.
  induction l as [|x l IH]; intros HPQ; [done|].
  rewrite fmap_cons, !filter_cons.
  assert (length (filter P (f <$> l)) ≤ length (filter Q l))%nat as IH'.
  { apply IH. intros y Hy. apply HPQ. by apply list_elem_of_further. }
  destruct (decide (P (f x))) as [HP|HP].
  - rewrite decide_True by (apply HPQ; [apply list_elem_of_here|done]).
    simpl. lia.
  - destruct (decide (Q x)); simpl; lia.
Qed.

Lemma length_filter_fmap_eq {A B : Type} (P : B → Prop) (Q : A → Prop)
    `{∀ y, Decision (P y)} `{∀ x, Decision (Q x)} (f : A → B) (l : list A) :
  (∀ x, x ∈ l → P (f x) ↔ Q x) →
  length (filter P (f <$> l)) = length (filter Q l).
Proof.
  induction l as [|x l IH]; intros HPQ; [done|].
  rewrite fmap_cons, !filter_cons.
  assert (length (filter P (f <$> l)) = length (filter Q l)) as IH'.
  { apply IH. intros y Hy. apply HPQ. by apply list_elem_of_further. }
  pose proof (HPQ x (list_elem_of_here _ _)) as Hx.
  destruct (decide (P (f x))) as [HP|HP].
  - rewrite decide_True by (by apply Hx). simpl. lia.
  - rewrite decide_False by (by rewrite <- Hx). done.
Qed.

Lemma mapM_result_inv {A B : Type} (f : A → result B) l : ∀ ks,
  mapM f l = Return ks → Forall2 (λ x k, f x = Return k) l ks.
Proof.
  induction l as [|x l IH]; intros ks.
  - intros [= <-]. constructor.
  - change (mapM f (x :: l))
      with (y ← f x; k ← mapM f l; Return (y :: k)).
    destruct (f x) as [y|e] eqn:Hy; [|done]. simpl.
    destruct (mapM f l) as [k|e]; [|done]. simpl.
    intros [= <-]. constructor; [done|]. by apply IH.
Qed.

(** What a successful [a[idx] = v] leaves: the length of [a], and [v] at
    every non-negative id of [idx]. *)
Lemma np_setitem_Return a idx v z :
  np_setitem a idx v = Return z →
  length z = length a ∧
  ∀ i, i ∈ idx → 0 ≤ i → z !! Z.to_nat i = Some v.
Proof.
  unfold np_setitem. destruct (decide (idx = [])); [done|].
  destruct (mapM (np_index (length a)) idx) as [ks|e] eqn:Hks; [|done].
  simpl. intros [= <-]. split; [apply length_foldl_insert|].
  intros i Hi Hi0. apply mapM_result_inv in Hks.
  apply list_elem_of_lookup in Hi as [j Hj].
  destruct (Forall2_lookup_l _ _ _ _ _ Hks Hj) as (k & Hk & Hidx).
  unfold np_index in Hidx. destruct (decide (0 ≤ i < Z.of_nat (length a)));
    [|destruct (decide (- Z.of_nat (length a) ≤ i < 0)); [lia|done]].
  injection Hidx as <-. rewrite lookup_foldl_insert by lia.
  rewrite decide_True; [done|]. by eapply list_elem_of_lookup_2.
Qed.

Section fallback.
Context {N : Numpy}.

Lemma kept_probabilities_finite z margin q :
  mapM id (kept_probabilities z margin) = Some q →
  q = [] ∨
  (np_sum (kept_weights z margin) ≠ 0 ∧
   q = (λ c, inject_Z (z !!! c)
             / inject_Z (np_sum (kept_weights z margin)))%Q
       <$> item_id_to_choice z margin).
Proof.
  unfold kept_probabilities.
  set (S := np_sum (kept_weights z margin)).
  destruct (decide (S = 0)) as [HS|HS].
  - rewrite HS. intros [_ ->]%np_true_divide_by_zero. by left.
  - rewrite np_true_divide_finite by done. intros [= <-]. right.
    split; [done|]. unfold kept_weights, np_take.
    by rewrite <- list_fmap_compose.
Qed.

(** A positive probability belongs to a candidate outside the
    positives. *)
Lemma count_positive_le_outside freq pos margin z q :
  np_setitem freq (distinct pos) 0 = Return z →
  mapM id (kept_probabilities z margin) = Some q →
  (count_positive q
   ≤ length (outside pos (item_id_to_choice z margin)))%nat.
Proof.
  intros [_ Hz]%np_setitem_Return [->|[HS ->]]%kept_probabilities_finite.
  - unfold count_positive. simpl. lia.
  - unfold count_positive, outside. apply length_filter_fmap_le.
    intros c _ Hc Hin.
    assert (z !! c = Some 0) as Hzero.
    { rewrite <- (Nat2Z.id c). apply Hz; [|lia]. by apply elem_of_distinct. }
    rewrite (list_lookup_total_correct _ _ _ Hzero) in Hc.
    by apply Qdiv_Z_zero in Hc.
Qed.

Lemma neg_choice_fallback freq pos margin n s z :
  np_setitem freq (distinct pos) 0 = Return z →
  Z.of_nat (length (outside pos (item_id_to_choice z margin)))
    < n_samples pos n →
  neg_choice freq pos margin n s
  = (Return (replicate (Z.to_nat (n_samples pos n)) 0), s).
Proof.
  intros Hz Hfew. rewrite (neg_choice_unfold _ _ _ _ _ z) by done.
  rewrite np_random_choice_infeasible; [done|].
  intros q Hq.
  pose proof (count_positive_le_outside freq pos margin z q Hz Hq). lia.
Qed.
End fallback.



(** ** The feasible draw of [neg_choice] *)

Lemma NoDup_lookup_total_fmap (pool idx : list nat) :
  NoDup pool → NoDup idx → Forall (λ i, (i < length pool)%nat) idx →
  NoDup ((λ i, pool !!! i) <$> idx).
Proof.
  intros Hpool Hidx Hlt. apply NoDup_fmap_2_strong; [|done].
  rewrite Forall_forall in Hlt. intros i j Hi Hj Heq.
  destruct (lookup_lt_is_Some_2 pool i (Hlt i Hi)) as [c Hc].
  destruct (lookup_lt_is_Some_2 pool j (Hlt j Hj)) as [d Hd].
  rewrite (list_lookup_total_correct _ _ _ Hc),
          (list_lookup_total_correct _ _ _ Hd) in Heq. subst d.
  rewrite NoDup_alt in Hpool. by eapply Hpool.
Qed.

Section feasible.
Context {N : Numpy} {NL : NumpyLaws N}.
Variables (freq pos : list Z) (margin : Q).
Hypothesis Hvalid : valid_positives freq pos.
Hypothesis Hfreq : Forall (λ w, 1 ≤ w) freq.

Let z := zeroed freq pos.
Let pool := item_id_to_choice z margin.
Let S := np_sum (kept_weights z margin).
Let q := fmap (λ x, inject_Z x / inject_Z S)%Q (kept_weights z margin).

Lemma zeroed_weight c :
  (c < length freq)%nat →
  (Z.of_nat c ∈ pos ∧ (z !!! c) = 0) ∨ ((Z.of_nat c ∉ pos) ∧ 1 ≤ (z !!! c)).
Proof.
  intros Hc. unfold z. rewrite zeroed_lookup_total by done.
  destruct (decide (Z.of_nat c ∈ pos)); [by left|right].
  split; [done|]. rewrite Forall_forall in Hfreq. apply Hfreq.
  by apply list_elem_of_lookup_total_2.
Qed.

Lemma pool_lt c : c ∈ pool → (c < length freq)%nat.
Proof.
  intros Hc%item_id_to_choice_lt. unfold z in Hc.
  by rewrite length_zeroed in Hc.
Qed.

Lemma outside_le_sum :
  Z.of_nat (length (outside pos pool)) ≤ S.
Proof.
  unfold S, kept_weights, np_take. fold z. fold pool.
  assert (∀ c, c ∈ pool → (c < length freq)%nat) as Hlt by apply pool_lt.
  clearbody pool. induction pool as [|c l IH]; [done|].
  unfold outside in *. rewrite filter_cons, fmap_cons. unfold np_sum in *.
  cbn [foldr].
  assert (Z.of_nat (length (filter (λ c, Z.of_nat c ∉ pos) l))
          ≤ foldr Z.add 0 ((λ k, z !!! k) <$> l)) as IH'.
  { apply IH. intros d Hd. apply Hlt. by apply list_elem_of_further. }
  destruct (zeroed_weight c (Hlt c (list_elem_of_here _ _)))
    as [[Hin Hz]|[Hin Hz]].
  - rewrite decide_False by (by intros ?). lia.
  - rewrite decide_True by done. simpl length. lia.
Qed.

Lemma count_positive_outside :
  0 < S → count_positive q = length (outside pos pool).
Proof.
  intros HS. unfold q, kept_weights, np_take. fold z. fold pool.
  rewrite <- list_fmap_compose. unfold count_positive, outside.
  apply length_filter_fmap_eq. intros c Hc%pool_lt. simpl.
  destruct (zeroed_weight c Hc) as [[Hin Hz]|[Hin Hz]].
  - rewrite Hz. split; [by intros ?%Qdiv_Z_zero|done].
  - split; [done|]. intros _. apply Qdiv_Z_pos; lia.
Qed.

Lemma q_nonneg : 0 < S → ¬ Exists (λ x, (x < 0)%Q) q.
Proof.
  intros HS. apply Forall_not_Exists, Forall_forall.
  unfold q, kept_weights, np_take. fold z. fold pool.
  rewrite <- list_fmap_compose.
  intros x (c & -> & Hc%pool_lt)%list_elem_of_fmap. simpl.
  apply Qdiv_Z_nonneg; [done|].
  destruct (zeroed_weight c Hc) as [[_ ->]|[_ ?]]; lia.
Qed.

Lemma length_q : length q = length pool.
Proof.
  unfold q, kept_weights, np_take. by rewrite !length_fmap.
Qed.

(** A position of positive probability is a candidate outside the
    positives. *)
Lemma q_positive_outside i x :
  q !! i = Some x → (0 < x)%Q →
  ∃ c, pool !! i = Some c ∧ Z.of_nat c ∉ pos.
Proof.
  unfold q, kept_weights, np_take. fold z. fold pool.
  rewrite <- list_fmap_compose, list_lookup_fmap.
  destruct (pool !! i) as [c|] eqn:Hc; [|done]. simpl.
  intros [= <-] Hx. exists c. split; [done|].
  pose proof (pool_lt c (list_elem_of_lookup_2 _ _ _ Hc)) as Hlt.
  destruct (zeroed_weight c Hlt) as [[_ Hz]|[? _]]; [|done].
  rewrite Hz in Hx. by apply Qdiv_Z_zero in Hx.
Qed.

Lemma neg_choice_feasible n s :
  0 ≤ n →
  n_samples pos n ≤ Z.of_nat (length (outside pos pool)) →
  ∃ l, (neg_choice freq pos margin n s).1 = Return l ∧
       Z.of_nat (length l) = n_samples pos n ∧
       (∀ x, x ∈ l → x ∉ pos) ∧ NoDup l.
Proof.
  intros Hn Hfeasible.
  assert (0 ≤ n_samples pos n) as Hsize by (unfold n_samples; lia).
  rewrite (neg_choice_unfold _ _ _ _ _ z) by (by apply np_setitem_zero).
  fold pool.
  destruct (decide (n_samples pos n = 0)) as [H0|Hpos].
  - (* nothing requested: both ways out of [choice] give the empty list *)
    rewrite H0.
    destruct (np_random_choice_outcome s pool 0
                (kept_probabilities z margin))
      as [->|(q' & _ & Hcnt & ->)].
    + exists []. simpl. split_and!; [done..| |constructor].
      by intros x ?%not_elem_of_nil.
    + destruct (draw_spec s q' (Z.to_nat 0)) as (Hlen & _); [lia|].
      simpl. apply nil_length_inv in Hlen. rewrite Hlen.
      exists []. simpl. split_and!; [done..| |constructor].
      by intros x ?%not_elem_of_nil.
  - pose proof outside_le_sum as Hsum.
    assert (0 < S) as HS by lia.
    pose proof (count_positive_outside HS) as Hcnt.
    rewrite (np_random_choice_feasible s pool _ _ q).
    + destruct (draw_spec s q (Z.to_nat (n_samples pos n)))
        as (Hlen & Hnd & Hall); [lia|].
      simpl. eexists. split_and!; [done| | |].
      * rewrite !length_fmap, Hlen. lia.
      * intros x (c & -> & (i & -> & Hi)%list_elem_of_fmap)%list_elem_of_fmap.
        rewrite Forall_forall in Hall.
        destruct (Hall i Hi) as (y & Hy & Hy0).
        destruct (q_positive_outside i y Hy Hy0) as (c & Hc & Hout).
        by rewrite (list_lookup_total_correct _ _ _ Hc).
      * apply NoDup_fmap_2; [apply _|].
        apply NoDup_lookup_total_fmap;
          [apply NoDup_item_id_to_choice|done|].
        eapply Forall_impl; [exact Hall|]. intros i (y & Hy & _).
        rewrite <- length_q. by eapply lookup_lt_Some.
    + unfold kept_probabilities. rewrite length_np_true_divide.
      unfold kept_weights, np_take. by rewrite length_fmap.
    + unfold kept_probabilities. apply np_true_divide_finite.
      fold S. lia.
    + by apply q_nonneg.
    + unfold q. apply Qsum_normalised. fold S. lia.
    + lia.
Qed.
End feasible.

Lemma length_distinct (pos : list Z) :
  length (distinct pos) = size (list_to_set (C:=gset Z) pos).
Proof.
  unfold distinct.
  rewrite <- (size_list_to_set (C:=gset Z) (remove_dups pos))
    by apply NoDup_remove_dups.
  f_equal. apply set_eq. intros x.
  by rewrite !elem_of_list_to_set, elem_of_remove_dups.
Qed.

(** C2. On a frequency array with every entry at least 1, for valid
    positives [P] and [neg_per_sample = n >= 0]: if the candidate pool left
    by the [freq_margin] cut-off holds at least [n * |distinct(P)|]
    positions outside [P], then [neg_choice] returns exactly
    [n * |distinct(P)|] item ids, none of them in [P] and no id twice;
    [|distinct(P)|] is the number of elements of [P] as a set. *)
Theorem neg_choice_feasible_draw :
  ∀ (N : Numpy) (NL : NumpyLaws N) (freq pos : list Z) (freq_margin : Q)
    (neg_per_sample : Z) (s : rng) (pool : list nat),
    Forall (λ w, 1 ≤ w) freq →
    valid_positives freq pos →
    0 ≤ neg_per_sample →
    candidate_pool freq pos freq_margin = Return pool →
    neg_per_sample * Z.of_nat (length (distinct pos))
      ≤ Z.of_nat (length (outside pos pool)) →
    ∃ negatives,
      (neg_choice freq pos freq_margin neg_per_sample s).1 = Return negatives ∧
      Z.of_nat (length negatives)
        = neg_per_sample * Z.of_nat (length (distinct pos)) ∧
      (∀ x, x ∈ negatives → x ∉ pos) ∧
      NoDup negatives ∧
      length (distinct pos) = size (list_to_set (C:=gset Z) pos).
Proof.
  intros N NL freq pos margin n s pool Hfreq Hvalid Hn Hpool Hfeasible.
  unfold candidate_pool in Hpool. rewrite np_setitem_zero in Hpool by done.
  injection Hpool as <-.
  enough (∃ negatives,
            (neg_choice freq pos margin n s).1 = Return negatives ∧
            Z.of_nat (length negatives) = n * Z.of_nat (length (distinct pos)) ∧
            (∀ x, x ∈ negatives → x ∉ pos) ∧ NoDup negatives)
    as (negatives & Hrun & Hlen & Hout & Hnd).
  { exists negatives. split_and!; [done..|]. apply length_distinct. }
  by apply neg_choice_feasible.
Qed.

(* The array of the specification's scenario, excluded ids [[1, 2]], one
   negative per positive, [freq_margin = 1.0]: the two candidates left are
   both drawn. *)
Lemma neg_choice_feasible_draw_witness :
  ∃ negatives,
    (neg_choice (N:=ref_numpy) [1; 2; 3; 1] [1; 2] 1 1 [1 # 3]%Q).1
      = Return negatives ∧
    Z.of_nat (length negatives) = 2 ∧
    (∀ x, x ∈ negatives → x ∉ [1; 2]) ∧ NoDup negatives.
Proof.
  destruct (neg_choice_feasible_draw ref_numpy ref_numpy_laws
              [1; 2; 3; 1] [1; 2] 1 1 [1 # 3]%Q [1; 2; 0; 3]%nat)
    as (negatives & Hrun & Hlen & Hout & Hnd & _).
  - repeat (constructor; [lia|]). constructor.
  - split; [done|]. repeat (constructor; [simpl; lia|]). constructor.
  - lia.
  - reflexivity.
  - vm_compute. discriminate.
  - exists negatives. split_and!; [exact Hrun|exact Hlen|exact Hout|exact Hnd].
Defined.

(** C10. There is an input on which the draw is infeasible and the list
    [neg_choice] falls back to holds an excluded id, twice: a catalogue of
    one item that is the user's positive, two negatives per positive. The
    sentinel [0] is that positive, so neither the exclusion nor the absence
    of repeats extends to the degraded output. *)
Theorem neg_choice_fallback_emits_positive :
  ∀ (N : Numpy) (NL : NumpyLaws N) (s : rng),
    ∃ (freq pos : list Z) (freq_margin : Q) (neg_per_sample : Z)
      (pool : list nat) (negatives : list Z),
      valid_positives freq pos ∧
      candidate_pool freq pos freq_margin = Return pool ∧
      Z.of_nat (length (outside pos pool))
        < neg_per_sample * Z.of_nat (length (distinct pos)) ∧
      neg_choice freq pos freq_margin neg_per_sample s = (Return negatives, s) ∧
      (∃ x, x ∈ negatives ∧ x ∈ pos) ∧
      ¬ NoDup negatives.
Proof.
  intros N NL s.
  assert (valid_positives [2] [0]) as Hvalid.
  { split; [done|]. constructor; [simpl; lia|constructor]. }
  set (pool := item_id_to_choice (zeroed [2] [0]) 1).
  assert (outside [0] pool = []) as Hout.
  { unfold outside. destruct (filter _ pool) as [|c l] eqn:Hf; [done|].
    assert (c ∈ filter (λ c, Z.of_nat c ∉ [0]) pool) as Hc
      by (rewrite Hf; apply list_elem_of_here).
    apply list_elem_of_filter in Hc as [Hc Hin].
    apply item_id_to_choice_lt in Hin. simpl in Hin.
    assert (c = 0%nat) as -> by lia. exfalso. apply Hc.
    apply list_elem_of_here. }
  exists [2], [0], 1%Q, 2, pool, [0; 0].
  split_and!.
  - done.
  - unfold candidate_pool. by rewrite np_setitem_zero.
  - rewrite Hout. reflexivity.
  - rewrite (neg_choice_fallback _ _ _ _ _ (zeroed [2] [0]));
      [done|by apply np_setitem_zero|].
    fold pool. rewrite Hout. reflexivity.
  - exists 0. split; apply list_elem_of_here.
  - intros Hnd. apply NoDup_cons in Hnd as [Hnd _]. apply Hnd.
    apply list_elem_of_here.
Qed.

(* The instance for the reference implementation, the generator tape
   untouched. *)
Lemma neg_choice_fallback_emits_positive_witness :
  ∃ (freq pos : list Z) (freq_margin : Q) (neg_per_sample : Z)
    (pool : list nat) (negatives : list Z),
    valid_positives freq pos ∧
    candidate_pool (N:=ref_numpy) freq pos freq_margin = Return pool ∧
    Z.of_nat (length (outside pos pool))
      < neg_per_sample * Z.of_nat (length (distinct pos)) ∧
    neg_choice (N:=ref_numpy) freq pos freq_margin neg_per_sample [1 # 3]%Q
      = (Return negatives, [1 # 3]%Q) ∧
    (∃ x, x ∈ negatives ∧ x ∈ pos) ∧
    ¬ NoDup negatives.
Proof.
  exact (neg_choice_fallback_emits_positive ref_numpy ref_numpy_laws [1 # 3]%Q).
Defined.

(** ** Top-k retrieval *)

Lemma torch_index_Return {A : Type} (w : list A) (i : Z) :
  0 ≤ i < Z.of_nat (length w) →
  ∃ row, w !! Z.to_nat i = Some row ∧ torch_index w i = Return row.
Proof.
  intros Hi. unfold torch_index, np_index. rewrite decide_True by done. simpl.
  destruct (lookup_lt_is_Some_2 w (Z.to_nat i)) as [row Hrow]; [lia|].
  exists row. by rewrite Hrow.
Qed.

Lemma torch_index_wrap {A : Type} (w : list A) (i : Z) :
  - Z.of_nat (length w) ≤ i < 0 →
  torch_index w i = torch_index w (Z.of_nat (length w) + i).
Proof.
  intros Hi. unfold torch_index, np_index.
  rewrite decide_False by lia. rewrite decide_True by lia.
  rewrite decide_True by lia. done.
Qed.

Lemma torch_index_out_of_range {A : Type} (w : list A) (i : Z) :
  ¬ (- Z.of_nat (length w) ≤ i < Z.of_nat (length w)) →
  torch_index w i = Raise IndexError.
Proof.
  intros Hi. unfold torch_index, np_index.
  rewrite decide_False by lia. rewrite decide_False by lia. done.
Qed.

Lemma torch_index_returns {A : Type} (w : list A) (i : Z) :
  - Z.of_nat (length w) ≤ i < Z.of_nat (length w) →
  ∃ row, torch_index w i = Return row.
Proof.
  intros Hi. unfold torch_index.
  destruct (np_index_Return _ _ Hi) as (j & -> & Hj). cbn [mbind result_bind].
  destruct (lookup_lt_is_Some_2 _ _ Hj) as [row ->]. by exists row.
Qed.

Section torch_row.
Context {T : Torch}.

Lemma torch_row_Return {A : Type} (w : list A) (i : Z) :
  0 ≤ i < Z.of_nat (length w) →
  ∃ row, w !! Z.to_nat i = Some row ∧ torch_row w i = Return row.
Proof.
  intros Hi. unfold torch_row.
  rewrite decide_True by (unfold unpacks; lia). by apply torch_index_Return.
Qed.

Lemma torch_row_wrap {A : Type} (w : list A) (i : Z) :
  - Z.of_nat (length w) ≤ i < 0 →
  torch_row w i = torch_row w (Z.of_nat (length w) + i).
Proof.
  intros Hi. unfold torch_row.
  rewrite !decide_True by (unfold unpacks; lia). by apply torch_index_wrap.
Qed.

Lemma torch_row_out_of_range {A : Type} (w : list A) (i : Z) :
  ¬ (- Z.of_nat (length w) ≤ i < Z.of_nat (length w)) →
  torch_row w i
  = if decide (int64 i) then Raise IndexError else Raise index_overflow.
Proof.
  intros Hi. unfold torch_row, unpacks. destruct (decide (int64 i)) as [H64|H64].
  - rewrite decide_True by (by left). by apply torch_index_out_of_range.
  - rewrite decide_False by (by intros [?|?]). done.
Qed.

Lemma torch_row_returns {A : Type} (w : list A) (i : Z) :
  - Z.of_nat (length w) ≤ i < Z.of_nat (length w) →
  ∃ row, torch_row w i = Return row.
Proof.
  intros Hi. unfold torch_row.
  rewrite decide_True by (unfold unpacks; lia). by apply torch_index_returns.
Qed.

End torch_row.

Section topk.
Context {T : Torch} {TL : TorchLaws T}.

Lemma torch_topk_spec v k :
  0 ≤ k ≤ Z.of_nat (length v) →
  ∃ ids, torch_topk v k = Return ids ∧ top_k_of v k ids.
Proof.
  intros Hk. unfold torch_topk. rewrite decide_True by done.
  destruct (topk_spec v (Z.to_nat k)) as (Hlen & Hnd & Hlt & Hs & Htop);
    [lia|].
  eexists. split; [done|]. exists (topk_indices v (Z.to_nat k)).
  split_and!; [done| | | |done..].
  - rewrite length_fmap, Hlen. lia.
  - apply Forall_fmap. eapply Forall_impl; [exact Hlt|]. simpl. lia.
  - apply NoDup_fmap_2; [apply _|done].
Qed.
End topk.

(** C7. For a user id [u] of [[0, users_size)] and [0 <= k <= items_size],
    [recommend_topk_by_user_ids([u], k)] returns one list of exactly [k]
    item ids, all in [[0, items_size)] and distinct, in descending order of
    the cosine similarity between row [u] of the user table and the item
    rows, no item left out scoring higher than one returned. The result is a
    function of the two tables, [u] and [k] alone. *)
Theorem recommend_topk_by_user_ids_spec :
  ∀ (T : Torch) (TL : TorchLaws T) (self : DualEncoderModel)
    (user_id top_k : Z),
    0 ≤ user_id < model_users_size self →
    0 ≤ top_k ≤ model_items_size self →
    ∃ (row : list scalar) (ids : list Z),
      user_embeddings self !! Z.to_nat user_id = Some row ∧
      recommend_topk_by_user_ids self [user_id] top_k = Return [ids] ∧
      Z.of_nat (length ids) = top_k ∧
      Forall (λ i, 0 ≤ i < model_items_size self) ids ∧
      NoDup ids ∧
      top_k_of (item_scores self row) top_k ids ∧
      item_scores self row = cosine_similarity row <$> item_embeddings self.
Proof.
  intros T TL self u k Hu Hk.
  destruct (torch_row_Return (user_embeddings self) u Hu) as (row & Hrow & Hrun).
  assert (length (item_scores self row) = length (item_embeddings self))
    as Hlen by (unfold item_scores, cs; by rewrite length_fmap).
  destruct (torch_topk_spec (item_scores self row) k) as (ids & Htop & Hids).
  { rewrite Hlen. exact Hk. }
  exists row, ids. split; [done|].
  split.
  { unfold recommend_topk_by_user_ids. simpl. rewrite Hrun. simpl.
    unfold item_scores in Htop. rewrite Htop. done. }
  pose proof Hids as (positions & _ & Hk' & Hrange & Hnd & _).
  split_and!; [done| |done..].
  unfold model_items_size. by rewrite <- Hlen.
Qed.

(* The second user of the two-by-two model: item 1 first, then item 0. *)
Lemma recommend_topk_by_user_ids_spec_witness :
  ∃ (row : list Q) (ids : list Z),
    user_embeddings two_by_two !! Z.to_nat 1 = Some row ∧
    recommend_topk_by_user_ids two_by_two [1] 2 = Return [ids] ∧
    Z.of_nat (length ids) = 2 ∧
    Forall (λ i, 0 ≤ i < model_items_size two_by_two) ids ∧
    NoDup ids ∧
    top_k_of (item_scores two_by_two row) 2 ids.
Proof.
  destruct (recommend_topk_by_user_ids_spec ref_torch ref_torch_laws
              two_by_two 1 2)
    as (row & ids & Hrow & Hrun & Hlen & Hrange & Hnd & Htop & _).
  - vm_compute. split; [discriminate|reflexivity].
  - vm_compute. split; discriminate.
  - exists row, ids.
    split_and!; [exact Hrow|exact Hrun|exact Hlen|exact Hrange|exact Hnd|
                 exact Htop].
Defined.

Lemma mapM_torch_index {A : Type} (w : list A) (ids : list Z) :
  Forall (λ i, 0 ≤ i < Z.of_nat (length w)) ids →
  ∃ rows, Forall2 (λ i row, w !! Z.to_nat i = Some row) ids rows ∧
          mapM (torch_index w) ids = Return rows.
Proof.
  induction 1 as [|i ids Hi _ (rows & Hrows & Hrun)].
  - exists []. split; [constructor|done].
  - destruct (torch_index_Return w i Hi) as (row & Hrow & Hrow').
    exists (row :: rows). split; [by constructor|].
    change (mapM (torch_index w) (i :: ids))
      with (y ← torch_index w i; k ← mapM (torch_index w) ids; Return (y :: k)).
    rewrite Hrow'. simpl. rewrite Hrun. done.
Qed.

Lemma torch_rows_Return {T : Torch} {A : Type} (w : list A) (ids : list Z) :
  Forall (λ i, 0 ≤ i < Z.of_nat (length w)) ids →
  ∃ rows, Forall2 (λ i row, w !! Z.to_nat i = Some row) ids rows ∧
          torch_rows w ids = Return rows.
Proof.
  intros Hrange. unfold torch_rows. rewrite decide_True.
  - by apply mapM_torch_index.
  - eapply Forall_impl; [exact Hrange|]. intros i Hi.
    unfold unpacks. cbn beta in Hi. lia.
Qed.

(** C8. For a non-empty list of item ids of [[0, items_size)] and
    [0 <= k <= items_size], [recommend_topk_by_item_ids(item_ids, k)] takes
    the rows of the given items, in the order given, their mean over
    [dim=0] as the query vector, and returns exactly [k] distinct item ids of
    [[0, items_size)] in descending order of the cosine similarity of the
    item rows to that mean: the guarantees of the known-user path. *)
Theorem recommend_topk_by_item_ids_spec :
  ∀ (T : Torch) (TL : TorchLaws T) (self : DualEncoderModel)
    (item_ids : list Z) (top_k : Z),
    item_ids ≠ [] →
    Forall (λ i, 0 ≤ i < model_items_size self) item_ids →
    0 ≤ top_k ≤ model_items_size self →
    ∃ (rows : list (list scalar)) (ids : list Z),
      Forall2 (λ i row, item_embeddings self !! Z.to_nat i = Some row)
              item_ids rows ∧
      recommend_topk_by_item_ids self item_ids top_k = Return ids ∧
      Z.of_nat (length ids) = top_k ∧
      Forall (λ i, 0 ≤ i < model_items_size self) ids ∧
      NoDup ids ∧
      top_k_of (item_scores self (mean_dim0 rows)) top_k ids ∧
      item_scores self (mean_dim0 rows)
      = cosine_similarity (mean_dim0 rows) <$> item_embeddings self.
Proof.
  intros T TL self item_ids k _ Hrange Hk.
  destruct (torch_rows_Return (item_embeddings self) item_ids Hrange)
    as (rows & Hrows & Hrun).
  assert (length (item_scores self (mean_dim0 rows))
          = length (item_embeddings self))
    as Hlen by (unfold item_scores, cs; by rewrite length_fmap).
  destruct (torch_topk_spec (item_scores self (mean_dim0 rows)) k)
    as (ids & Htop & Hids).
  { rewrite Hlen. exact Hk. }
  exists rows, ids. split; [done|].
  split.
  { unfold recommend_topk_by_item_ids. rewrite Hrun. simpl.
    unfold item_scores in Htop. by rewrite Htop. }
  pose proof Hids as (positions & _ & Hk' & Hrange' & Hnd & _).
  split_and!; [done| |done..].
  unfold model_items_size. by rewrite <- Hlen.
Qed.

(* Both items of the two-by-two model as the history, the best item
   asked for. *)
Lemma recommend_topk_by_item_ids_spec_witness :
  ∃ (rows : list (list Q)) (ids : list Z),
    Forall2 (λ i row, item_embeddings two_by_two !! Z.to_nat i = Some row)
            [0; 1] rows ∧
    recommend_topk_by_item_ids two_by_two [0; 1] 1 = Return ids ∧
    Z.of_nat (length ids) = 1 ∧
    Forall (λ i, 0 ≤ i < model_items_size two_by_two) ids ∧
    NoDup ids ∧
    top_k_of (item_scores two_by_two (ref_mean_dim0 rows)) 1 ids.
Proof.
  destruct (recommend_topk_by_item_ids_spec ref_torch ref_torch_laws
              two_by_two [0; 1] 1)
    as (rows & ids & Hrows & Hrun & Hlen & Hrange & Hnd & Htop & _).
  - discriminate.
  - repeat (constructor; [vm_compute; split; [discriminate|reflexivity]|]).
    constructor.
  - vm_compute. split; discriminate.
  - exists rows, ids.
    split_and!; [exact Hrows|exact Hrun|exact Hlen|exact Hrange|exact Hnd|
                 exact Htop].
Defined.

(** C9 (as amended). A user id [u] with [u >= users_size] or
    [u < -users_size] makes [recommend_topk_by_user_ids] fail, whatever
    [top_k] is: with an [IndexError] when [u] fits int64, and with the error
    PyTorch raises for an integer it cannot unpack when [u] does not. A
    negative id of [[-users_size, 0)] is not refused: it is read as row
    [users_size + u] and the call returns what it returns for that user. *)
Theorem recommend_topk_by_user_ids_out_of_range :
  ∀ (T : Torch) (self : DualEncoderModel) (user_id top_k : Z),
    (¬ (- model_users_size self ≤ user_id < model_users_size self) →
     (int64 user_id →
      recommend_topk_by_user_ids self [user_id] top_k = Raise IndexError) ∧
     (¬ int64 user_id →
      recommend_topk_by_user_ids self [user_id] top_k = Raise index_overflow))
    ∧ (- model_users_size self ≤ user_id < 0 →
       recommend_topk_by_user_ids self [user_id] top_k
       = recommend_topk_by_user_ids self [model_users_size self + user_id]
                                    top_k).
Proof.
  intros T self u k. unfold recommend_topk_by_user_ids, model_users_size.
  split; intros Hu; cbn [py_for].
  - rewrite torch_row_out_of_range by done.
    split; intros H64; [by rewrite decide_True|by rewrite decide_False].
  - by rewrite torch_row_wrap.
Qed.

(* Two users: id 2 is refused, id -1 is user 1. *)
Lemma recommend_topk_by_user_ids_out_of_range_witness :
  recommend_topk_by_user_ids two_by_two [2] 1 = Raise IndexError ∧
  recommend_topk_by_user_ids two_by_two [-1] 1
  = recommend_topk_by_user_ids two_by_two [model_users_size two_by_two + -1] 1.
Proof.
  split.
  - apply (proj1 (recommend_topk_by_user_ids_out_of_range
                    ref_torch two_by_two 2 1)).
    + vm_compute. intros [_ H]. discriminate H.
    + unfold int64. lia.
  - apply (proj2 (recommend_topk_by_user_ids_out_of_range
                    ref_torch two_by_two (-1) 1)).
    vm_compute. split; [discriminate|reflexivity].
Defined.

(** C9 fails as stated: with two users, the id [-1] is outside
    [[0, users_size)] and the call returns the recommendation of user 1. *)
Lemma recommend_topk_by_user_ids_negative_id :
  ¬ (0 ≤ -1 < model_users_size two_by_two) ∧
  recommend_topk_by_user_ids two_by_two [-1] 1 = Return [[1]] ∧
  recommend_topk_by_user_ids two_by_two [1] 1 = Return [[1]].
Proof.
  split; [|split; reflexivity].
  unfold not. intros [H _]. by vm_compute in H.
Qed.

(** ** [split]: what repeats from one call to the next *)

Section repeat.
Context {N : Numpy} {NL : NumpyLaws N}.

(** Whether [neg_choice] raises, and how many ids it returns, does not
    depend on the generator. *)
Lemma neg_choice_length freq pos margin n s :
  result_rel (λ l (_ : list Z), length l = Z.to_nat (n_samples pos n))
    (neg_choice freq pos margin n s).1
    (np_setitem freq (distinct pos) 0).
Proof.
  unfold neg_choice.
  destruct (np_setitem freq (distinct pos) 0) as [z|e]; [|done].
  fold (n_samples pos n).
  destruct (np_random_choice_outcome s (item_id_to_choice z margin)
              (n_samples pos n)
              (np_true_divide (np_take z (item_id_to_choice z margin))
                 (np_sum (np_take z (item_id_to_choice z margin)))))
    as [->|(q & _ & Hcnt & ->)]; simpl.
  - by rewrite length_replicate.
  - destruct (draw_spec s q (Z.to_nat (n_samples pos n))) as (Hlen & _);
      [lia|].
    by rewrite !length_fmap.
Qed.

Lemma neg_choice_same_shape freq pos margin n s1 s2 :
  result_rel (λ l1 l2 : list Z, length l1 = length l2)
    (neg_choice freq pos margin n s1).1
    (neg_choice freq pos margin n s2).1.
Proof.
  pose proof (neg_choice_length freq pos margin n s1) as H1.
  pose proof (neg_choice_length freq pos margin n s2) as H2.
  destruct (np_setitem freq (distinct pos) 0),
    (neg_choice freq pos margin n s1).1,
    (neg_choice freq pos margin n s2).1; simpl in *; try done; congruence.
Qed.

Lemma pool_map_result_rel {A B : Type} (P : B → B → Prop)
    (f : A → rng → result B * rng) (l : list A) :
  (∀ x s1 s2, result_rel P (f x s1).1 (f x s2).1) →
  ∀ s1 s2,
    result_rel (Forall2 P) (pool_map f l s1).1 (pool_map f l s2).1.
Proof.
  intros Hf. induction l as [|x l IH]; intros s1 s2; simpl.
  - constructor.
  - specialize (Hf x s1 s2).
    destruct (f x s1) as [r1 t1], (f x s2) as [r2 t2].
    specialize (IH t1 t2).
    destruct (pool_map f l t1) as [rs1 u1], (pool_map f l t2) as [rs2 u2].
    simpl in *.
    destruct r1 as [y1|e1], r2 as [y2|e2]; simpl in *; try done.
    destruct rs1 as [ys1|e1], rs2 as [ys2|e2]; simpl in *; try done.
    by constructor.
Qed.

Lemma make_negative_samples_same_shape self margin n s1 s2 :
  result_rel (Forall2 same_but_negatives)
    (make_negative_samples self margin n s1).1
    (make_negative_samples self margin n s2).1.
Proof.
  unfold make_negative_samples.
  destruct (make_pos_distributions self (interactions self))
    as [[freq pos_interactions]|e]; [|done].
  apply pool_map_result_rel. intros [u pos] t1 t2. simpl.
  pose proof (neg_choice_same_shape freq pos margin n t1 t2) as H.
  destruct (neg_choice freq pos margin n t1) as [r1 ?],
    (neg_choice freq pos margin n t2) as [r2 ?]. simpl in *.
  by destruct r1, r2.
Qed.
End repeat.

Lemma user_examples_same_slots u ps ns1 : ∀ ns2,
  length ns1 = length ns2 →
  Forall2 same_slot (user_examples u ps ns1) (user_examples u ps ns2).
Proof.
  revert ps. induction ns1 as [|n1 ns1 IH]; intros ps [|n2 ns2] Hlen;
    try done; destruct ps as [|p ps]; simpl; try constructor.
  - done.
  - constructor; [done|]. apply IH. by injection Hlen.
Qed.

Lemma create_dataset_concat l :
  create_dataset l = concat ((λ '(u, ps, ns), user_examples u ps ns) <$> l).
Proof. unfold create_dataset. by rewrite create_dataset_foldl. Qed.

Lemma create_dataset_same_slots l1 l2 :
  Forall2 same_but_negatives l1 l2 →
  Forall2 same_slot (create_dataset l1) (create_dataset l2).
Proof.
  rewrite !create_dataset_concat.
  induction 1 as [|[[u1 p1] n1] [[u2 p2] n2] l1 l2 (Hu & Hp & Hn) _ IH];
    simpl; [constructor|].
  simpl in Hu, Hp, Hn. subst u2 p2.
  apply Forall2_app; [|done]. by apply user_examples_same_slots.
Qed.

Lemma omap_lookup_same_slots (d1 d2 : list example) (idx : list nat) :
  Forall2 same_slot d1 d2 →
  Forall2 same_slot (omap (λ i, d1 !! i) idx) (omap (λ i, d2 !! i) idx).
Proof.
  intros Hd. induction idx as [|i idx IH]; simpl; [constructor|].
  rewrite Forall2_lookup in Hd. specialize (Hd i).
  destruct Hd as [e1 e2 He|]; simpl; [by constructor|done].
Qed.

Lemma train_eval_split_same_slots {T : Torch} (d1 d2 : list example) :
  Forall2 same_slot d1 d2 →
  same_slots (train_eval_split {| data := d1 |})
             (train_eval_split {| data := d2 |}).
Proof.
  intros Hd. unfold train_eval_split, random_split. simpl.
  rewrite <- (Forall2_length _ _ _ Hd).
  destruct (random_split_lengths (length d1)) as [l0 l1].
  split; simpl; by apply omap_lookup_same_slots.
Qed.

(** C1 (as amended). Two calls of [split] on the same inputs, whatever the
    state of NumPy's global generator at each call, either raise the same
    exception or return train/eval partitions that agree slot by slot: the
    same sizes, and at every position the same user id, the same label and,
    for a positive example, the same item id. Only the item ids of the
    negative examples are left to the generator, which [split] neither
    seeds nor resets. *)
Theorem split_repeats_up_to_negatives :
  ∀ (N : Numpy) (NL : NumpyLaws N) (T : Torch) (self : DualEncoderDatasets)
    (freq_margin : Q) (neg_per_sample : Z) (s1 s2 : rng),
    result_rel same_slots
      (split self freq_margin neg_per_sample s1).1
      (split self freq_margin neg_per_sample s2).1.
Proof.
  intros N NL T self margin n s1 s2. unfold split.
  pose proof (make_negative_samples_same_shape self margin n s1 s2) as H.
  destruct (make_negative_samples self margin n s1) as [r1 ?],
    (make_negative_samples self margin n s2) as [r2 ?]. simpl in *.
  destruct r1 as [l1|e1], r2 as [l2|e2]; simpl in *; try done.
  by apply train_eval_split_same_slots, create_dataset_same_slots.
Qed.

(* Two calls in a row on the one-user data set, the second from the
   generator state the first one left. *)
Lemma split_repeats_up_to_negatives_witness :
  result_rel same_slots
    (split (N:=ref_numpy) (T:=ref_torch) one_user 1 1 [0; 3 # 4]%Q).1
    (split (N:=ref_numpy) (T:=ref_torch) one_user 1 1 [3 # 4]%Q).1.
Proof.
  exact (split_repeats_up_to_negatives ref_numpy ref_numpy_laws ref_torch
           one_user 1 1 [0; 3 # 4]%Q [3 # 4]%Q).
Defined.

(** C1 fails as stated: on the one-user data set, a first call of [split]
    leaves the generator in the state the second call starts from, and the
    two calls return different negatives (item 2, then item 1). *)
Lemma split_twice_differs :
  let first := split (N:=ref_numpy) (T:=ref_torch) one_user 1 1 [0; 3 # 4]%Q in
  let second := split (N:=ref_numpy) (T:=ref_torch) one_user 1 1 first.2 in
  first.1 = Return {| train_dataset := [(0, 0, 1); (0, 2, -1)];
                       eval_dataset := [] |} ∧
  second.1 = Return {| train_dataset := [(0, 0, 1); (0, 1, -1)];
                        eval_dataset := [] |} ∧
  first.1 ≠ second.1.
Proof.
  vm_compute. split_and!; [reflexivity..|]. intros H. discriminate H.
Qed.

(** * Further properties *)

(** ** The constructor and [make_pos_distributions] *)

Lemma py_max_id_spec l m :
  py_max_id l = Return m →
  Forall (λ x, x.1 ≤ m) l ∧ m ∈ l.*1.
Proof.
  destruct l as [|x l]; [done|]. simpl. intros [= <-].
  assert (∀ l' m0, Forall (λ y : Z * string, y.1 ≤
            foldl (λ m y, if decide (m < y.1) then y.1 else m) m0 l') l'
          ∧ m0 ≤ foldl (λ m y, if decide (m < y.1) then y.1 else m) m0 l'
          ∧ (foldl (λ m y, if decide (m < y.1) then y.1 else m) m0 l' = m0
             ∨ foldl (λ m y, if decide (m < y.1) then y.1 else m) m0 l'
               ∈ l'.*1)) as Hfold.
  { induction l' as [|y l' IH]; intros m0; simpl.
    - split_and!; [constructor|lia|by left].
    - destruct (IH (if decide (m0 < y.1) then y.1 else m0))
        as (Hall & Hge & Hin).
      split_and!.
      + constructor; [|done]. destruct (decide (m0 < y.1)); lia.
      + destruct (decide (m0 < y.1)); lia.
      + destruct Hin as [->|Hin].
        * destruct (decide (m0 < y.1)); [right; apply list_elem_of_here|by left].
        * right. by apply list_elem_of_further. }
  destruct (Hfold l x.1) as (Hall & Hge & Hin). split.
  - by constructor.
  - destruct Hin as [->|Hin]; [apply list_elem_of_here|].
    by apply list_elem_of_further.
Qed.

(** X1. The constructor raises [ValueError] exactly when the user table or
    the item table is empty. Otherwise it keeps the three lists as given,
    and [users_size] / [items_size] are one more than the largest id of the
    table: every id of the table is below the size, and the size minus one
    is an id of the table. *)
Theorem DualEncoderDatasets_init_spec :
  ∀ (inter : list (Z * Z)) (us its : list (Z * string)),
    (us = [] ∨ its = [] →
     DualEncoderDatasets_init inter us its = Raise ValueError)
    ∧ (us ≠ [] → its ≠ [] →
       ∃ self, DualEncoderDatasets_init inter us its = Return self ∧
         interactions self = inter ∧ users self = us ∧ items self = its ∧
         Forall (λ x, x.1 < users_size self) us ∧
         users_size self - 1 ∈ us.*1 ∧
         Forall (λ x, x.1 < items_size self) its ∧
         items_size self - 1 ∈ its.*1).
Proof.
  intros inter us its. split.
  - intros [-> | ->]; [reflexivity|]. unfold DualEncoderDatasets_init.
    destruct us; reflexivity.
  - intros Hus Hits. unfold DualEncoderDatasets_init.
    destruct (py_max_id us) as [mu|e] eqn:Hmu; [|by destruct us].
    destruct (py_max_id its) as [mi|e] eqn:Hmi; [|by destruct its].
    destruct (py_max_id_spec _ _ Hmu) as [Hu1 Hu2].
    destruct (py_max_id_spec _ _ Hmi) as [Hi1 Hi2].
    eexists. split; [done|]. unfold users_size, items_size. simpl.
    split_and!; try done.
    + eapply Forall_impl; [exact Hu1|]. simpl. lia.
    + by replace (mu + 1 - 1) with mu by lia.
    + eapply Forall_impl; [exact Hi1|]. simpl. lia.
    + by replace (mi + 1 - 1) with mi by lia.
Qed.

(* Two users and three items. *)
Lemma DualEncoderDatasets_init_spec_witness :
  ∃ self,
    DualEncoderDatasets_init [(0, 2)] [(0, "u"); (1, "v")]
      [(2, "c"); (0, "a"); (1, "b")] = Return self ∧
    users_size self = 2 ∧ items_size self = 3.
Proof.
  destruct (proj2 (DualEncoderDatasets_init_spec [(0, 2)]
              [(0, "u"); (1, "v")] [(2, "c"); (0, "a"); (1, "b")]))
    as (self & Hrun & _); [discriminate..|].
  exists self. split; [exact Hrun|].
  vm_compute in Hrun. injection Hrun as <-. split; reflexivity.
Defined.

Lemma occurrences_cons k u i rest :
  occurrences k ((u, i) :: rest)
  = ((if decide (i = k) then 1 else 0) + occurrences k rest)%nat.
Proof.
  unfold occurrences. rewrite filter_cons. simpl.
  by destruct (decide (i = k)).
Qed.

Lemma make_pos_distributions_body_eq u i freq pos :
  make_pos_distributions_body (u, i) (freq, pos)
  = (k ← np_index (length freq) i;
     Return (<[k := freq !!! k + 1]> freq,
             dict_set pos u (default [] (dict_get pos u) ++ [i]))).
Proof. reflexivity. Qed.

Lemma make_pos_distributions_loop_counts rest : ∀ freq pos freq' pos',
  Forall (λ ui, 0 ≤ ui.2 < Z.of_nat (length freq)) rest →
  py_for make_pos_distributions_body rest (freq, pos) = Return (freq', pos') →
  length freq' = length freq ∧
  ∀ k, (k < length freq)%nat →
       freq' !!! k = freq !!! k + Z.of_nat (occurrences (Z.of_nat k) rest).
Proof.
  induction rest as [|[u i] rest IH]; intros freq pos freq' pos' Hrange.
  - simpl. intros [= <- <-]. split; [done|]. intros k _.
    unfold occurrences. simpl. lia.
  - apply Forall_cons in Hrange as [Hi Hrange]. simpl in Hi.
    cbn [py_for]. rewrite make_pos_distributions_body_eq. unfold np_index.
    rewrite decide_True by done. simpl.
    set (freq1 := <[Z.to_nat i:=freq !!! Z.to_nat i + 1]> freq).
    assert (length freq1 = length freq) as Hlen1 by apply length_insert.
    intros Hrun. apply IH in Hrun as [Hlen Hcnt]; [|by rewrite Hlen1].
    split; [congruence|]. intros k Hk.
    rewrite Hcnt by lia. rewrite occurrences_cons. unfold freq1.
    destruct (decide (Z.to_nat i = k)) as [<-|Hne].
    + rewrite list_lookup_total_insert_eq by lia.
      rewrite decide_True by lia. lia.
    + rewrite list_lookup_total_insert_ne by done.
      rewrite decide_False by lia. lia.
Qed.

(** X2. When every interaction is on an item id of [[0, items_size)],
    entry [i] of the frequency array is one plus the number of interactions
    on item [i] (each repeated pair counted). *)
Theorem make_pos_distributions_counts :
  ∀ (self : DualEncoderDatasets) (inter : list (Z * Z)),
    Forall (λ ui, 0 ≤ ui.2 < items_size self) inter →
    0 ≤ items_size self →
    ∃ freq_dist pos_interactions,
      make_pos_distributions self inter = Return (freq_dist, pos_interactions) ∧
      ∀ i, 0 ≤ i < items_size self →
           freq_dist !! Z.to_nat i = Some (1 + Z.of_nat (occurrences i inter)).
Proof.
  intros self inter Hrange Hsize. unfold make_pos_distributions, np_ones.
  rewrite decide_False by lia. simpl.
  set (freq := replicate (Z.to_nat (items_size self)) 1).
  assert (Z.of_nat (length freq) = items_size self) as Hlen
    by (subst freq; rewrite length_replicate; lia).
  destruct (make_pos_distributions_loop inter [] freq)
    as (freq' & Hrun & Hlen' & _).
  { rewrite Hlen. eapply Forall_impl; [exact Hrange|]. simpl. lia. }
  { subst freq. apply Forall_replicate. lia. }
  change (pos_table []) with (@nil (Z * list Z)) in Hrun.
  exists freq', (pos_table ([] ++ inter)). split; [done|]. intros i Hi.
  apply make_pos_distributions_loop_counts in Hrun as [_ Hcnt];
    [|by rewrite Hlen].
  specialize (Hcnt (Z.to_nat i)). rewrite Z2Nat.id in Hcnt by lia.
  assert (freq !!! Z.to_nat i = 1) as H1
    by (subst freq; apply lookup_total_replicate_2; lia).
  rewrite H1 in Hcnt. rewrite <- Hcnt by lia.
  apply list_lookup_lookup_total_lt. lia.
Qed.

(* Item 2 of the four-item data set has two interactions. *)
Lemma make_pos_distributions_counts_witness :
  ∃ freq_dist pos_interactions,
    make_pos_distributions four_items (interactions four_items)
      = Return (freq_dist, pos_interactions) ∧
    freq_dist !! 2%nat = Some 3.
Proof.
  destruct (make_pos_distributions_counts four_items (interactions four_items))
    as (freq & pos & Hrun & Hcnt).
  - repeat (constructor; [vm_compute; split; [discriminate|reflexivity]|]).
    constructor.
  - vm_compute. discriminate.
  - exists freq, pos. split; [exact Hrun|].
    apply (Hcnt 2). vm_compute. split; [discriminate|reflexivity].
Defined.

Lemma make_pos_distributions_loop_raise rest : ∀ freq pos,
  Exists (λ ui, ¬ (- Z.of_nat (length freq) ≤ ui.2 < Z.of_nat (length freq)))
         rest →
  py_for make_pos_distributions_body rest (freq, pos) = Raise IndexError.
Proof.
  induction rest as [|[u i] rest IH]; intros freq pos Hbad.
  - by apply Exists_nil in Hbad.
  - cbn [py_for]. rewrite make_pos_distributions_body_eq. unfold np_index.
    destruct (decide (0 ≤ i < Z.of_nat (length freq))) as [Hi|Hi];
      [|destruct (decide (- Z.of_nat (length freq) ≤ i < 0)) as [Hi'|Hi']].
    + simpl. apply IH. rewrite length_insert.
      apply Exists_cons in Hbad as [Hbad|Hbad]; [simpl in Hbad; lia|done].
    + simpl. apply IH. rewrite length_insert.
      apply Exists_cons in Hbad as [Hbad|Hbad]; [simpl in Hbad; lia|done].
    + done.
Qed.

(** X3. An interaction on an item id outside [[-items_size, items_size)]
    makes [make_pos_distributions] raise [IndexError], whatever comes
    before or after it in the list; [make_negative_samples] and [split] then
    raise the same error before any negative is drawn, the generator left as
    it was. A negative [items_size] is a [ValueError] of [np.ones]. *)
Theorem make_pos_distributions_out_of_range :
  ∀ (N : Numpy) (T : Torch) (self : DualEncoderDatasets)
    (freq_margin : Q) (neg_per_sample : Z) (s : rng),
    (items_size self < 0 →
     make_pos_distributions self (interactions self) = Raise ValueError)
    ∧ (0 ≤ items_size self →
       Exists (λ ui, ¬ (- items_size self ≤ ui.2 < items_size self))
              (interactions self) →
       make_pos_distributions self (interactions self) = Raise IndexError ∧
       make_negative_samples self freq_margin neg_per_sample s
         = (Raise IndexError, s) ∧
       split self freq_margin neg_per_sample s = (Raise IndexError, s)).
Proof.
  intros N T self margin n s. split.
  - intros Hneg. unfold make_pos_distributions, np_ones.
    by rewrite decide_True.
  - intros Hsize Hbad.
    assert (make_pos_distributions self (interactions self) = Raise IndexError)
      as Hraise.
    { unfold make_pos_distributions, np_ones.
      rewrite decide_False by lia. simpl.
      apply make_pos_distributions_loop_raise.
      rewrite length_replicate, Z2Nat.id by done. exact Hbad. }
    split; [done|].
    assert (make_negative_samples self margin n s = (Raise IndexError, s))
      as Hneg by (unfold make_negative_samples; by rewrite Hraise).
    split; [done|]. unfold split. by rewrite Hneg.
Qed.

(* The one-user data set with its interaction moved to item 3, of a
   catalogue of three. *)
Lemma make_pos_distributions_out_of_range_witness :
  let self := {| interactions := [(0, 3)]; users := users one_user;
                 items := items one_user; _users_size := 1;
                 _items_size := 3 |} in
  split (N:=ref_numpy) (T:=ref_torch) self 1 1 [1 # 3]%Q
  = (Raise IndexError, [1 # 3]%Q).
Proof.
  intros self.
  apply (proj2 (make_pos_distributions_out_of_range ref_numpy ref_torch
                  self 1 1 [1 # 3]%Q)).
  - vm_compute. discriminate.
  - constructor. vm_compute. intros [_ H]. discriminate H.
Defined.

(** X4. A data set the constructor accepts, whose item ids are not negative
    and whose interactions are all on items of the item table, never makes
    [make_pos_distributions] raise: the frequency array it returns has one
    entry per id up to the largest id of the table. *)
Theorem make_pos_distributions_after_init :
  ∀ (inter : list (Z * Z)) (us its : list (Z * string))
    (self : DualEncoderDatasets),
    DualEncoderDatasets_init inter us its = Return self →
    Forall (λ x, 0 ≤ x.1) its →
    Forall (λ ui, ui.2 ∈ its.*1) inter →
    ∃ freq_dist pos_interactions,
      make_pos_distributions self (interactions self)
        = Return (freq_dist, pos_interactions) ∧
      Z.of_nat (length freq_dist) = items_size self ∧
      Forall (λ x, x.1 < Z.of_nat (length freq_dist)) its.
Proof.
  intros inter us its self Hinit Hnonneg Hknown.
  unfold DualEncoderDatasets_init in Hinit.
  destruct (py_max_id us) as [mu|e] eqn:Hmu; [|done].
  destruct (py_max_id its) as [mi|e] eqn:Hmi; [|done].
  simpl in Hinit. injection Hinit as <-.
  destruct (py_max_id_spec _ _ Hmi) as [Hle Hin].
  assert (0 ≤ mi) as Hmi0.
  { apply list_elem_of_fmap in Hin as (x & -> & Hx).
    rewrite Forall_forall in Hnonneg. by apply Hnonneg. }
  unfold make_pos_distributions, items_size, np_ones. simpl.
  rewrite decide_False by lia. simpl.
  set (freq := replicate (Z.to_nat (mi + 1)) 1).
  assert (Z.of_nat (length freq) = mi + 1) as Hlen
    by (subst freq; rewrite length_replicate; lia).
  destruct (make_pos_distributions_loop inter [] freq)
    as (freq' & Hrun & Hlen' & _).
  { rewrite Hlen. apply Forall_forall. intros [u i] Hui. simpl.
    rewrite Forall_forall in Hknown. specialize (Hknown _ Hui). simpl in Hknown.
    apply list_elem_of_fmap in Hknown as (x & -> & Hx).
    rewrite Forall_forall in Hnonneg, Hle.
    specialize (Hnonneg _ Hx). specialize (Hle _ Hx). simpl in *. lia. }
  { subst freq. apply Forall_replicate. lia. }
  change (pos_table []) with (@nil (Z * list Z)) in Hrun.
  eexists _, _. split; [exact Hrun|]. split; [congruence|].
  eapply Forall_impl; [exact Hle|]. simpl. intros x Hx. lia.
Qed.

(* The four-item scenario through the constructor. *)
Lemma make_pos_distributions_after_init_witness :
  ∃ freq_dist pos_interactions,
    make_pos_distributions four_items (interactions four_items)
      = Return (freq_dist, pos_interactions) ∧
    Z.of_nat (length freq_dist) = items_size four_items ∧
    Forall (λ x, x.1 < Z.of_nat (length freq_dist)) (items four_items).
Proof.
  apply (make_pos_distributions_after_init (interactions four_items)
           (users four_items) (items four_items) four_items).
  - reflexivity.
  - repeat (constructor; [vm_compute; discriminate|]). constructor.
  - repeat (constructor; [vm_compute; set_solver|]). constructor.
Defined.

(** ** [make_negative_samples] and the data set [split] assembles *)





















(** ** The train/eval partition *)

Lemma random_split_lengths_spec n :
  random_split_lengths n = ((n - n `div` 20)%nat, (n `div` 20)%nat).
Proof.
  unfold random_split_lengths.
  assert (Qfloor (inject_Z (Z.of_nat n) * (95 # 100)) = Z.of_nat n * 95 / 100)
    as -> by reflexivity.
  assert (Qfloor (inject_Z (Z.of_nat n) * (5 # 100)) = Z.of_nat n * 5 / 100)
    as -> by reflexivity.
  pose proof (Nat2Z.inj_div n 20) as Hdiv. simpl in Hdiv.
  set (a := Z.of_nat n * 95 / 100). set (b := Z.of_nat n * 5 / 100).
  assert (b = Z.of_nat n / 20) as Hb
    by (subst b; Z.div_mod_to_equations; lia).
  assert (0 ≤ a) as Ha by (subst a; Z.div_mod_to_equations; lia).
  assert (Z.of_nat n - (a + b) = 0 ∨ Z.of_nat n - (a + b) = 1) as [Hr|Hr]
    by (subst a b; Z.div_mod_to_equations; lia).
  - rewrite Hr. simpl. f_equal; lia.
  - rewrite Hr. simpl. f_equal; lia.
Qed.

Lemma omap_lookup_seq {A : Type} (l : list A) : ∀ pre,
  omap (λ i, (pre ++ l) !! i) (seq (length pre) (length l)) = l.
Proof.
  induction l as [|x l IH]; intros pre; [done|].
  simpl. rewrite list_lookup_middle by done. f_equal.
  specialize (IH (pre ++ [x])). rewrite length_app in IH. simpl in IH.
  rewrite Nat.add_1_r, <- app_assoc in IH. exact IH.
Qed.

Lemma length_omap_lookup {A : Type} (d : list A) (idx : list nat) :
  Forall (λ i, (i < length d)%nat) idx →
  length (omap (λ i, d !! i) idx) = length idx.
Proof.
  induction 1 as [|i idx Hi _ IH]; [done|]. simpl.
  destruct (lookup_lt_is_Some_2 d i Hi) as [x ->]. simpl. by f_equal.
Qed.

(** X8. [__train_eval_split] cuts the data set in two without losing or
    repeating an example: the train and eval parts together are a
    permutation of the data set, the eval part holds [floor(n / 20)]
    examples and the train part the other [n - floor(n / 20)]. *)
Theorem train_eval_split_partition :
  ∀ (T : Torch) (TL : TorchLaws T) (dataset : ListDataset),
    let n := length (data dataset) in
    let sp := train_eval_split dataset in
    train_dataset sp ++ eval_dataset sp ≡ₚ data dataset ∧
    length (eval_dataset sp) = (n `div` 20)%nat ∧
    length (train_dataset sp) = (n - n `div` 20)%nat.
Proof.
  intros T TL [d] n sp. subst n sp. unfold train_eval_split, random_split.
  cbn [data]. rewrite random_split_lengths_spec.
  set (n := length d). set (l1 := (n `div` 20)%nat). set (l0 := (n - l1)%nat).
  assert (l1 ≤ n)%nat as Hl1 by (subst l1; apply Nat.Div0.div_le_upper_bound; lia).
  assert (l0 + l1 = n)%nat as Hsum by lia.
  rewrite Hsum. pose proof (randperm_perm 42 n) as Hperm.
  set (idx := randperm 42 n) in *.
  assert (length idx = n) as Hlen by (by rewrite Hperm, length_seq).
  assert (Forall (λ i, (i < length d)%nat) idx) as Hlt.
  { apply Forall_forall. intros i Hi. rewrite Hperm in Hi.
    apply elem_of_seq in Hi. subst n. lia. }
  cbn [train_dataset eval_dataset]. split_and!.
  - rewrite <- omap_app, (take_ge (drop l0 idx)) by (rewrite length_drop; lia).
    rewrite take_drop, Hperm. subst n.
    pose proof (omap_lookup_seq d []) as Hall. simpl in Hall.
    by rewrite Hall.
  - rewrite length_omap_lookup.
    + rewrite length_take, length_drop. lia.
    + apply Forall_take, Forall_drop, Hlt.
  - rewrite length_omap_lookup.
    + rewrite length_take. lia.
    + apply Forall_take, Hlt.
Qed.

(* Forty-one identical examples: two go to the eval part. *)
Lemma train_eval_split_partition_witness :
  let sp := train_eval_split (T:=ref_torch) {| data := replicate 41 (0, 0, 1) |} in
  train_dataset sp ++ eval_dataset sp ≡ₚ replicate 41 (0, 0, 1) ∧
  length (eval_dataset sp) = 2%nat ∧
  length (train_dataset sp) = 39%nat.
Proof.
  exact (train_eval_split_partition ref_torch ref_torch_laws
           {| data := replicate 41 (0, 0, 1) |}).
Defined.

(** ** [neg_choice]: when it raises, what it returns *)

Lemma mapM_np_index_raise len (idx : list Z) :
  Exists (λ i, ¬ (- Z.of_nat len ≤ i < Z.of_nat len)) idx →
  mapM (np_index len) idx = Raise IndexError.
Proof.
  induction idx as [|i idx IH]; intros Hbad.
  - by apply Exists_nil in Hbad.
  - change (mapM (np_index len) (i :: idx))
      with (y ← np_index len i; k ← mapM (np_index len) idx; Return (y :: k)).
    destruct (decide (- Z.of_nat len ≤ i < Z.of_nat len)) as [Hi|Hi].
    + destruct (np_index_Return len i Hi) as (k & -> & _).
      rewrite IH; [done|].
      apply Exists_cons in Hbad as [Hbad|Hbad]; [done|done].
    + unfold np_index. rewrite !decide_False by lia. done.
Qed.







Lemma np_setitem_nonempty a idx v z :
  np_setitem a idx v = Return z → (0 < length a)%nat.
Proof.
  unfold np_setitem. destruct (decide (idx = [])) as [|Hne]; [done|].
  destruct idx as [|i idx]; [done|].
  destruct (decide (- Z.of_nat (length a) ≤ i < Z.of_nat (length a)))
    as [Hi|Hi]; [intros _; lia|].
  rewrite mapM_np_index_raise; [done|]. by constructor.
Qed.

(** X10. [neg_choice] never returns an id outside the catalogue: whenever
    it returns, drawn list or fallback, every id is in [[0, len)] for [len]
    the length of the frequency array. *)
Theorem neg_choice_ids_in_catalogue :
  ∀ (N : Numpy) (NL : NumpyLaws N) (freq pos : list Z) (freq_margin : Q)
    (neg_per_sample : Z) (s : rng) (negatives : list Z),
    (neg_choice freq pos freq_margin neg_per_sample s).1 = Return negatives →
    Forall (λ x, 0 ≤ x < Z.of_nat (length freq)) negatives.
Proof.
  intros N NL freq pos margin n s l. unfold neg_choice.
  destruct (np_setitem freq (distinct pos) 0) as [z|e] eqn:Hz; [|done].
  pose proof (np_setitem_nonempty _ _ _ _ Hz) as Hpos.
  apply np_setitem_Return in Hz as [Hlen _].
  fold (n_samples pos n). fold (kept_weights z margin).
  fold (kept_probabilities z margin).
  destruct (np_random_choice_outcome s (item_id_to_choice z margin)
              (n_samples pos n) (kept_probabilities z margin))
    as [->|(q & Hq & Hcnt & ->)]; simpl.
  - intros [= <-]. apply Forall_replicate. lia.
  - intros [= <-].
    destruct (draw_spec s q (Z.to_nat (n_samples pos n))) as (_ & _ & Hall);
      [lia|].
    apply Forall_fmap, Forall_fmap. eapply Forall_impl; [exact Hall|].
    intros i (x & Hx & _). simpl.
    assert (i < length (item_id_to_choice z margin))%nat as Hi.
    { apply lookup_lt_Some in Hx.
      apply mapM_Some_1, Forall2_length in Hq. rewrite <- Hq in Hx.
      unfold kept_probabilities in Hx.
      rewrite length_np_true_divide in Hx. unfold kept_weights, np_take in Hx.
      by rewrite length_fmap in Hx. }
    destruct (lookup_lt_is_Some_2 _ _ Hi) as [c Hc].
    rewrite (list_lookup_total_correct _ _ _ Hc).
    apply list_elem_of_lookup_2, item_id_to_choice_lt in Hc. lia.
Qed.

(* The feasible draw on the four-item array. *)
Lemma neg_choice_ids_in_catalogue_witness :
  Forall (λ x, 0 ≤ x < 4) [0; 3].
Proof.
  apply (neg_choice_ids_in_catalogue ref_numpy ref_numpy_laws
           [1; 2; 3; 1] [1; 2] 1 1 [1 # 3]%Q [0; 3]).
  reflexivity.
Defined.

Lemma zeroed_ext freq freq' pos pos' :
  length freq = length freq' →
  (∀ k, Z.of_nat k ∉ pos → freq !! k = freq' !! k) →
  (∀ x, x ∈ pos ↔ x ∈ pos') →
  zeroed freq pos = zeroed freq' pos'.
Proof.
  intros Hlen Hout Hsame. apply list_eq. intros k. unfold zeroed.
  rewrite !list_lookup_imap.
  destruct (freq !! k) as [w|] eqn:Hw, (freq' !! k) as [w'|] eqn:Hw'; simpl.
  - f_equal.
    destruct (decide (Z.of_nat k ∈ pos)) as [Hin|Hin],
      (decide (Z.of_nat k ∈ pos')) as [Hin'|Hin']; try done.
    + by apply Hsame in Hin.
    + by apply Hsame in Hin'.
    + specialize (Hout k Hin). congruence.
  - apply lookup_lt_Some in Hw. apply lookup_ge_None in Hw'. lia.
  - apply lookup_lt_Some in Hw'. apply lookup_ge_None in Hw. lia.
  - done.
Qed.

(** X11. The popularity of a user's own positives has no influence on the
    user's negatives: two frequency arrays of the same length that agree on
    every item outside the positives give the same result, and leave the
    generator in the same state. *)
Theorem neg_choice_ignores_positive_weights :
  ∀ (N : Numpy) (freq freq' pos : list Z) (freq_margin : Q)
    (neg_per_sample : Z) (s : rng),
    valid_positives freq pos →
    length freq = length freq' →
    (∀ k, Z.of_nat k ∉ pos → freq !! k = freq' !! k) →
    neg_choice freq pos freq_margin neg_per_sample s
    = neg_choice freq' pos freq_margin neg_per_sample s.
Proof.
  intros N freq freq' pos margin n s Hvalid Hlen Hout.
  assert (valid_positives freq' pos) as Hvalid'
    by (destruct Hvalid; split; [done|by rewrite <- Hlen]).
  rewrite (neg_choice_unfold freq _ _ _ _ (zeroed freq pos))
    by (by apply np_setitem_zero).
  rewrite (neg_choice_unfold freq' _ _ _ _ (zeroed freq' pos))
    by (by apply np_setitem_zero).
  by rewrite (zeroed_ext freq freq' pos pos Hlen Hout).
Qed.

(* The weights of the positives 1 and 2 raised from 2 and 3 to 50 and 70. *)
Lemma neg_choice_ignores_positive_weights_witness :
  neg_choice (N:=ref_numpy) [1; 2; 3; 1] [1; 2] 1 1 [1 # 3]%Q
  = neg_choice (N:=ref_numpy) [1; 50; 70; 1] [1; 2] 1 1 [1 # 3]%Q.
Proof.
  apply (neg_choice_ignores_positive_weights ref_numpy
           [1; 2; 3; 1] [1; 50; 70; 1] [1; 2] 1 1 [1 # 3]%Q).
  - split; [done|]. repeat (constructor; [simpl; lia|]). constructor.
  - reflexivity.
  - intros [|[|[|[|k]]]] Hk; try reflexivity.
    + exfalso. apply Hk. apply list_elem_of_here.
    + exfalso. apply Hk. apply list_elem_of_further, list_elem_of_here.
Defined.

(** X12. Only the set of positives matters: two lists of positives with the
    same elements, in whatever order and with whatever repeats, give the
    same result and leave the generator in the same state. *)
Theorem neg_choice_positives_as_set :
  ∀ (N : Numpy) (freq pos pos' : list Z) (freq_margin : Q)
    (neg_per_sample : Z) (s : rng),
    valid_positives freq pos →
    (∀ x, x ∈ pos ↔ x ∈ pos') →
    neg_choice freq pos freq_margin neg_per_sample s
    = neg_choice freq pos' freq_margin neg_per_sample s.
Proof.
  intros N freq pos pos' margin n s Hvalid Hsame.
  assert (valid_positives freq pos') as Hvalid'.
  { destruct Hvalid as [Hne Hrange]. split.
    - destruct pos as [|x pos]; [done|]. intros ->.
      by apply (not_elem_of_nil x), Hsame, list_elem_of_here.
    - apply Forall_forall. intros x Hx%Hsame.
      rewrite Forall_forall in Hrange. by apply Hrange. }
  rewrite (neg_choice_unfold freq pos _ _ _ (zeroed freq pos))
    by (by apply np_setitem_zero).
  rewrite (neg_choice_unfold freq pos' _ _ _ (zeroed freq pos'))
    by (by apply np_setitem_zero).
  rewrite <- (zeroed_ext freq freq pos pos') by done.
  assert (n_samples pos n = n_samples pos' n) as ->; [|done].
  unfold n_samples. do 2 f_equal. apply Permutation_length.
  apply NoDup_Permutation; [apply NoDup_remove_dups..|].
  intros x. unfold distinct. by rewrite !elem_of_remove_dups.
Qed.

(* [[2, 1, 2]] against [[1, 2]]. *)
Lemma neg_choice_positives_as_set_witness :
  neg_choice (N:=ref_numpy) [1; 2; 3; 1] [2; 1; 2] 1 1 [1 # 3]%Q
  = neg_choice (N:=ref_numpy) [1; 2; 3; 1] [1; 2] 1 1 [1 # 3]%Q.
Proof.
  apply (neg_choice_positives_as_set ref_numpy
           [1; 2; 3; 1] [2; 1; 2] [1; 2] 1 1 [1 # 3]%Q).
  - split; [done|]. repeat (constructor; [simpl; lia|]). constructor.
  - intros x. rewrite !elem_of_cons. pose proof (not_elem_of_nil x). tauto.
Defined.

(** X13. When [int(len * freq_margin)] is [0], or at least [len], the
    cut-off cuts nothing: the slice [[-0:]] is the whole array, so the
    candidate pool holds every position of the catalogue, the positives
    included (with weight zero). *)
Theorem candidate_pool_keeps_everything :
  ∀ (N : Numpy) (NL : NumpyLaws N) (freq pos : list Z) (freq_margin : Q),
    valid_positives freq pos →
    freq_margin_num (length freq) freq_margin = 0 ∨
    Z.of_nat (length freq) ≤ freq_margin_num (length freq) freq_margin →
    ∃ pool,
      candidate_pool freq pos freq_margin = Return pool ∧
      pool ≡ₚ seq 0 (length freq).
Proof.
  intros N NL freq pos margin Hvalid Hk.
  exists (argsort (zeroed freq pos)). split.
  - unfold candidate_pool. rewrite np_setitem_zero by done. simpl. f_equal.
    unfold item_id_to_choice, py_slice_from.
    rewrite length_zeroed, length_argsort, length_zeroed.
    destruct Hk as [-> | Hk].
    + rewrite decide_False by lia. done.
    + destruct (decide (- freq_margin_num (length freq) margin < 0)).
      * replace (Z.to_nat _) with 0%nat by lia. done.
      * replace (Z.to_nat _) with 0%nat by lia. done.
  - by rewrite argsort_perm, length_zeroed.
Qed.

(* Four items and the default [freq_margin = 0.15]. *)
Lemma candidate_pool_keeps_everything_witness :
  ∃ pool,
    candidate_pool (N:=ref_numpy) [1; 2; 3; 4] [0] (15 # 100) = Return pool ∧
    pool ≡ₚ seq 0 4.
Proof.
  apply (candidate_pool_keeps_everything ref_numpy ref_numpy_laws
           [1; 2; 3; 4] [0] (15 # 100)).
  - split; [done|]. constructor; [simpl; lia|constructor].
  - left. reflexivity.
Defined.

(** ** Retrieval for several users, and its errors *)

Section recommend.
Context {T : Torch}.

Lemma recommend_topk_by_user_ids_acc (self : DualEncoderModel) top_k user_ids :
  ∀ acc,
    py_for (λ user_id recommended_item_ids,
              row ← torch_row (user_embeddings self) user_id;
              ids ← torch_topk (cs row (item_embeddings self)) top_k;
              Return (recommended_item_ids ++ [ids]))
           user_ids acc
    = (λ rs, acc ++ rs) <$> recommend_topk_by_user_ids self user_ids top_k.
Proof.
  unfold recommend_topk_by_user_ids.
  induction user_ids as [|u us IH]; intros acc.
  - simpl. by rewrite app_nil_r.
  - cbn [py_for].
    destruct (torch_row (user_embeddings self) u) as [row|e]; [|reflexivity].
    cbn [mbind result_bind].
    destruct (torch_topk (cs row (item_embeddings self)) top_k) as [ids|e];
      [|reflexivity].
    cbn [mbind result_bind]. rewrite (IH (acc ++ [ids])), (IH ([] ++ [ids])).
    destruct (py_for _ us []) as [rs|e]; [|reflexivity]. simpl.
    by rewrite <- app_assoc.
Qed.

Lemma recommend_topk_by_user_ids_cons (self : DualEncoderModel) top_k u us :
  recommend_topk_by_user_ids self (u :: us) top_k
  = (r ← recommend_topk_by_user_ids self [u] top_k;
     rs ← recommend_topk_by_user_ids self us top_k;
     Return (r ++ rs)).
Proof.
  pose proof (recommend_topk_by_user_ids_acc self top_k us) as Hacc.
  unfold recommend_topk_by_user_ids in *. cbn [py_for].
  destruct (torch_row (user_embeddings self) u) as [row|e]; [|reflexivity].
  cbn [mbind result_bind].
  destruct (torch_topk (cs row (item_embeddings self)) top_k) as [ids|e];
    [|reflexivity].
  cbn [mbind result_bind]. rewrite (Hacc ([] ++ [ids])).
  by destruct (py_for _ us []).
Qed.
End recommend.

(** X14. A call for several users answers each user as a call for that user
    alone would: [recommend_topk_by_user_ids(user_ids, k)] returns the list
    [rs] exactly when, for every position, the call on the single id
    [user_ids[i]] returns [[rs[i]]]; in particular the result has one entry
    per requested id, in the order of the request, and one id that fails
    makes the whole call fail. *)
Theorem recommend_topk_by_user_ids_batch :
  ∀ (T : Torch) (self : DualEncoderModel) (user_ids : list Z) (top_k : Z)
    (rs : list (list Z)),
    recommend_topk_by_user_ids self user_ids top_k = Return rs ↔
    Forall2 (λ u r, recommend_topk_by_user_ids self [u] top_k = Return [r])
            user_ids rs.
Proof.
  intros T self us k. induction us as [|u us IH]; intros rs.
  - split.
    + intros [= <-]. constructor.
    + intros Hnil. apply Forall2_nil_inv_l in Hnil as ->. done.
  - rewrite recommend_topk_by_user_ids_cons. split.
    + destruct (recommend_topk_by_user_ids self [u] k) as [r|e] eqn:Hr;
        [|by cbn [mbind result_bind]].
      cbn [mbind result_bind].
      destruct (recommend_topk_by_user_ids self us k) as [rs'|e] eqn:Hrs;
        [|by cbn [mbind result_bind]].
      cbn [mbind result_bind mret result_ret]. intros [= <-].
      assert (∃ r0, r = [r0]) as [r0 ->].
      { unfold recommend_topk_by_user_ids in Hr. cbn [py_for] in Hr.
        destruct (torch_row (user_embeddings self) u) as [row|];
          [|by cbn [mbind result_bind] in Hr].
        cbn [mbind result_bind] in Hr.
        destruct (torch_topk (cs row (item_embeddings self)) k) as [ids|];
          [|by cbn [mbind result_bind] in Hr].
        injection Hr as <-. by eexists. }
      constructor; [done|]. by apply IH.
    + intros Hall. apply Forall2_cons_inv_l in Hall as (r & rs' & Hr & Hall & ->).
      rewrite Hr. cbn [mbind result_bind].
      apply IH in Hall. rewrite Hall. done.
Qed.

(* The two users of the two-by-two model, asked together: each gets the
   item of their own axis. *)
Lemma recommend_topk_by_user_ids_batch_witness :
  Forall2 (λ u r, recommend_topk_by_user_ids two_by_two [u] 1 = Return [r])
          [1; 0] [[1]; [0]].
Proof.
  apply (proj1 (recommend_topk_by_user_ids_batch ref_torch two_by_two
                  [1; 0] 1 [[1]; [0]])).
  reflexivity.
Defined.

(** X15. [top_k] is checked by [torch.topk] only, once per user: with
    [top_k] outside [[0, items_size]], a call for a non-empty list of user
    ids whose first id is valid raises, and so does the cold-start call on
    valid item ids: a [RuntimeError] when [top_k] fits int64, and the error
    PyTorch raises for a [k] it cannot unpack otherwise. A call for no user
    at all returns the empty list, whatever [top_k]. *)
Theorem recommend_top_k_out_of_range :
  ∀ (T : Torch) (self : DualEncoderModel) (top_k : Z),
    ¬ (0 ≤ top_k ≤ model_items_size self) →
    (∀ user_id user_ids,
       - model_users_size self ≤ user_id < model_users_size self →
       recommend_topk_by_user_ids self (user_id :: user_ids) top_k
       = if decide (int64 top_k) then Raise RuntimeError
         else Raise topk_overflow)
    ∧ (∀ item_ids,
         Forall (λ i, 0 ≤ i < model_items_size self) item_ids →
         recommend_topk_by_item_ids self item_ids top_k
         = if decide (int64 top_k) then Raise RuntimeError
           else Raise topk_overflow)
    ∧ recommend_topk_by_user_ids self [] top_k = Return [].
Proof.
  intros T self k Hk.
  assert (∀ query, torch_topk (cs query (item_embeddings self)) k
                   = if decide (int64 k) then Raise RuntimeError
                     else Raise topk_overflow) as Htop.
  { intros query. unfold torch_topk, cs. rewrite length_fmap.
    by rewrite decide_False. }
  split_and!.
  - intros u us Hu. unfold recommend_topk_by_user_ids. cbn [py_for].
    destruct (torch_row_returns (user_embeddings self) u Hu) as [row ->].
    cbn [mbind result_bind]. rewrite Htop. by destruct (decide (int64 k)).
  - intros item_ids Hrange. unfold recommend_topk_by_item_ids.
    destruct (torch_rows_Return _ _ Hrange) as (rows & _ & ->).
    cbn [mbind result_bind]. apply Htop.
  - done.
Qed.

(* Three items asked of a model with two. *)
Lemma recommend_top_k_out_of_range_witness :
  recommend_topk_by_user_ids two_by_two [0; 1] 3 = Raise RuntimeError.
Proof.
  apply (proj1 (recommend_top_k_out_of_range ref_torch two_by_two 3
                  ltac:(vm_compute; intros [_ H]; by apply H)) 0 [1]).
  vm_compute. split; [discriminate|reflexivity].
Defined.

Lemma mapM_torch_index_raise {A : Type} (w : list A) (ids : list Z) :
  Exists (λ i, ¬ (- Z.of_nat (length w) ≤ i < Z.of_nat (length w))) ids →
  mapM (torch_index w) ids = Raise IndexError.
Proof.
  induction ids as [|i ids IH]; intros Hbad.
  - by apply Exists_nil in Hbad.
  - change (mapM (torch_index w) (i :: ids))
      with (y ← torch_index w i; k ← mapM (torch_index w) ids; Return (y :: k)).
    destruct (decide (- Z.of_nat (length w) ≤ i < Z.of_nat (length w)))
      as [Hi|Hi].
    + destruct (torch_index_returns w i Hi) as [row ->].
      cbn [mbind result_bind]. rewrite IH; [done|].
      by apply Exists_cons in Hbad as [Hbad|Hbad].
    + by rewrite torch_index_out_of_range.
Qed.

Lemma mapM_torch_index_wrap {A : Type} (w : list A) (i : Z) before after :
  - Z.of_nat (length w) ≤ i < 0 →
  mapM (torch_index w) (before ++ i :: after)
  = mapM (torch_index w) (before ++ (Z.of_nat (length w) + i) :: after).
Proof.
  intros Hi. induction before as [|b before IH].
  - simpl app.
    change (mapM ?f (?x :: ?l)) with (y ← f x; k ← mapM f l; Return (y :: k)).
    by rewrite torch_index_wrap.
  - simpl app.
    change (mapM ?f (?x :: ?l)) with (y ← f x; k ← mapM f l; Return (y :: k)).
    by rewrite IH.
Qed.

(** X16. The cold-start call checks the item ids before anything else,
    whatever [top_k] is. The list is turned into an int64 tensor first: an
    id that is outside [[-items_size, items_size)] and does not fit int64,
    anywhere in the list, raises the error PyTorch has for that. When
    every id fits int64, an id outside [[-items_size, items_size)] anywhere
    in the list raises [IndexError]. A negative id within the range is read
    from the end of the table, so writing [items_size + i] for it gives the
    same answer. *)
Theorem recommend_topk_by_item_ids_ids :
  ∀ (T : Torch) (self : DualEncoderModel) (top_k : Z) (before after : list Z)
    (item_id : Z),
    (¬ (- model_items_size self ≤ item_id < model_items_size self) →
     (Forall int64 (before ++ item_id :: after) →
      recommend_topk_by_item_ids self (before ++ item_id :: after) top_k
      = Raise IndexError) ∧
     (¬ int64 item_id →
      recommend_topk_by_item_ids self (before ++ item_id :: after) top_k
      = Raise tensor_overflow))
    ∧ (- model_items_size self ≤ item_id < 0 →
       recommend_topk_by_item_ids self (before ++ item_id :: after) top_k
       = recommend_topk_by_item_ids self
           (before ++ (model_items_size self + item_id) :: after) top_k).
Proof.
  intros T self k before after i.
  unfold recommend_topk_by_item_ids, torch_rows, model_items_size. split.
  - intros Hi. split.
    + intros H64. rewrite decide_True.
      * rewrite mapM_torch_index_raise; [done|].
        apply Exists_app. right. by constructor.
      * eapply Forall_impl; [exact H64|]. intros j Hj. by left.
    + intros H64. rewrite decide_False; [done|].
      intros Hall. apply Forall_app in Hall as [_ Hall].
      apply Forall_cons in Hall as [[?|?] _]; done.
  - intros Hi.
    rewrite (mapM_torch_index_wrap _ _ before after Hi).
    destruct (decide (Forall _ (before ++ i :: after))) as [Hall|Hall].
    + rewrite decide_True; [done|].
      apply Forall_app in Hall as [Hb Ha]. apply Forall_cons in Ha as [_ Ha].
      apply Forall_app. split; [done|]. constructor; [|done].
      unfold unpacks. lia.
    + rewrite decide_False; [done|]. intros Hall'. apply Hall.
      apply Forall_app in Hall' as [Hb Ha]. apply Forall_cons in Ha as [_ Ha].
      apply Forall_app. split; [done|]. constructor; [|done].
      unfold unpacks. lia.
Qed.

(* Item 5 of a table of two; item -1 is item 1. *)
Lemma recommend_topk_by_item_ids_ids_witness :
  recommend_topk_by_item_ids two_by_two ([0] ++ 5 :: [1]) 1 = Raise IndexError
  ∧ recommend_topk_by_item_ids two_by_two ([0] ++ -1 :: []) 1
    = recommend_topk_by_item_ids two_by_two
        ([0] ++ (model_items_size two_by_two + -1) :: []) 1.
Proof.
  split.
  - apply (proj1 (recommend_topk_by_item_ids_ids ref_torch two_by_two 1
                    [0] [1] 5)).
    + vm_compute. intros [_ H]. discriminate H.
    + repeat constructor; unfold int64; lia.
  - apply (proj2 (recommend_topk_by_item_ids_ids ref_torch two_by_two 1
                    [0] [] (-1))).
    vm_compute. split; [discriminate|reflexivity].
Defined.

(** ** [ListDataset] and the collator *)

Lemma ListDataset_getitem_lookup (d : list example) (i : nat) (e : example) :
  d !! i = Some e → ListDataset_getitem {| data := d |} (Z.of_nat i) = Return e.
Proof.
  intros Hi. pose proof (lookup_lt_Some _ _ _ Hi) as Hlt.
  unfold ListDataset_getitem, np_index. cbn [data].
  rewrite decide_True by lia. cbn [mbind result_bind].
  by rewrite Nat2Z.id, Hi.
Qed.

Lemma ListDataset_getitems_seq (d : list example) : ∀ pre,
  mapM (ListDataset_getitem {| data := pre ++ d |})
       (Z.of_nat <$> seq (length pre) (length d))
  = Return d.
Proof.
  induction d as [|x d IH]; intros pre; [done|].
  cbn [length seq]. rewrite fmap_cons.
  change (mapM ?f (?x :: ?l)) with (y ← f x; k ← mapM f l; Return (y :: k)).
  rewrite (ListDataset_getitem_lookup _ _ x) by (by apply list_lookup_middle).
  cbn [mbind result_bind].
  specialize (IH (pre ++ [x])). rewrite length_app in IH. simpl in IH.
  rewrite Nat.add_1_r, <- app_assoc in IH. simpl in IH. by rewrite IH.
Qed.

(** X17. Reading a [ListDataset]: an index [i] of [[0, len)] returns
    [data[i]] and so does [i - len]; an index outside [[-len, len)] raises
    [IndexError]; and [__getitems__] on the indices [0 .. len-1] returns the
    whole data, in order. *)
Theorem ListDataset_getitems_all :
  ∀ (self : ListDataset),
    (∀ (i : nat) (e : example),
       data self !! i = Some e →
       ListDataset_getitem self (Z.of_nat i) = Return e ∧
       ListDataset_getitem self (Z.of_nat i - ListDataset_len self) = Return e)
    ∧ (∀ idx, ¬ (- ListDataset_len self ≤ idx < ListDataset_len self) →
              ListDataset_getitem self idx = Raise IndexError)
    ∧ ListDataset_getitems self (Z.of_nat <$> seq 0 (length (data self)))
      = Return (data self).
Proof.
  intros [d]. split_and!.
  - intros i e Hi. split; [by apply ListDataset_getitem_lookup|].
    pose proof (lookup_lt_Some _ _ _ Hi) as Hlt. cbn [data] in *.
    unfold ListDataset_getitem, ListDataset_len, np_index. cbn [data].
    rewrite decide_False by lia. rewrite decide_True by lia.
    cbn [mbind result_bind].
    replace (Z.to_nat (Z.of_nat (length d) + (Z.of_nat i - Z.of_nat (length d))))
      with i by lia.
    by rewrite Hi.
  - intros idx Hidx. unfold ListDataset_getitem, ListDataset_len, np_index in *.
    cbn [data] in *. rewrite !decide_False by lia. done.
  - apply (ListDataset_getitems_seq d []).
Qed.

(* The second of two examples, by its index and by its index from the
   end. *)
Lemma ListDataset_getitems_all_witness :
  ListDataset_getitem {| data := [(0, 1, 1); (0, 3, -1)] |} 1
    = Return (0, 3, -1)
  ∧ ListDataset_getitem {| data := [(0, 1, 1); (0, 3, -1)] |} (-1)
    = Return (0, 3, -1).
Proof.
  exact (proj1 (ListDataset_getitems_all {| data := [(0, 1, 1); (0, 3, -1)] |})
               1%nat (0, 3, -1) eq_refl).
Defined.

Lemma distinct_size_foldl (d : list example) : ∀ acc : gset Z,
  foldl (λ (res : gset Z) '(u, i, l), res ∪ {[u]} ∪ {[i]} ∪ {[l]}) acc d
  = acc ∪ list_to_set (concat ((λ e : example, [e.1.1; e.1.2; e.2]) <$> d)).
Proof.
  induction d as [|[[u i] l] d IH]; intros acc.
  - cbn [foldl]. rewrite fmap_nil. cbn [concat list_to_set].
    by rewrite (right_id_L ∅ (∪)).
  - cbn [foldl]. rewrite IH, fmap_cons, concat_cons, list_to_set_app_L.
    cbn [fst snd app list_to_set].
    by rewrite (right_id_L ∅ (∪)), !(assoc_L (∪)).
Qed.

Lemma size_list_to_set_le (flat : list Z) :
  (size (list_to_set (C:=gset Z) flat) ≤ length flat)%nat.
Proof.
  induction flat as [|x flat IH]; [done|].
  cbn [list_to_set length].
  pose proof (size_union_alt (C:=gset Z) {[x]} (list_to_set flat)) as Hsize.
  pose proof (subseteq_size (C:=gset Z)
                (list_to_set flat ∖ {[x]}) (list_to_set flat)
                (subseteq_difference_l _ _ _ (reflexivity _))) as Hsub.
  rewrite size_singleton in Hsize. lia.
Qed.

(** X18. [distinct_size] does not count examples: it is the number of
    distinct integers found anywhere in the triples, user ids, item ids and
    labels taken together, hence at most three times the number of
    examples, and [0] for an empty data set only. *)
Theorem distinct_size_spec :
  ∀ (self : ListDataset),
    distinct_size self
    = size (list_to_set (C:=gset Z)
              (concat ((λ e : example, [e.1.1; e.1.2; e.2]) <$> data self)))
    ∧ (distinct_size self ≤ 3 * length (data self))%nat
    ∧ (distinct_size self = 0%nat ↔ data self = []).
Proof.
  intros [d]. unfold distinct_size. cbn [data].
  rewrite distinct_size_foldl, (left_id_L ∅ (∪)).
  set (flat := concat ((λ e : example, [e.1.1; e.1.2; e.2]) <$> d)).
  assert (length flat = 3 * length d)%nat as Hlen.
  { subst flat. induction d as [|e d IH]; [done|].
    rewrite fmap_cons, concat_cons, length_app, IH. cbn [length]. lia. }
  split_and!; [done| |].
  - rewrite <- Hlen. apply size_list_to_set_le.
  - split; [|by intros ->].
    intros Hsize. apply size_empty_inv in Hsize.
    destruct d as [|[[u i] l] d]; [done|]. exfalso.
    apply (not_elem_of_empty (C:=gset Z) u). rewrite <- Hsize.
    apply elem_of_list_to_set. subst flat.
    rewrite fmap_cons, concat_cons. apply elem_of_app. left. cbn [fst snd]. apply elem_of_cons. by left.
Qed.

(** X19. [DataCollatorForList]: an empty batch raises [IndexError] (its
    tensor has one dimension only); a batch of examples that fit int64
    gives three columns with one row per example, in the order of the
    batch, the two id columns one entry wide, and the batch can be read
    back from them. *)
Theorem DataCollatorForList_call_columns :
  ∀ (T : Torch) (batch : list example),
    Forall (λ e : example, int64 e.1.1 ∧ int64 e.1.2 ∧ int64 e.2) batch →
    (batch = [] → DataCollatorForList_call batch = Raise IndexError) ∧
    (batch ≠ [] →
     ∃ c, DataCollatorForList_call batch = Return c ∧
          Forall (λ row, length row = 1%nat) (col_user_ids c) ∧
          Forall (λ row, length row = 1%nat) (col_item_ids c) ∧
          zip (zip (concat (col_user_ids c)) (concat (col_item_ids c)))
              (col_labels c) = batch).
Proof.
  intros T batch Hfit. unfold DataCollatorForList_call.
  rewrite decide_True by done. split; [by intros ->|].
  intros Hne. destruct batch as [|e0 batch0] eqn:Hbatch; [done|].
  rewrite <- Hbatch. clear Hne Hfit Hbatch e0 batch0.
  eexists. split; [done|]. cbn [col_user_ids col_item_ids col_labels].
  split_and!.
  - apply Forall_fmap. by apply Forall_true.
  - apply Forall_fmap. by apply Forall_true.
  - induction batch as [|[[u i] l] batch IH]; [done|].
    rewrite !fmap_cons, !concat_cons. cbn [fst snd app zip zip_with].
    by rewrite IH.
Qed.

(* A batch of two examples. *)
Lemma DataCollatorForList_call_columns_witness :
  ∃ c, DataCollatorForList_call (T:=ref_torch) [(0, 1, 1); (0, 3, -1)]
         = Return c ∧
       Forall (λ row, length row = 1%nat) (col_user_ids c) ∧
       Forall (λ row, length row = 1%nat) (col_item_ids c) ∧
       zip (zip (concat (col_user_ids c)) (concat (col_item_ids c)))
           (col_labels c) = [(0, 1, 1); (0, 3, -1)].
Proof.
  refine (proj2 (DataCollatorForList_call_columns ref_torch
                   [(0, 1, 1); (0, 3, -1)] _) _).
  - repeat constructor; cbn [fst snd]; unfold int64; lia.
  - done.
Defined.

(** ** The loaders of [DualEncoderLoadData] *)


Lemma mapM_result_fmap {A B C : Type} (f : B → result C) (g : A → B) l :
  mapM f (g <$> l) = mapM (f ∘ g) l.
Proof.
  induction l as [|x l IH]; [done|].
  rewrite fmap_cons.
  change (mapM ?f (?x :: ?l)) with (y ← f x; k ← mapM f l; Return (y :: k)).
  by rewrite IH.
Qed.

Lemma mapM_result_ext {A B : Type} (f g : A → result B) l :
  Forall (λ x, f x = g x) l → mapM f l = mapM g l.
Proof.
  induction 1 as [|x l Hx _ IH]; [done|].
  change (mapM ?f (?x :: ?l)) with (y ← f x; k ← mapM f l; Return (y :: k)).
  by rewrite Hx, IH.
Qed.

Lemma py_lstrip_blank_app (pre s : str) :
  blank pre → py_lstrip (pre ++ s) = py_lstrip s.
Proof.
  induction 1 as [|c pre Hc _ IH]; [done|].
  cbn [app py_lstrip]. by rewrite Hc.
Qed.

Lemma py_lstrip_head (s : str) c :
  head s = Some c → isspace c = false → py_lstrip s = s.
Proof.
  destruct s as [|c' s]; [done|]. intros [= ->] Hc.
  cbn [py_lstrip]. by rewrite Hc.
Qed.

Lemma blank_reverse (s : str) : blank s → blank (reverse s).
Proof. unfold blank. by rewrite Forall_reverse. Qed.

Lemma py_strip_trimmed (pre s post : str) :
  blank pre → blank post → trimmed s → py_strip (pre ++ s ++ post) = s.
Proof.
  intros Hpre Hpost [(c & Hc & Hcs) (c' & Hc' & Hcs')]. unfold py_strip.
  rewrite py_lstrip_blank_app by done.
  rewrite (py_lstrip_head (s ++ post) c).
  - rewrite reverse_app, py_lstrip_blank_app by by apply blank_reverse.
    rewrite (py_lstrip_head (reverse s) c'); [by rewrite reverse_involutive| |done].
    by rewrite head_reverse.
  - destruct s; [done|]. done.
  - done.
Qed.

Lemma py_strip_id (s : str) : trimmed s → py_strip s = s.
Proof.
  intros Hs.
  pose proof (py_strip_trimmed [] s [] (Forall_nil_2 _) (Forall_nil_2 _) Hs) as E.
  by rewrite app_nil_r in E.
Qed.

Lemma py_strip_blank (s : str) : blank s → py_strip s = [].
Proof.
  intros Hs. unfold py_strip.
  assert (py_lstrip s = []) as ->; [|done].
  induction Hs as [|c s Hc _ IH]; [done|]. cbn [py_lstrip]. by rewrite Hc.
Qed.

Lemma py_split_go_nonempty sep : ∀ s skip, py_split_go sep skip s ≠ [].
Proof.
  induction s as [|c s IH]; intros skip; [done|].
  cbn [py_split_go]. destruct skip as [|k]; [|apply IH].
  destruct (decide _); [done|]. by destruct (py_split_go sep 0 s).
Qed.

Lemma py_split_go_skip sep (l : str) : ∀ s,
  py_split_go sep (length l) (l ++ s) = py_split_go sep 0 s.
Proof. induction l as [|c l IH]; intros s; [done|]. apply IH. Qed.

Lemma py_split_go_field sep (f s : str) :
  sep ≠ [] → Forall (λ c, c ∉ sep) f →
  py_split_go sep 0 (f ++ sep ++ s) = f :: py_split_go sep 0 s.
Proof.
  intros Hsep Hf. induction Hf as [|c f Hc _ IH].
  - destruct sep as [|c0 sep]; [done|]. cbn [app py_split_go].
    rewrite decide_True by (by exists s).
    replace (length (c0 :: sep) - 1)%nat with (length sep)
      by (cbn [length]; lia).
    by rewrite py_split_go_skip.
  - cbn [app py_split_go]. rewrite decide_False.
    + by rewrite IH.
    + intros [k Hk]. destruct sep as [|c0 sep]; [done|].
      injection Hk as -> _. apply Hc. by left.
Qed.

Lemma py_split_go_last sep (f : str) :
  sep ≠ [] → Forall (λ c, c ∉ sep) f → py_split_go sep 0 f = [f].
Proof.
  intros Hsep Hf. induction Hf as [|c f Hc _ IH]; [done|].
  cbn [py_split_go]. rewrite decide_False.
  + by rewrite IH.
  + intros [k Hk]. destruct sep as [|c0 sep]; [done|].
    injection Hk as -> _. apply Hc. by left.
Qed.

Lemma py_split_go_join sep (parts : list str) :
  sep ≠ [] → parts ≠ [] → Forall (Forall (λ c, c ∉ sep)) parts →
  py_split_go sep 0 (py_join sep parts) = parts.
Proof.
  intros Hsep Hne Hparts. induction Hparts as [|p ps Hp Hps IH]; [done|].
  destruct ps as [|q ps].
  - by apply py_split_go_last.
  - change (py_join sep (p :: q :: ps)) with (p ++ sep ++ py_join sep (q :: ps)).
    rewrite py_split_go_field by done. by rewrite IH.
Qed.

Lemma trimmed_join (lines : list str) :
  lines ≠ [] → Forall trimmed lines → trimmed (py_join newline lines).
Proof.
  intros Hne Hlines. split.
  - destruct Hlines as [|l ls [(c & Hc & Hcs) _] _]; [done|].
    exists c. split; [|done]. destruct l as [|c0 l]; [done|].
    by destruct ls.
  - induction Hlines as [|l ls [_ (c & Hc & Hcs)] Hls IH]; [done|].
    destruct ls as [|l' ls]; [by exists c|].
    destruct IH as (c' & Hc' & Hcs'); [done|]. exists c'. split; [|done].
    change (py_join newline (l :: l' :: ls))
      with (l ++ newline ++ py_join newline (l' :: ls)).
    by rewrite !last_app, Hc'.
Qed.

Lemma trimmed_no_newline_split (lines : list str) (pre post : str) :
  blank pre → blank post → lines ≠ [] →
  Forall (λ l, trimmed l ∧ 10%N ∉ l) lines →
  py_split newline (py_strip (pre ++ py_join newline lines ++ post))
  = Return lines.
Proof.
  intros Hpre Hpost Hne Hlines.
  rewrite py_strip_trimmed; [|done|done|].
  - unfold py_split. rewrite decide_False by done.
    rewrite py_split_go_join; [done|done|done|].
    eapply Forall_impl; [exact Hlines|]. intros l [_ Hl].
    apply Forall_forall. intros c Hc [->|[]%elem_of_nil]%elem_of_cons. done.
  - apply trimmed_join; [done|]. eapply Forall_impl; [exact Hlines|]. by intros l [? _].
Qed.

Lemma elem_of_py_join sep (parts : list str) c :
  c ∈ py_join sep parts → c ∈ sep ∨ ∃ p, p ∈ parts ∧ c ∈ p.
Proof.
  induction parts as [|p ps IH]; [by intros ?%elem_of_nil|].
  destruct ps as [|q ps].
  - intros Hc. right. exists p. split; [by left|done].
  - change (py_join sep (p :: q :: ps)) with (p ++ sep ++ py_join sep (q :: ps)).
    rewrite !elem_of_app. intros [Hc|[Hc|Hc]].
    + right. exists p. split; [by left|done].
    + by left.
    + destruct (IH Hc) as [?|(p' & Hp' & Hcp')]; [by left|].
      right. exists p'. split; [by right|done].
Qed.

Section load_facts.
Context {P : Python}.

Lemma load_lines (sep : str) (rows : list (list str)) (pre post : str) :
  sep ≠ [] → 10%N ∉ sep → blank pre → blank post → rows ≠ [] →
  Forall (λ row, trimmed (py_join sep row) ∧ Forall (field_of sep) row) rows →
  py_split newline (py_strip (pre ++ py_join newline (py_join sep <$> rows) ++ post))
  = Return (py_join sep <$> rows)
  ∧ Forall (λ row, row ≠ [] ∧
                   py_split sep (py_strip (py_join sep row)) = Return row) rows.
Proof.
  intros Hsep Hnl Hpre Hpost Hne Hrows. split.
  - apply trimmed_no_newline_split; [done|done|by destruct rows|].
    apply Forall_fmap. eapply Forall_impl; [exact Hrows|].
    intros row [Htr Hfields]. split; [done|].
    intros [?|(f & Hf & Hcf)]%elem_of_py_join; [done|].
    rewrite Forall_forall in Hfields. specialize (Hfields f Hf).
    unfold field_of in Hfields. rewrite Forall_forall in Hfields. by destruct (Hfields _ Hcf).
  - eapply Forall_impl; [exact Hrows|]. intros row [Htr Hfields].
    assert (row ≠ []) as Hrow.
    { intros ->. by destruct Htr as [(c & ? & _) _]. }
    split; [done|].
    rewrite py_strip_id by done.
    unfold py_split. rewrite decide_False by done.
    rewrite py_split_go_join; [done|done|done|].
    eapply Forall_impl; [exact Hfields|]. intros f Hf. unfold field_of in Hf.
    eapply Forall_impl; [exact Hf|]. by intros c [_ ?].
Qed.

Lemma py_item_take {A : Type} (l : list A) (n k : nat) :
  (k < n)%nat → py_item (take n l) k = py_item l k.
Proof. intros Hk. unfold py_item. by rewrite lookup_take_lt. Qed.

(** X20. [load_list_of_int_int_from_path] reads back a file written as lines
    of fields: if the fields hold no newline and no character of the
    separator, no line starts or ends with whitespace, and the text is
    surrounded by whitespace only (a final newline, say), each line gives
    the pair of [int] of its first two fields, in the order of the file, and
    the fields after the second are ignored. A line of one field raises
    [IndexError] once [int] has read that field, and the first line that
    fails decides the exception. *)
Theorem load_list_of_int_int_from_path_fields :
  ∀ (sep pre post : str) (rows : list (list str)),
    sep ≠ [] → 10%N ∉ sep → blank pre → blank post → rows ≠ [] →
    Forall (λ row, trimmed (py_join sep row) ∧ Forall (field_of sep) row) rows →
    load_list_of_int_int_from_path
      (pre ++ py_join newline (py_join sep <$> rows) ++ post) sep
    = mapM (λ row, a ← py_item row 0; x ← py_int_str a;
                   b ← py_item row 1; y ← py_int_str b;
                   Return (x, y)) rows.
Proof.
  intros sep pre post rows Hsep Hnl Hpre Hpost Hne Hrows.
  destruct (load_lines sep rows pre post) as [Hlines Hsplit]; [done..|].
  unfold load_list_of_int_int_from_path. rewrite Hlines.
  cbn [mbind result_bind]. rewrite mapM_result_fmap.
  apply mapM_result_ext. eapply Forall_impl; [exact Hsplit|].
  intros row [_ Hrow]. cbn [compose]. rewrite Hrow.
  cbn [fmap result_fmap mbind result_bind].
  rewrite !py_item_take by lia. done.
Qed.

(** X21. [load_list_of_int_str_from_path] on the same kind of file: each
    line gives [int] of its first field and the other fields joined by one
    space, so a name that held the separator comes back with a space in its
    place, and a line of one field gets the empty name instead of an
    error. *)
Theorem load_list_of_int_str_from_path_fields :
  ∀ (sep pre post : str) (rows : list (list str)),
    sep ≠ [] → 10%N ∉ sep → blank pre → blank post → rows ≠ [] →
    Forall (λ row, trimmed (py_join sep row) ∧ Forall (field_of sep) row) rows →
    load_list_of_int_str_from_path
      (pre ++ py_join newline (py_join sep <$> rows) ++ post) sep
    = mapM (λ row, a ← py_item row 0; x ← py_int_str a;
                   Return (x, py_join space (drop 1 row))) rows.
Proof.
  intros sep pre post rows Hsep Hnl Hpre Hpost Hne Hrows.
  destruct (load_lines sep rows pre post) as [Hlines Hsplit]; [done..|].
  unfold load_list_of_int_str_from_path. rewrite Hlines.
  cbn [mbind result_bind]. rewrite mapM_result_fmap.
  apply mapM_result_ext. eapply Forall_impl; [exact Hsplit|].
  intros row [_ Hrow]. cbn [compose]. by rewrite Hrow.
Qed.

End load_facts.

(* The side conditions of a concrete text. *)
Ltac text_facts :=
  try match goal with
      | |- Forall ?P ?l => let l' := eval vm_compute in l in change (Forall P l')
      end;
  repeat first
    [ apply Forall_nil_2 | apply Forall_cons_2 | split | eexists
    | reflexivity | discriminate
    | apply not_elem_of_nil
    | apply not_elem_of_cons; split; [discriminate|] ].

(* Two ratings and the final newline of the file. *)
Lemma load_list_of_int_int_from_path_fields_witness :
  load_list_of_int_int_from_path (P:=ref_python)
    (literal "1::10::5" ++ newline ++ literal "2::20::3" ++ newline)
    default_sep
  = Return [(1, 10); (2, 20)].
Proof.
  refine (load_list_of_int_int_from_path_fields (P:=ref_python)
            default_sep [] newline
            [literal <$> ["1"; "10"; "5"]; literal <$> ["2"; "20"; "3"]]
            _ _ _ _ _ _).
  - done.
  - text_facts.
  - constructor.
  - by constructor.
  - done.
  - text_facts.
Defined.

(* A name that holds the separator, and a line of one field. *)
Lemma load_list_of_int_str_from_path_fields_witness :
  load_list_of_int_str_from_path (P:=ref_python)
    (literal "1::Toy Story::1995" ++ newline ++ literal "2")
    default_sep
  = Return [(1, literal "Toy Story 1995"); (2, [])].
Proof.
  refine (load_list_of_int_str_from_path_fields (P:=ref_python)
            default_sep [] []
            [literal <$> ["1"; "Toy Story"; "1995"]; literal <$> ["2"]]
            _ _ _ _ _ _).
  - done.
  - text_facts.
  - constructor.
  - constructor.
  - done.
  - text_facts.
Defined.

Lemma mapM_result_raise_inv {A B : Type} (f : A → result B) l e :
  mapM f l = Raise e → ∃ x, x ∈ l ∧ f x = Raise e.
Proof.
  induction l as [|x l IH]; [done|].
  change (mapM f (x :: l)) with (y ← f x; k ← mapM f l; Return (y :: k)).
  destruct (f x) as [y|e'] eqn:Hx.
  - cbn [mbind result_bind]. destruct (mapM f l) as [k|e'] eqn:Hl; [done|].
    intros [= ->]. destruct IH as (x' & Hx' & Hfx'); [done|].
    exists x'. split; [by right|done].
  - intros [= ->]. exists x. split; [by left|done].
Qed.

Lemma mapM_result_length {A B : Type} (f : A → result B) l ks :
  mapM f l = Return ks → length ks = length l.
Proof.
  revert ks. induction l as [|x l IH]; intros ks.
  - by intros [= <-].
  - change (mapM f (x :: l)) with (y ← f x; k ← mapM f l; Return (y :: k)).
    destruct (f x) as [y|e']; [|done]. cbn [mbind result_bind].
    destruct (mapM f l) as [k|e']; [|done]. intros [= <-].
    cbn [length]. by rewrite (IH k).
Qed.

Section load_errors.
Context {P : Python} {L : PythonLaws P}.

(** X22. A file that is empty, or holds whitespace only, is not read as having
    no record: the stripped text still splits into one empty line, and
    both loaders raise [ValueError], from [int] of the empty string or from
    the empty separator. *)
Theorem load_blank_file_raises :
  ∀ (content sep : str),
    blank content →
    load_list_of_int_int_from_path content sep = Raise ValueError ∧
    load_list_of_int_str_from_path content sep = Raise ValueError.
Proof.
  intros content sep Hblank.
  unfold load_list_of_int_int_from_path, load_list_of_int_str_from_path.
  rewrite (py_strip_blank content) by done.
  change (py_split newline []) with (Return [[] : str]).
  cbn [mbind result_bind].
  change (mapM ?f [?x]) with (y ← f x; k ← mapM f []; Return (y :: k)).
  unfold py_split. destruct (decide (sep = [])); [done|].
  cbn [fmap result_fmap mbind result_bind].
  change (py_strip []) with ([] : str).
  cbn [py_split_go take mbind result_bind py_item lookup list_lookup].
  by rewrite py_int_str_empty.
Qed.

(** X23. Whatever the file holds: with an empty separator both loaders raise
    [ValueError]; [load_list_of_int_str_from_path] can raise nothing but
    [ValueError], since a split line always has a first field; and a
    loader that returns never returns an empty list. *)
Theorem load_never_empty :
  ∀ (content sep : str),
    (sep = [] →
       load_list_of_int_int_from_path content sep = Raise ValueError ∧
       load_list_of_int_str_from_path content sep = Raise ValueError)
    ∧ (∀ e, load_list_of_int_str_from_path content sep = Raise e → e = ValueError)
    ∧ (∀ l, load_list_of_int_int_from_path content sep = Return l → l ≠ [])
    ∧ (∀ l, load_list_of_int_str_from_path content sep = Return l → l ≠ []).
Proof.
  intros content sep.
  unfold load_list_of_int_int_from_path, load_list_of_int_str_from_path.
  change (py_split newline (py_strip content))
    with (Return (py_split_go newline 0 (py_strip content))).
  cbn [mbind result_bind].
  pose proof (py_split_go_nonempty newline (py_strip content) 0) as Hne.
  destruct (py_split_go newline 0 (py_strip content)) as [|line lines]; [done|].
  clear Hne. split_and!.
  - intros ->.
    change (mapM ?f (?x :: ?l)) with (y ← f x; k ← mapM f l; Return (y :: k)).
    done.
  - intros e (row & _ & Hrow)%mapM_result_raise_inv.
    unfold py_split in Hrow. destruct (decide (sep = [])); [by injection Hrow|].
    cbn [mbind result_bind] in Hrow.
    pose proof (py_split_go_nonempty sep (py_strip row) 0) as Hne.
    destruct (py_split_go sep 0 (py_strip row)) as [|a fields]; [done|].
    cbn [py_item lookup list_lookup mbind result_bind] in Hrow.
    destruct (py_int_str a) as [x|e'] eqn:Ha; [done|].
    injection Hrow as <-. by apply (py_int_str_raises a).
  - intros l Hl%mapM_result_length. by destruct l.
  - intros l Hl%mapM_result_length. by destruct l.
Qed.

End load_errors.

Section load_data.
Context {P : Python}.

Lemma load_list_of_int_str_from_path_nonempty (content sep : str) l :
  load_list_of_int_str_from_path content sep = Return l → l ≠ [].
Proof.
  unfold load_list_of_int_str_from_path.
  change (py_split newline (py_strip content))
    with (Return (py_split_go newline 0 (py_strip content))).
  cbn [mbind result_bind].
  pose proof (py_split_go_nonempty newline (py_strip content) 0) as Hne.
  intros Hl%mapM_result_length.
  destruct l; [|done]. by destruct (py_split_go newline 0 (py_strip content)).
Qed.

(** X24. [DualEncoderLoadData]: once the three files are read, the
    constructor cannot fail. A loader never returns an empty table, so
    [max] always has an element to return; the data set holds the
    interactions as read, and [users_size] and [items_size] are one more
    than the largest id read from the users and the items file. What the
    interactions file holds plays no part in the sizes. *)
Theorem DualEncoderLoadData_init_after_load :
  ∀ (interactions_text users_text items_text : str)
    (i : list (Z * Z)) (u m : list (Z * str)),
    load_list_of_int_int_from_path interactions_text default_sep = Return i →
    load_list_of_int_str_from_path users_text default_sep = Return u →
    load_list_of_int_str_from_path items_text default_sep = Return m →
    ∃ self,
      DualEncoderLoadData_init interactions_text users_text items_text
        = Return self ∧
      interactions self = i ∧
      (users self).*1 = u.*1 ∧ (items self).*1 = m.*1 ∧
      Forall (λ x, x.1 < users_size self) u ∧ users_size self - 1 ∈ u.*1 ∧
      Forall (λ x, x.1 < items_size self) m ∧ items_size self - 1 ∈ m.*1.
Proof.
  intros it ut mt i u m Hi Hu Hm. unfold DualEncoderLoadData_init.
  rewrite Hi, Hu, Hm. cbn [mbind result_bind].
  apply load_list_of_int_str_from_path_nonempty in Hu, Hm.
  unfold DualEncoderDatasets_init.
  assert (∀ l : list (Z * str), (prod_map id latin1 <$> l).*1 = l.*1) as Hfst.
  { intros l. induction l as [|[??] l IH]; [done|].
    rewrite !fmap_cons, IH. done. }
  destruct (py_max_id (prod_map id latin1 <$> u)) as [mu|e] eqn:Hmu;
    [|by destruct u].
  destruct (py_max_id (prod_map id latin1 <$> m)) as [mi|e] eqn:Hmi;
    [|by destruct m].
  destruct (py_max_id_spec _ _ Hmu) as [Hu1 Hu2].
  destruct (py_max_id_spec _ _ Hmi) as [Hi1 Hi2].
  rewrite Hfst in Hu2, Hi2. rewrite Forall_fmap in Hu1, Hi1.
  eexists. split; [done|]. unfold users_size, items_size.
  cbn [mbind result_bind interactions users items _users_size _items_size].
  rewrite !Hfst. split_and!; try done.
  - eapply Forall_impl; [exact Hu1|]. intros [??]. cbn. lia.
  - by replace (mu + 1 - 1) with mu by lia.
  - eapply Forall_impl; [exact Hi1|]. intros [??]. cbn. lia.
  - by replace (mi + 1 - 1) with mi by lia.
Qed.

End load_data.

Lemma decimal_raises s : ∀ acc e, decimal acc s = Raise e → e = ValueError.
Proof.
  induction s as [|c s IH]; intros acc e; [done|].
  cbn [decimal]. destruct (_ && _)%bool; [apply IH|by intros [= <-]].
Qed.

#[global] Instance ref_python_laws : PythonLaws ref_python.
Proof.
  split; [|done].
  intros s e. cbn [py_int_str ref_python]. unfold ref_int.
  destruct s as [|c s]; [by intros [= <-]|].
  destruct (c =? 45)%N.
  { destruct s as [|c' s]; [by intros [= <-]|].
    destruct (decimal 0 (c' :: s)) as [x|e'] eqn:Hd; [done|].
    intros [= <-]. by apply decimal_raises in Hd. }
  destruct (c =? 43)%N.
  { destruct s as [|c' s]; [by intros [= <-]|]. apply decimal_raises. }
  apply decimal_raises.
Qed.

(* A file that holds a newline only. *)
Lemma load_blank_file_raises_witness :
  load_list_of_int_int_from_path (P:=ref_python) newline default_sep
    = Raise ValueError ∧
  load_list_of_int_str_from_path (P:=ref_python) newline default_sep
    = Raise ValueError.
Proof.
  apply (load_blank_file_raises (P:=ref_python) newline default_sep).
  by constructor.
Defined.

(* A well-formed line read with the empty separator. *)
Lemma load_never_empty_witness :
  load_list_of_int_int_from_path (P:=ref_python) (literal "1::2") []
    = Raise ValueError ∧
  load_list_of_int_str_from_path (P:=ref_python) (literal "1::2") []
    = Raise ValueError.
Proof.
  exact (proj1 (load_never_empty (P:=ref_python) (literal "1::2") []) eq_refl).
Defined.

(* One rating, two users and three films. *)
Lemma DualEncoderLoadData_init_after_load_witness :
  ∃ self,
    DualEncoderLoadData_init (P:=ref_python)
      (literal "1::2::5") (literal "0::F" ++ newline ++ literal "1::M")
      (literal "2::C" ++ newline ++ literal "0::A" ++ newline ++ literal "1::B")
      = Return self ∧
    interactions self = [(1, 2)] ∧ users_size self = 2 ∧ items_size self = 3.
Proof.
  destruct (DualEncoderLoadData_init_after_load (P:=ref_python)
              (literal "1::2::5") (literal "0::F" ++ newline ++ literal "1::M")
              (literal "2::C" ++ newline ++ literal "0::A" ++ newline
                 ++ literal "1::B")
              [(1, 2)]
              [(0, literal "F"); (1, literal "M")]
              [(2, literal "C"); (0, literal "A"); (1, literal "B")]
              eq_refl eq_refl eq_refl)
    as (self & Hrun & Hinter & _).
  exists self. split; [exact Hrun|]. split; [exact Hinter|].
  vm_compute in Hrun. injection Hrun as <-. split; reflexivity.
Defined.
